(** * maptalks overlay layer and marker symbolizers: a shallow embedding

    The development follows five source files:
    - [src/layer/OverlayLayer.js]: the geometry store of a layer
      ([_geoList], [_geoMap]) with [addGeometry], [removeGeometry],
      [getGeometryById], [forEach], [identify], [_findInList], [clear],
      [getGeometries] and the reactions to the events of a geometry;
    - the text marker symbolizer ([translate], [genCacheKey], [_descText],
      [getRotation]);
    - [ImageMarkerSymbolizer.js] ([symbolize]: what it draws, its handling
      of [globalAlpha] and of the size of the marker);
    - the base class of the layers, Layer ([show], [hide], [isVisible],
      [bringToFront], [bringToBack]);
    - [src/map/tool/MapTool.js] ([addTo], [enable], [disable]).

    Geometries are JavaScript objects that the layer and its callers share
    and mutate, so the store keeps references and the fields live in a heap.
    A JavaScript object used as a dictionary is a [gmap] over its own string
    keys (numeric ids are represented by the property key they coerce to);
    the id map of the layer is read with the members it inherits from
    [Object.prototype]. Numbers are integers; a call of a method of
    [undefined] raises a TypeError. *)

From stdpp Require Import base gmap list strings sorting pretty.
From Stdlib Require Import ZArith QArith Lia.

Close Scope Q_scope.

(** ** Outcomes of calls that may throw

    A JavaScript exception does not undo what the call did before it: the
    world reached at the [throw] is part of the outcome. *)

Inductive outcome (A : Type) : Type :=
  | Return (a : A)
  | Throw (message : string) (a : A).
Arguments Return {A} a.
Arguments Throw {A} message a.

Definition obind {A} (m : outcome A) (k : A → outcome A) : outcome A :=
  match m with
  | Return a => k a
  | Throw msg a => Throw msg a
  end.

Notation "x ←! m ; k" := (obind m (λ x, k))
  (at level 20, m at level 100, k at level 200, right associativity,
   format "x  ←!  m ;  '/' k").

Definition state_of {A} (m : outcome A) : A :=
  match m with Return a | Throw _ a => a end.

Definition returns {A} (m : outcome A) : bool :=
  match m with Return _ => true | Throw _ _ => false end.

(** The message of the TypeError the engine raises when a property of
    [undefined] is read or called; its wording is the engine's. *)
Definition TypeError : string := "TypeError".

(** ** The overlay layer *)

Module Overlay.

(** Object identity of a geometry; [===] on geometries compares these. *)
Abbreviation ref := nat (only parsing).

(** The fields of a geometry the layer reads or writes. [None] stands for
    [undefined]/[null]. *)
Record Geometry := mkGeometry {
  g_id : option string;          (* getId(): property key of the external id *)
  g_zIndex : Z;                  (* getZIndex() *)
  g_internalId : option Z;       (* _getInternalId() *)
  g_layer : option nat           (* getLayer(), by layer identity *)
}.

Global Instance Geometry_inhabited : Inhabited Geometry :=
  populate (mkGeometry None 0 None None).

(** Calls the layer makes on its collaborators, in the order they happen. *)
Inductive Event :=
  | GeometryAdd (geo : ref)                        (* geo._fireEvent('add') *)
  | RendererGeometryAdd (gs : list (option ref))   (* renderer.onGeometryAdd *)
  | LayerAddGeo (gs : list (option ref))           (* fire('addgeo') *)
  | RendererGeometryRemove (gs : list ref)         (* renderer.onGeometryRemove *)
  | LayerRemoveGeo (gs : list (option ref))        (* fire('removegeo') *)
  | LayerClear.                                    (* fire('clear') *)

Record World := mkWorld {
  heap : gmap nat Geometry;      (* the geometry objects *)
  layer_self : nat;              (* identity of this layer *)
  layer_id : string;             (* this.getId() *)
  _geoList : list nat;
  _geoMap : gmap string nat;
  _clearing : bool;
  has_map : bool;                (* getMap() is not null *)
  has_renderer : bool;           (* _getRenderer() is defined *)
  uid : Z;                       (* the value the next UID() returns *)
  events : list Event            (* oldest first *)
}.

Definition with_heap (w : World) (h : gmap nat Geometry) : World :=
  mkWorld h (layer_self w) (layer_id w) (_geoList w) (_geoMap w)
          (_clearing w) (has_map w) (has_renderer w) (uid w) (events w).
Definition with_geoList (w : World) (l : list nat) : World :=
  mkWorld (heap w) (layer_self w) (layer_id w) l (_geoMap w)
          (_clearing w) (has_map w) (has_renderer w) (uid w) (events w).
Definition with_geoMap (w : World) (m : gmap string nat) : World :=
  mkWorld (heap w) (layer_self w) (layer_id w) (_geoList w) m
          (_clearing w) (has_map w) (has_renderer w) (uid w) (events w).
Definition with_clearing (w : World) (b : bool) : World :=
  mkWorld (heap w) (layer_self w) (layer_id w) (_geoList w) (_geoMap w)
          b (has_map w) (has_renderer w) (uid w) (events w).
Definition with_uid (w : World) (n : Z) : World :=
  mkWorld (heap w) (layer_self w) (layer_id w) (_geoList w) (_geoMap w)
          (_clearing w) (has_map w) (has_renderer w) n (events w).
Definition emit (w : World) (e : Event) : World :=
  mkWorld (heap w) (layer_self w) (layer_id w) (_geoList w) (_geoMap w)
          (_clearing w) (has_map w) (has_renderer w) (uid w) (events w ++ [e]).

(** *** Geometry accessors *)

Definition deref (w : World) (geo : ref) : Geometry := heap w !!! geo.

Definition getId (w : World) (geo : ref) : option string := g_id (deref w geo).
Definition getZIndex (w : World) (geo : ref) : Z := g_zIndex (deref w geo).
Definition _getInternalId (w : World) (geo : ref) : option Z :=
  g_internalId (deref w geo).
Definition getLayer (w : World) (geo : ref) : option nat :=
  g_layer (deref w geo).

Definition _setInternalId (w : World) (geo : ref) (internalId : Z) : World :=
  let g := deref w geo in
  with_heap w (<[geo := mkGeometry (g_id g) (g_zIndex g) (Some internalId)
                                   (g_layer g)]> (heap w)).

(** Modelled from the spec: Geometry._bindLayer is not among the sources; the
    spec has a geometry "bound to a store" on add, which is recorded in the
    field [getLayer] reads. *)
Definition _bindLayer (w : World) (geo : ref) : World :=
  let g := deref w geo in
  with_heap w (<[geo := mkGeometry (g_id g) (g_zIndex g) (g_internalId g)
                                   (Some (layer_self w))]> (heap w)).

(** Modelled from the spec: core/util UID is not among the sources; the spec
    has internal ids "assigned at add time, strictly increasing
    process-wide". *)
Definition UID (w : World) : Z * World := (uid w, with_uid w (uid w + 1)).

(** *** getGeometryById *)

(** The argument of [getGeometryById]: [undefined], [null], or a value used
    as a property key. *)
Inductive jsid :=
  | IdUndefined
  | IdNull
  | IdKey (k : string).

Definition isNil_id (id : jsid) : bool :=
  match id with IdKey _ => false | _ => true end.

Definition is_empty_string (id : jsid) : bool :=
  match id with IdKey k => bool_decide (k = "") | _ => false end.

Definition key_of (id : jsid) : string :=
  match id with
  | IdUndefined => "undefined"
  | IdNull => "null"
  | IdKey k => k
  end.

(** [_geoMap] is a plain object ([{}]): besides the ids registered in it, as
    its own properties, it has the members of Object.prototype, which a
    read [_geoMap[k]] finds when [k] is not registered. *)
Definition Object_prototype : list string :=
  [ "constructor"; "__defineGetter__"; "__defineSetter__"; "hasOwnProperty";
    "__lookupGetter__"; "__lookupSetter__"; "isPrototypeOf";
    "propertyIsEnumerable"; "toString"; "valueOf"; "__proto__";
    "toLocaleString" ].

Definition inherited (k : string) : bool := bool_decide (k ∈ Object_prototype).

(** What a read of [_geoMap] answers: a geometry, or a member of
    Object.prototype (a function, or Object.prototype itself for
    [__proto__]); all of them are truthy and none is [null]. *)
Inductive member :=
  | Geo (geo : ref)
  | Proto (name : string).

(** [this._geoMap[k]]; [None] is [undefined]. *)
Definition _geoMap_get (w : World) (k : string) : option member :=
  match _geoMap w !! k with
  | Some geo => Some (Geo geo)
  | None => if inherited k then Some (Proto k) else None
  end.

Definition getGeometryById (w : World) (id : jsid) : option member :=
  if isNil_id id || is_empty_string id then None
  else match _geoMap_get w (key_of id) with
       | None => None
       | Some v => Some v
       end.

(** *** Ordering: _compare, _sortGeometries, _findInList *)

(** A JavaScript number that may be [NaN] ([None]). *)
Definition num_sub (x y : option Z) : option Z :=
  match x, y with
  | Some a, Some b => Some (a - b)%Z
  | _, _ => None
  end.

Definition _compare (w : World) (a b : ref) : option Z :=
  if (getZIndex w a =? getZIndex w b)%Z
  then num_sub (_getInternalId w a) (_getInternalId w b)
  else Some (getZIndex w a - getZIndex w b)%Z.

(** [v > 0], false on [NaN]. *)
Definition is_positive (v : option Z) : bool :=
  match v with Some n => (0 <? n)%Z | None => false end.

(** Array.prototype.sort with a comparator: a stable sort that moves an
    element behind another only when the comparator is positive ([NaN] counts
    as [+0]). Any algorithm gives the same array when the comparator is a
    strict total order on the elements, see [sorted_permutation_unique]. *)
Fixpoint sort_insert {A} (cmp : A → A → option Z) (x : A) (l : list A) : list A :=
  match l with
  | [] => [x]
  | y :: l' => if is_positive (cmp x y) then y :: sort_insert cmp x l'
               else x :: y :: l'
  end.

Fixpoint array_sort {A} (cmp : A → A → option Z) (l : list A) : list A :=
  match l with
  | [] => []
  | x :: l' => sort_insert cmp x (array_sort cmp l')
  end.

Definition _sortGeometries (w : World) : World :=
  with_geoList w (array_sort (_compare w) (_geoList w)).

(** The [while (low <= high)] loop of [_findInList]; every turn shrinks
    [high - low], so [length _geoList] turns are enough
    (see [_findInList_loop_fuel]). *)
Fixpoint _findInList_loop (fuel : nat) (w : World) (geo : ref) (low high : Z) : Z :=
  match fuel with
  | O => -1
  | S fuel' =>
    if (low <=? high)%Z then
      let middle := ((low + high) / 2)%Z in
      match _geoList w !! Z.to_nat middle with
      | Some m =>
        if bool_decide (m = geo) then middle
        else if is_positive (_compare w m geo)
             then _findInList_loop fuel' w geo low (middle - 1)
             else _findInList_loop fuel' w geo (middle + 1) high
      | None => -1
      end
    else -1
  end%Z.

Definition _findInList (w : World) (geo : ref) : Z :=
  let len := length (_geoList w) in
  if bool_decide (len = 0%nat) then (-1)%Z
  else _findInList_loop len w geo 0 (Z.of_nat len - 1).

(** *** addGeometry *)

Definition invalid_geometry_msg (w : World) (i : nat) : string :=
  "Invalid geometry to add to layer(" +:+ layer_id w +:+ ") at index:" +:+ pretty i.

Definition duplicate_id_msg (w : World) (geoId : string) (i : nat) : string :=
  "Duplicate geometry id in layer(" +:+ layer_id w +:+ "):" +:+ geoId
    +:+ ", at index:" +:+ pretty i.

(** One turn of the [for] loop, on entry [i] of the array. A [None] entry is
    a falsy one ([null], [undefined]); the other entries are geometries (an
    entry given as JSON is the geometry [Geometry.fromJSON] makes of it).
    The view fitting ([fitView]) and the hooks [onAddGeometry] and [onAdd]
    read the geometry and change nothing in the store; they are left out. *)
Definition addGeometry_step (w : World) (i : nat) (entry : option ref) : outcome World :=
  match entry with
  | None => Throw (invalid_geometry_msg w i) w
  | Some geo =>
    w1 ←! match getId w geo with
          | None => Return w
          | Some geoId =>
            if bool_decide (is_Some (_geoMap_get w geoId))
            then Throw (duplicate_id_msg w geoId i) w
            else Return (with_geoMap w (<[geoId := geo]> (_geoMap w)))
          end;
    let '(internalId, w2) := UID w1 in
    let w3 := _setInternalId w2 geo internalId in
    let w4 := with_geoList w3 (_geoList w3 ++ [geo]) in
    let w5 := _bindLayer w4 geo in
    Return (emit w5 (GeometryAdd geo))
  end.

Fixpoint addGeometry_loop (w : World) (i : nat) (geometries : list (option ref))
  : outcome World :=
  match geometries with
  | [] => Return w
  | entry :: rest =>
    w' ←! addGeometry_step w i entry;
    addGeometry_loop w' (S i) rest
  end.

(** [addGeometry] on an array; a single geometry [g] is the array [[g]].
    On a map the renderer is called without a test that there is one. *)
Definition addGeometry (w : World) (geometries : list (option ref)) : outcome World :=
  match geometries with
  | [] => Return w
  | _ =>
    w1 ←! addGeometry_loop w 0 geometries;
    let w2 := _sortGeometries w1 in
    w3 ←! (if has_map w2 then
             if has_renderer w2
             then Return (emit w2 (RendererGeometryAdd geometries))
             else Throw TypeError w2
           else Return w2);
    Return (emit w3 (LayerAddGeo geometries))
  end.

(** A sequence of [addGeometry] calls; it ends at the first call that throws. *)
Fixpoint addGeometry_calls (w : World) (calls : list (list (option ref)))
  : outcome World :=
  match calls with
  | [] => Return w
  | geometries :: rest =>
    w' ←! addGeometry w geometries;
    addGeometry_calls w' rest
  end.

(** *** Removal *)

Definition splice1 (l : list ref) (idx : Z) : list ref := delete (Z.to_nat idx) l.

(** The argument is [None] for a falsy [geometry]. *)
Definition onRemoveGeometry (w : World) (geometry : option ref) : World :=
  match geometry with
  | None => w
  | Some geo =>
    if _clearing w then w
    else if negb (bool_decide (getLayer w geo = Some (layer_self w))) then w
    else match _getInternalId w geo with
         | None => w
         | Some _ =>
           let w1 := match getId w geo with
                     | Some geoId => with_geoMap w (delete geoId (_geoMap w))
                     | None => w
                     end in
           let idx := _findInList w1 geo in
           let w2 := if (0 <=? idx)%Z
                     then with_geoList w1 (splice1 (_geoList w1) idx)
                     else w1 in
           if has_renderer w2 then emit w2 (RendererGeometryRemove [geo]) else w2
         end
  end.

(** Modelled from the spec: Geometry.remove is not among the sources; the
    spec has a geometry "unbound on removal (cleared from id map and
    sequence)": the geometry tells its layer ([onRemoveGeometry]) and then
    drops its layer and its internal id. Only this layer's store is
    modelled, so a geometry of another layer is only unbound. *)
Definition Geometry_remove (w : World) (geo : ref) : World :=
  match getLayer w geo with
  | None => w
  | Some _ =>
    let w1 := onRemoveGeometry w (Some geo) in
    let g := deref w1 geo in
    with_heap w1 (<[geo := mkGeometry (g_id g) (g_zIndex g) None None]> (heap w1))
  end.

(** An entry of the array given to [removeGeometry]: a geometry, or anything
    else, which is looked up as an id. *)
Inductive target :=
  | ByRef (geo : ref)
  | ById (id : jsid).

(** The loop runs from the last entry to the first and overwrites each
    entry that is not a geometry with what [getGeometryById] finds. When
    that is a member of Object.prototype, the call of its [getLayer], which
    is [undefined], raises a TypeError; the loop ends there, with the world
    it reached. Next to the world the loop gives the entries as resolved. *)
Fixpoint removeGeometry_loop (w : World) (backwards : list target)
  : outcome (World * list (option ref)) :=
  match backwards with
  | [] => Return (w, [])
  | t :: rest =>
    let entry := match t with
                 | ByRef geo => Some (Geo geo)
                 | ById id => getGeometryById w id
                 end in
    match entry with
    | Some (Proto _) => Throw TypeError (w, [])
    | Some (Geo geo) =>
      let w' := if bool_decide (getLayer w geo = Some (layer_self w))
                then Geometry_remove w geo else w in
      match removeGeometry_loop w' rest with
      | Return (w'', resolved) => Return (w'', resolved ++ [Some geo])
      | Throw message st => Throw message st
      end
    | None =>
      match removeGeometry_loop w rest with
      | Return (w'', resolved) => Return (w'', resolved ++ [None])
      | Throw message st => Throw message st
      end
    end
  end.

Definition removeGeometry (w : World) (geometries : list target) : outcome World :=
  match removeGeometry_loop w (reverse geometries) with
  | Return (w', resolved) => Return (emit w' (LayerRemoveGeo resolved))
  | Throw message (w', _) => Throw message w'
  end.

(** *** forEach *)

(** A callback gets the geometry and its index and may do anything to the
    world, the layer's store included. *)
Definition callback := ref → nat → World → World.

(** The [for] loop over the local array [copyOnWrite]; next to the world it
    carries the list of the calls made to [fn] so far. *)
Fixpoint forEach_loop (fn : callback) (copyOnWrite : list ref) (i turns : nat)
    (st : World * list (ref * nat)) : World * list (ref * nat) :=
  match turns with
  | O => st
  | S turns' =>
    match copyOnWrite !! i with
    | Some geo =>
      forEach_loop fn copyOnWrite (S i) turns' (fn geo i st.1, st.2 ++ [(geo, i)])
    | None => st
    end
  end.

Definition forEach (fn : callback) (w : World) : World * list (ref * nat) :=
  let copyOnWrite := _geoList w in
  forEach_loop fn copyOnWrite 0 (length copyOnWrite) (w, []).

Definition clear (w : World) : World :=
  let w1 := with_clearing w true in
  let w2 := (forEach (λ geo _ w', Geometry_remove w' geo) w1).1 in
  let w3 := with_geoMap w2 ∅ in
  let old := _geoList w3 in
  let w4 := with_geoList w3 [] in
  let w5 := if has_renderer w4 then emit w4 (RendererGeometryRemove old) else w4 in
  let w6 := with_clearing w5 false in
  emit w6 LayerClear.

(** *** identify *)

(** What the geometries answer for the query point, once it is projected:
    the map, the painters and the shapes are collaborators of the layer. *)
Record HitTest := mkHitTest {
  isVisible : ref → bool;
  _getPainter : ref → bool;        (* the geometry has a painter *)
  hasArrowStyle : ref → bool;      (* a LineString with an arrow style *)
  extentContains : ref → bool;     (* the painter's container extent exists
                                      and contains the container point *)
  _containsPoint : ref → bool
}.

Record IdentifyOptions := mkIdentifyOptions {
  options_filter : option (ref → bool);   (* options.filter *)
  options_count : option Z                (* options.count, [None] when absent *)
}.

(** [options.count] is truthy and [hits.length >= options.count]. *)
Definition count_reached (opts : IdentifyOptions) (hits : list ref) : bool :=
  match options_count opts with
  | Some n => negb (n =? 0)%Z && (n <=? Z.of_nat (length hits))%Z
  | None => false
  end.

(** What a run of the loop did: the hits it returns, the geometries the
    filter was called on and the geometries whose turn of the loop ran, each
    in the order it happened. *)
Record IdentifyRun := mkIdentifyRun {
  hits : list ref;
  filter_calls : list ref;
  visited : list ref
}.

Definition visit (r : IdentifyRun) (geo : ref) : IdentifyRun :=
  mkIdentifyRun (hits r) (filter_calls r) (visited r ++ [geo]).
Definition call_filter (r : IdentifyRun) (geo : ref) : IdentifyRun :=
  mkIdentifyRun (hits r) (filter_calls r ++ [geo]) (visited r).
Definition push_hit (r : IdentifyRun) (geo : ref) : IdentifyRun :=
  mkIdentifyRun (hits r ++ [geo]) (filter_calls r) (visited r).

(** The loop from the last index down to 0, over the candidates still to
    visit (topmost first). *)
Fixpoint identify_loop (ht : HitTest) (opts : IdentifyOptions)
    (candidates : list ref) (r : IdentifyRun) : IdentifyRun :=
  match candidates with
  | [] => r
  | geo :: rest =>
    let r := visit r geo in
    if negb (isVisible ht geo) || negb (_getPainter ht geo)
    then identify_loop ht opts rest r
    else if negb (hasArrowStyle ht geo) && negb (extentContains ht geo)
    then identify_loop ht opts rest r
    else if _containsPoint ht geo then
      let '(pass, r) :=
        match options_filter opts with
        | None => (true, r)
        | Some f => (f geo, call_filter r geo)
        end in
      if pass then
        let r := push_hit r geo in
        if count_reached opts (hits r) then r
        else identify_loop ht opts rest r
      else identify_loop ht opts rest r
    else identify_loop ht opts rest r
  end.

(** [None]: the layer is on no map and [map.coordinateToPoint] raises a
    TypeError. *)
Definition identify (w : World) (ht : HitTest) (opts : IdentifyOptions)
  : option IdentifyRun :=
  if has_map w
  then Some (identify_loop ht opts (reverse (_geoList w)) (mkIdentifyRun [] [] []))
  else None.

(** *** Reading the store *)

Definition getCount (w : World) : nat := length (_geoList w).

Definition isEmpty (w : World) : bool := bool_decide (length (_geoList w) = 0%nat).

Definition getFirstGeometry (w : World) : option ref :=
  if bool_decide (length (_geoList w) = 0%nat) then None else _geoList w !! 0%nat.

Definition getLastGeometry (w : World) : option ref :=
  let len := length (_geoList w) in
  if bool_decide (len = 0%nat) then None else _geoList w !! (len - 1)%nat.

(** The loop of [getGeometries] with a filter, from index [i] on. *)
Fixpoint getGeometries_loop (f : ref → bool) (rest : list ref) (result : list ref)
  : list ref :=
  match rest with
  | [] => result
  | geometry :: rest' =>
    if f geometry then getGeometries_loop f rest' (result ++ [geometry])
    else getGeometries_loop f rest' result
  end.

Definition getGeometries (w : World) (f : option (ref → bool)) : list ref :=
  match f with
  | None => _geoList w
  | Some f => getGeometries_loop f (_geoList w) []
  end.

(** *** Reactions to the events of a geometry *)

(** An id as an event carries it: [undefined], [null], a number or a
    string. *)
Inductive idvalue :=
  | IdvUndefined
  | IdvNull
  | IdvNum (n : Z)
  | IdvStr (s : string).

Global Instance idvalue_eq_dec : EqDecision idvalue.
Proof. solve_decision. Defined.

Definition isNil_idvalue (v : idvalue) : bool :=
  match v with IdvUndefined | IdvNull => true | _ => false end.

(** The property key a value is used as, and what it reads as in a message. *)
Definition idvalue_key (v : idvalue) : string :=
  match v with
  | IdvUndefined => "undefined"
  | IdvNull => "null"
  | IdvNum n => pretty n
  | IdvStr s => s
  end.

Definition duplicate_id_change_msg (w : World) (new : idvalue) : string :=
  "Duplicate geometry id in layer(" +:+ layer_id w +:+ "):" +:+ idvalue_key new.

(** [_onGeometryIdChange] on [{old, new, target}]; [===] on two ids is
    equality of the values (a number is never a string). *)
Definition _onGeometryIdChange (w : World) (old new : idvalue) (target : ref)
  : outcome World :=
  if bool_decide (new = old)
     && bool_decide (_geoMap w !! idvalue_key old = Some target)
  then Return w
  else
    w1 ←! (if negb (isNil_idvalue new) then
             if bool_decide (is_Some (_geoMap_get w (idvalue_key new)))
             then Throw (duplicate_id_change_msg w new) w
             else Return (with_geoMap w (<[idvalue_key new := target]> (_geoMap w)))
           else Return w);
    Return (if negb (isNil_idvalue old) && negb (bool_decide (new = old))
            then with_geoMap w1 (delete (idvalue_key old) (_geoMap w1))
            else w1).

(** [_onGeometryZIndexChange] on [{old, new}]; the second component tells
    whether the renderer's [onGeometryZIndexChange] was called. *)
Definition _onGeometryZIndexChange (w : World) (old new : Z) : World * bool :=
  if bool_decide (old ≠ new)
  then (_sortGeometries w, has_renderer w)
  else (w, false).

(** *** Notions used to state the properties *)

(** The geometries among the entries of an array. *)
Definition refs_of (entries : list (option ref)) : list ref := omap id entries.

(** The comparator [cmp] agrees with a relation [R] on a pair: it is
    positive exactly when the pair is out of order. *)
Definition agrees {A} (cmp : A → A → option Z) (R : relation A) (x y : A) : Prop :=
  if is_positive (cmp x y) then R y x else R x y.

(** [a] is drawn before [b]: lower zIndex, or the same zIndex and a lower
    internal id. *)
Definition geo_lt (w : World) (a b : nat) : Prop :=
  (getZIndex w a < getZIndex w b)%Z
  ∨ (getZIndex w a = getZIndex w b
     ∧ ∃ m n, _getInternalId w a = Some m ∧ _getInternalId w b = Some n
              ∧ (m < n)%Z).

(** The geometries of [ins] carry the internal ids [base], [base + 1], ...
    in the order of [ins]. *)
Definition internal_ids_from (w : World) (base : Z) (ins : list nat) : Prop :=
  ∀ i r, ins !! i = Some r → _getInternalId w r = Some (base + Z.of_nat i)%Z.

(** What holds of the store between two calls, when [ins] is the sequence of
    the geometries added so far. *)
Record store_inv (w : World) (base : Z) (ins : list nat) : Prop := {
  inv_perm : _geoList w ≡ₚ ins;
  inv_ids : internal_ids_from w base ins;
  inv_uid : uid w = (base + Z.of_nat (length ins))%Z
}.

(** [a] comes before [b] in [l]. *)
Definition before {A} (l : list A) (a b : A) : Prop :=
  ∃ i j, (i < j)%nat ∧ l !! i = Some a ∧ l !! j = Some b.

(** [l] is [ins] sorted by [z] ascending, stably: a permutation of [ins] in
    which [z] never decreases and in which geometries of equal [z] keep the
    order they had in [ins]. *)
Record stable_sort_by (z : nat → Z) (ins l : list nat) : Prop := {
  stable_perm : l ≡ₚ ins;
  stable_ascending : StronglySorted (λ a b, z a ≤ z b)%Z l;
  stable_ties : ∀ a b, z a = z b → before ins a b → before l a b
}.

(** The geometric part of the test: visible, painted, inside the container
    extent unless it is a line with arrows, and containing the point. *)
Definition passes_geometry (ht : HitTest) (geo : nat) : bool :=
  isVisible ht geo && _getPainter ht geo
  && (hasArrowStyle ht geo || extentContains ht geo)
  && _containsPoint ht geo.

(** The geometry is a hit: it passes the geometric test, and the filter when
    there is one. *)
Definition is_hit (ht : HitTest) (opts : IdentifyOptions) (geo : nat) : bool :=
  passes_geometry ht geo
  && match options_filter opts with None => true | Some f => f geo end.

(** How many more hits the loop takes when it holds [k] of them: no bound
    without a count (or with count 0), else up to the count, and one in any
    case, the count being looked at only after a hit is pushed. *)
Definition room (opts : IdentifyOptions) (k : nat) : option nat :=
  match options_count opts with
  | Some n => if (n =? 0)%Z then None
              else Some (Z.to_nat (Z.max 1 (n - Z.of_nat k)))
  | None => None
  end.

Definition take_room {A} (limit : option nat) (l : list A) : list A :=
  match limit with Some k => take k l | None => l end.

(** What an entry of the array given to [removeGeometry] stands for: the
    geometry itself, or the one its id resolves to. *)
Definition resolve_target (w : World) (t : target) : option member :=
  match t with
  | ByRef geo => Some (Geo geo)
  | ById id => getGeometryById w id
  end.

(** The geometry an entry stands for, when it stands for one. *)
Definition resolved_geometry (w : World) (t : target) : option ref :=
  match resolve_target w t with
  | Some (Geo geo) => Some geo
  | _ => None
  end.

(** An entry that stands for nothing of this layer: an id under which the
    read of the id map finds nothing, or a geometry that is bound to
    another layer or to none. *)
Definition foreign (w : World) (t : target) : Prop :=
  match resolve_target w t with
  | Some (Geo geo) => getLayer w geo ≠ Some (layer_self w)
  | Some (Proto _) => False
  | None => True
  end.

(** Every listed geometry is bound to the layer and carries an internal
    id. *)
Definition listed_bound (w : World) : Prop :=
  ∀ g, g ∈ _geoList w →
       getLayer w g = Some (layer_self w) ∧ is_Some (_getInternalId w g).

End Overlay.

(** ** The text marker symbolizer *)

Module TextMarker.

(** A value of a symbol property. Numbers are the integer literals; [VFn] is
    a function-type definition (a computed expression), named by [name]. *)
Inductive value :=
  | VUndefined
  | VNull
  | VBool (b : bool)
  | VNum (n : Z)
  | VStr (s : string)
  | VFn (name : string).

(** Modelled from the spec: core/util isNil and getValueOrDefault are not
    among the sources; the spec applies a default "when the raw value is
    absent or nullish". *)
Definition isNil (v : value) : bool :=
  match v with VUndefined | VNull => true | _ => false end.

Definition getValueOrDefault (v d : value) : value :=
  if isNil v then d else v.

(** String conversion, as in [p + '=' + style[p]]. *)
Definition to_string (v : value) : string :=
  match v with
  | VUndefined => "undefined"
  | VNull => "null"
  | VBool true => "true"
  | VBool false => "false"
  | VNum n => pretty n
  | VStr s => s
  | VFn _ => "[object Object]"
  end.

(** The raw symbol: a dictionary; a property that is absent reads
    [undefined]. *)
Definition prop (s : gmap string value) (p : string) : value :=
  default VUndefined (s !! p).

(** A style object: its own properties in the order [for ... in] visits them
    (the order they were written in). *)
Abbreviation Style := (list (string * value)).

Fixpoint style_get (style : Style) (p : string) : value :=
  match style with
  | [] => VUndefined
  | (q, v) :: rest => if String.eqb q p then v else style_get rest p
  end.

Definition newline : string := String (Ascii.ascii_of_nat 10) "".

Definition translate (s : gmap string value) : Style :=
  [ ("textName", prop s "textName");
    ("textFaceName", getValueOrDefault (prop s "textFaceName") (VStr "monospace"));
    ("textWeight", getValueOrDefault (prop s "textWeight") (VStr "normal"));
    ("textStyle", getValueOrDefault (prop s "textStyle") (VStr "normal"));
    ("textSize", getValueOrDefault (prop s "textSize") (VNum 10));
    ("textFont", getValueOrDefault (prop s "textFont") VNull);
    ("textFill", getValueOrDefault (prop s "textFill") (VStr "#000"));
    ("textOpacity", getValueOrDefault (prop s "textOpacity") (VNum 1));
    ("textHaloFill", getValueOrDefault (prop s "textHaloFill") (VStr "#ffffff"));
    ("textHaloRadius", getValueOrDefault (prop s "textHaloRadius") (VNum 0));
    ("textHaloOpacity", getValueOrDefault (prop s "textHaloOpacity") (VNum 1));
    ("textWrapWidth", getValueOrDefault (prop s "textWrapWidth") VNull);
    ("textWrapBefore", getValueOrDefault (prop s "textWrapBefore") (VBool false));
    ("textWrapCharacter", getValueOrDefault (prop s "textWrapCharacter") (VStr newline));
    ("textLineSpacing", getValueOrDefault (prop s "textLineSpacing") (VNum 0));
    ("textDx", getValueOrDefault (prop s "textDx") (VNum 0));
    ("textDy", getValueOrDefault (prop s "textDy") (VNum 0));
    ("textHorizontalAlignment",
       getValueOrDefault (prop s "textHorizontalAlignment") (VStr "middle"));
    ("textVerticalAlignment",
       getValueOrDefault (prop s "textVerticalAlignment") (VStr "middle"));
    ("textAlign", getValueOrDefault (prop s "textAlign") (VStr "center")) ].


(** [TextMarkerSymbolizer.test]. [None] is a falsy symbol. *)
Definition test (symbol : option (gmap string value)) : bool :=
  match symbol with
  | None => false
  | Some s => negb (isNil (prop s "textName"))
  end.

Definition isFunctionDefinition (v : value) : bool :=
  match v with VFn _ => true | _ => false end.

(** Modelled from the spec: core/mapbox hasFunctionDefinition is not among
    the sources; in the spec "computed-expression presence makes the whole
    style dynamic". *)
Definition hasFunctionDefinition (s : gmap string value) : bool :=
  existsb (λ kv, isFunctionDefinition kv.2) (map_to_list s).

(** The [for ... in] loop of [genCacheKey]: the entries pushed after the
    text content. *)
Fixpoint genCacheKey_entries (style : Style) : list string :=
  match style with
  | [] => []
  | (p, v) :: rest =>
    if (4 <? String.length p)%nat && String.eqb (String.substring 0 4 p) "text"
    then (p +:+ "=" +:+ to_string v) :: genCacheKey_entries rest
    else genCacheKey_entries rest
  end.

Definition genCacheKey (textContent : string) (style : Style) : string :=
  String.concat "-" (textContent :: genCacheKey_entries style).

(** The resolved style around its [textSize] entry. *)
Definition translate_before (s : gmap string value) : Style := take 4 (translate s).
Definition translate_after (s : gmap string value) : Style := drop 5 (translate s).

(** The test of the [for ... in] loop of [genCacheKey] on a property name:
    longer than 4 characters and starting with "text". *)
Definition keyed (p : string) : bool :=
  (4 <? String.length p)%nat && String.eqb (String.substring 0 4 p) "text".

Section symbolizer.
(** Collaborators: the layout descriptor and the function that computes it
    (core/util/strings splitTextToRow), the flag core/util IS_NODE, the
    value a function-type definition has for the geometry at hand, and
    replaceVariable on the geometry's properties. *)
Context {TextDesc : Type}.
Variable splitTextToRow : string → Style → TextDesc.
Variable IS_NODE : bool.
Variable evaluate : string → value.
Variable replaceVariable : value → string.

Record Symbolizer := mkSymbolizer {
  symbol : gmap string value;
  _dynamic : bool;
  style : Style;
  _cacheKey : option string;       (* [None]: never assigned *)
  textDesc : option TextDesc
}.

(** The geometry the symbolizers of one shape share: its
    [___text_symbol_cache] property ([None] while it is not set), and
    counters of what was done to it: layouts computed, cache reads, cache
    writes. *)
Record GeometryState := mkGeometryState {
  text_symbol_cache : option (gmap string TextDesc);
  layouts : nat;
  cache_reads : nat;
  cache_writes : nat
}.

Definition set_textDesc (this : Symbolizer) (d : TextDesc) : Symbolizer :=
  mkSymbolizer (symbol this) (_dynamic this) (style this) (_cacheKey this) (Some d).

(** Modelled from the spec: _defineStyle is not among the sources; a
    literal stays as it is and a computed expression reads as its current
    value. *)
Definition _defineStyle (st : Style) : Style :=
  (λ pv, (pv.1, match pv.2 with VFn f => evaluate f | v => v end)) <$> st.

Definition cache_key_name (this : Symbolizer) : string :=
  default "undefined" (_cacheKey this).

Definition _loadFromCache (this : Symbolizer) (geometry : GeometryState)
  : option TextDesc * GeometryState :=
  let geometry' := mkGeometryState (text_symbol_cache geometry) (layouts geometry)
                     (S (cache_reads geometry)) (cache_writes geometry) in
  match text_symbol_cache geometry with
  | None => (None, geometry')
  | Some cache => (cache !! cache_key_name this, geometry')
  end.

Definition _storeToCache (this : Symbolizer) (geometry : GeometryState)
    (d : TextDesc) : GeometryState :=
  if IS_NODE then geometry
  else
    let cache := default ∅ (text_symbol_cache geometry) in
    mkGeometryState (Some (<[cache_key_name this := d]> cache)) (layouts geometry)
      (cache_reads geometry) (S (cache_writes geometry)).

(** A call of splitTextToRow, counted on the geometry. *)
Definition layout (this : Symbolizer) (geometry : GeometryState)
    (textContent : string) : TextDesc * GeometryState :=
  (splitTextToRow textContent (style this),
   mkGeometryState (text_symbol_cache geometry) (S (layouts geometry))
     (cache_reads geometry) (cache_writes geometry)).

Definition _descText (this : Symbolizer) (geometry : GeometryState)
    (textContent : string) : Symbolizer * GeometryState :=
  if _dynamic this then
    let '(d, geometry) := layout this geometry textContent in
    (set_textDesc this d, geometry)
  else
    let '(cached, geometry) := _loadFromCache this geometry in
    match cached with
    | Some d => (set_textDesc this d, geometry)
    | None =>
      let '(d, geometry) := layout this geometry textContent in
      (set_textDesc this d, _storeToCache this geometry d)
    end.

(** The constructor. *)
Definition new_TextMarkerSymbolizer (sym : gmap string value)
    (geometry : GeometryState) : Symbolizer * GeometryState :=
  let dynamic := hasFunctionDefinition sym in
  let st := _defineStyle (translate sym) in
  let textContent := replaceVariable (style_get st "textName") in
  let key := if dynamic then None else Some (genCacheKey textContent st) in
  _descText (mkSymbolizer sym dynamic st key None) geometry textContent.

(** The part of [symbolize] that is about the descriptor: the early
    returns (a zero size or opacity, no point to render at), then
    [_descText] on the current content. *)
Definition symbolize_descText (this : Symbolizer) (geometry : GeometryState)
    (cookedPoints : list (Z * Z)) : Symbolizer * GeometryState :=
  match style_get (style this) "textSize", style_get (style this) "textOpacity" with
  | VNum 0, _ | _, VNum 0 => (this, geometry)
  | _, _ =>
    match cookedPoints with
    | [] => (this, geometry)
    | _ => _descText this geometry
             (replaceVariable (style_get (style this) "textName"))
    end
  end.

(** Modelled from the spec: core/util isNumber is not among the sources; a
    rotation is "specified" when it is a number. *)
Definition isNumber (v : value) : bool :=
  match v with VNum _ => true | _ => false end.

(** [getRotation]: the rotation in degrees, which the source turns into
    radians ([r * Math.PI / 180]); [None] is [null]. *)
Definition getRotation (this : Symbolizer) : option Z :=
  let r := style_get (style this) "textRotation" in
  if negb (isNumber r) then None
  else match r with VNum n => Some n | _ => None end.

(** Notions used to state the properties. *)

(** What the geometry's cache holds under a key. *)
Definition cache_lookup (g : GeometryState) (key : string)
  : option TextDesc :=
  text_symbol_cache g ≫= (λ cache, cache !! key).

(** The geometry after one more read of its cache. *)
Definition after_read (g : GeometryState) : GeometryState :=
  mkGeometryState (text_symbol_cache g) (layouts g) (S (cache_reads g))
    (cache_writes g).

(** The geometry after one more layout and nothing else. *)
Definition after_layout (g : GeometryState) : GeometryState :=
  mkGeometryState (text_symbol_cache g) (S (layouts g)) (cache_reads g)
    (cache_writes g).

(** The content and the key of a static symbol. *)
Definition content_of (sym : gmap string value) : string :=
  replaceVariable (prop sym "textName").
Definition cache_key_of (sym : gmap string value) : string :=
  genCacheKey (content_of sym) (translate sym).

(** The symbolizer of a static symbol as the constructor has it before its
    first layout. *)
Definition static_symbolizer (sym : gmap string value) : Symbolizer :=
  mkSymbolizer sym false (translate sym) (Some (cache_key_of sym)) None.
End symbolizer.

End TextMarker.

(** ** The image marker symbolizer *)

Module ImageMarker.

Abbreviation Point := (Q * Q)%type.

Inductive TransformOp :=
  | Translate (x y : Q)
  | Rotate (r : Q).

(** A call of Canvas.image, with the alpha and the transform in force. *)
Record Blit := mkBlit {
  blit_x : Q; blit_y : Q; blit_width : Q; blit_height : Q;
  blit_alpha : Q;
  blit_transform : list TransformOp
}.

(** The 2d context: the drawing state ([globalAlpha], the transform), the
    stack of the states kept by [save], and what was drawn. *)
Record Context2D := mkContext2D {
  globalAlpha : Q;
  transform : list TransformOp;
  saved : list (Q * list TransformOp);
  drawn : list Blit
}.

Definition set_globalAlpha (ctx : Context2D) (a : Q) : Context2D :=
  mkContext2D a (transform ctx) (saved ctx) (drawn ctx).

Definition save (ctx : Context2D) : Context2D :=
  mkContext2D (globalAlpha ctx) (transform ctx)
    ((globalAlpha ctx, transform ctx) :: saved ctx) (drawn ctx).

Definition restore (ctx : Context2D) : Context2D :=
  match saved ctx with
  | [] => ctx
  | (a, t) :: rest => mkContext2D a t rest (drawn ctx)
  end.

Definition apply_transform (ctx : Context2D) (op : TransformOp) : Context2D :=
  mkContext2D (globalAlpha ctx) (transform ctx ++ [op]) (saved ctx) (drawn ctx).

(** Modelled from the spec: Canvas.image is not among the sources; the
    drawing surface has an "image-blit(img,x,y,w,h)", which draws and leaves
    the drawing state alone. *)
Definition Canvas_image (ctx : Context2D) (x y width height : Q) : Context2D :=
  mkContext2D (globalAlpha ctx) (transform ctx) (saved ctx)
    (drawn ctx ++ [mkBlit x y width height (globalAlpha ctx) (transform ctx)]).

(** The resolved style; [None] is a value that is not a number. *)
Record Style := mkStyle {
  markerFile : string;
  markerOpacity : option Q;
  markerWidth : option Q;
  markerHeight : option Q;
  markerDx : Q;
  markerDy : Q
}.

Definition set_size (style : Style) (width height : Q) : Style :=
  mkStyle (markerFile style) (markerOpacity style) (Some width) (Some height)
    (markerDx style) (markerDy style).

Record Image := mkImage { img_width : Q; img_height : Q }.

(** The key of a resource: [[markerFile, markerWidth, markerHeight]]. *)
Abbreviation ResourceKey := (string * option Q * option Q)%type.

(** What [symbolize] did besides drawing. *)
Inductive Effect :=
  | Warn (message : string)            (* console.warn *)
  | AddResource (key : ResourceKey)    (* resources.addResource *)
  | RemoveCache.                       (* painter.removeCache *)

Record Symbolizer := mkSymbolizer {
  markerType : option string;          (* this.symbol['markerType'] *)
  style : Style
}.

(** [v === 0] and [isNumber(v) && v < 1] on a style value. *)
Definition is_zero (v : option Q) : bool :=
  match v with Some q => Qeq_bool q 0 | None => false end.

Definition below_one (v : option Q) : option Q :=
  match v with
  | Some q => if Qle_bool 1 q then None else Some q
  | None => None
  end.

Definition is_path (t : option string) : bool :=
  match t with Some s => String.eqb s "path" | None => false end.

Section symbolize.
(** Collaborators: _prepareContext and _rotate of the point symbolizer,
    _getRenderContainerPoints and _getRotationAt of the painter, the
    resource cache, the painter's sprite flag, Browser.phantomjs. *)
Variable _prepareContext : Context2D → Context2D.
Variable cookedPoints : list Point.
Variable _getRotationAt : nat → option Q.
Variable getImage : ResourceKey → option Image.   (* [None]: no resources, or no image *)
Variable isResourceLoaded : ResourceKey → bool.
Variable isSpriting : bool.
Variable phantomjs : bool.
(** The frame [_rotate] sets up for a point and a rotation: the transforms
    it applies to the context, in their order, and the point of that frame
    the marker is drawn at. *)
Variable rotated_frame : Symbolizer → Point → Q → list TransformOp * Point.

(** Modelled from the spec: _rotate is not among the sources; "if a
    rotation is specified, establish a local rotated frame around the
    anchor and restore it after drawing this instance", the surface having
    "transform push/restore": with a rotation the state is pushed and the
    frame set up, and the caller restores the state after the draw; without
    a rotation nothing is done. What the frame is is left to
    [rotated_frame]. *)
Definition _rotate (this : Symbolizer) (ctx : Context2D) (origin : Point)
    (rotation : option Q) : option Point * Context2D :=
  match rotation with
  | None => (None, ctx)
  | Some r =>
    let frame := rotated_frame this origin r in
    (Some frame.2, foldl apply_transform (save ctx) frame.1)
  end.

(** The loop over the points, from index [i] on. *)
Fixpoint draw_points (this : Symbolizer) (ctx : Context2D) (width height : Q)
    (i : nat) (points : list Point) : Context2D :=
  match points with
  | [] => ctx
  | p :: rest =>
    let '(origin, ctx) := _rotate this ctx p (_getRotationAt i) in
    let p := match origin with Some o => o | None => p end in
    let ctx := Canvas_image ctx (p.1 - width / 2) (p.2 - height) width height in
    let ctx := match origin with Some _ => restore ctx | None => ctx end in
    draw_points this ctx width height (S i) rest
  end%Q.

(** [symbolize]. Without an image the warning names
    [markerFile || this._url[0]]; this class sets no [_url], so that a falsy
    [markerFile] (the empty string) makes the read of [this._url[0]] raise a
    TypeError ([console] is taken to be there). *)
Definition symbolize (this : Symbolizer) (ctx : Context2D)
  : outcome (Symbolizer * Context2D * list Effect) :=
  let style0 := style this in
  if is_zero (markerWidth style0) || is_zero (markerHeight style0)
     || is_zero (markerOpacity style0)
  then Return (this, ctx, [])
  else match cookedPoints with
  | [] => Return (this, ctx, [])
  | _ =>
    match getImage (markerFile style0, markerWidth style0, markerHeight style0) with
    | None =>
      if phantomjs then Return (this, ctx, [])
      else if bool_decide (markerFile style0 = "")
      then Throw TypeError (this, ctx, [])
      else Return (this, ctx, [Warn ("no img found for " +:+ markerFile style0)])
    | Some img =>
      let ctx := _prepareContext ctx in
      let '(width, height, this, effects) :=
        match markerWidth style0, markerHeight style0 with
        | Some width, Some height => (width, height, this, [])
        | _, _ =>
          let width := img_width img in
          let height := img_height img in
          let style1 := set_size style0 width height in
          let imgURL := (markerFile style1, markerWidth style1, markerHeight style1) in
          (width, height, mkSymbolizer (markerType this) style1,
           (if isResourceLoaded imgURL then [] else [AddResource imgURL])
             ++ (if isSpriting then [] else [RemoveCache]))
        end in
      let '(alpha, ctx) :=
        if negb (is_path (markerType this)) then
          match below_one (markerOpacity (style this)) with
          | Some opacity =>
            (Some (globalAlpha ctx),
             set_globalAlpha ctx (globalAlpha ctx * opacity)%Q)
          | None => (None, ctx)
          end
        else (None, ctx) in
      let ctx := draw_points this ctx width height 0 cookedPoints in
      let ctx := match alpha with
                 | Some a => set_globalAlpha ctx a
                 | None => ctx
                 end in
      Return (this, ctx, effects)
    end
  end.
End symbolize.

(** Notions used to state the properties. *)

(** The size the marker is drawn at: the style's, when both its width and
    its height are numbers, else the image's own. *)
Definition draw_size (st : Style) (img : Image) : Q * Q :=
  match markerWidth st, markerHeight st with
  | Some width, Some height => (width, height)
  | _, _ => (img_width img, img_height img)
  end.

(** The alpha the marker is drawn at on a context at alpha [a]. *)
Definition draw_alpha (this : Symbolizer) (a : Q) : Q :=
  if is_path (markerType this) then a
  else match below_one (markerOpacity (style this)) with
       | Some opacity => (a * opacity)%Q
       | None => a
       end.

(** The blit of a marker whose bottom centre is at [p], under the
    transforms [ops]. *)
Definition marker_blit (ops : list TransformOp) (alpha : Q) (size : Q * Q)
    (p : Point) : Blit :=
  mkBlit (p.1 - size.1 / 2)%Q (p.2 - size.2)%Q size.1 size.2 alpha ops.

(** The blit of a point of the geometry: at the point, or, with a rotation,
    in the frame [_rotate] set up and at the point of the frame it gave. *)
Definition point_blit (frame : Point → Q → list TransformOp * Point)
    (base : list TransformOp) (alpha : Q) (size : Q * Q)
    (rotation : option Q) (p : Point) : Blit :=
  match rotation with
  | None => marker_blit base alpha size p
  | Some r => marker_blit (base ++ (frame p r).1) alpha size (frame p r).2
  end.

(** The image [symbolize] draws: none when a size or the opacity is 0, when
    there is no point, or when the resources have no image for the style. *)
Definition image_to_draw (getImage : ResourceKey → option Image)
    (cookedPoints : list Point) (st : Style) : option Image :=
  if is_zero (markerWidth st) || is_zero (markerHeight st)
     || is_zero (markerOpacity st)
  then None
  else if bool_decide (cookedPoints = []) then None
  else getImage (markerFile st, markerWidth st, markerHeight st).

(** The early returns of [symbolize]: a size or the opacity is 0, or there
    is no point to render at. *)
Definition skips (cookedPoints : list Point) (st : Style) : bool :=
  is_zero (markerWidth st) || is_zero (markerHeight st)
  || is_zero (markerOpacity st) || bool_decide (cookedPoints = []).

End ImageMarker.

(** ** The base class of the layers (Layer) *)

Module Layer.

(** An entry of [map._layers]: this layer itself, or another layer, of which
    only the z-index matters here. *)
Inductive LayerRef :=
  | This
  | Other (zIndex : option Z).

(** The map a layer is on, as far as the layer looks at it. *)
Record Map := mkMap {
  getZoom : Q;
  _layers : list LayerRef
}.

(** Calls the layer makes on its collaborators, in the order they happen. *)
Inductive Call :=
  | RendererShow                       (* renderer.show() *)
  | RendererHide                       (* renderer.hide() *)
  | RendererSetZIndex (z : option Z)   (* renderer.setZIndex(z) *)
  | SortLayersByZIndex                 (* map._sortLayersByZIndex() *)
  | OnLayerEvent (type : string)       (* map._onLayerEvent(param) *)
  | Listeners (type : string).         (* Eventable's fire: the listeners run *)

(** A layer. A number that is undefined or NaN is [None]; so are an
    option that is null or undefined and an opacity that is not a number. *)
Record Layer := mkLayer {
  _zIndex : option Z;
  visible : option bool;               (* options.visible *)
  opacity : option Q;                  (* options.opacity *)
  minZoom : option Q;                  (* options.minZoom *)
  maxZoom : option Q;                  (* options.maxZoom *)
  map : option Map;                    (* this.map *)
  _renderer : bool;                    (* this._renderer is set *)
  _loaded : bool;
  calls : list Call;                   (* oldest first *)
  at_renderend : list string           (* events to fire at the map's next
                                          'renderend': map.once callbacks *)
}.

Definition set_zIndex (l : Layer) (z : option Z) : Layer :=
  mkLayer z (visible l) (opacity l) (minZoom l) (maxZoom l) (map l)
          (_renderer l) (_loaded l) (calls l) (at_renderend l).
Definition set_visible (l : Layer) (v : option bool) : Layer :=
  mkLayer (_zIndex l) v (opacity l) (minZoom l) (maxZoom l) (map l)
          (_renderer l) (_loaded l) (calls l) (at_renderend l).
Definition set_loaded (l : Layer) (b : bool) : Layer :=
  mkLayer (_zIndex l) (visible l) (opacity l) (minZoom l) (maxZoom l) (map l)
          (_renderer l) b (calls l) (at_renderend l).
Definition call (l : Layer) (c : Call) : Layer :=
  mkLayer (_zIndex l) (visible l) (opacity l) (minZoom l) (maxZoom l) (map l)
          (_renderer l) (_loaded l) (calls l ++ [c]) (at_renderend l).
Definition once_renderend (l : Layer) (type : string) : Layer :=
  mkLayer (_zIndex l) (visible l) (opacity l) (minZoom l) (maxZoom l) (map l)
          (_renderer l) (_loaded l) (calls l) (at_renderend l ++ [type]).

(** [Layer.prototype.fire], the override at the end of the file. *)
Definition fire (l : Layer) (eventType : string) : Layer :=
  let l := if String.eqb eventType "layerload" then set_loaded l true else l in
  let l := match map l with
           | Some _ => call l (OnLayerEvent eventType)
           | None => l
           end in
  call l (Listeners eventType).

Definition setZIndex (l : Layer) (zIndex : option Z) : Layer :=
  let l := set_zIndex l zIndex in
  let l := match map l with
           | Some _ => call l SortLayersByZIndex
           | None => l
           end in
  if _renderer l then call l (RendererSetZIndex zIndex) else l.

Definition getZIndex (l : Layer) : option Z := _zIndex l.

Definition getMap (l : Layer) : option Map := map l.

Definition _getLayerList (l : Layer) : list LayerRef :=
  match map l with
  | None => []
  | Some m => _layers m
  end.

(** [ref.getZIndex()] and [ref === this] for an entry of the layer list. *)
Definition zIndex_of (l : Layer) (ref : LayerRef) : option Z :=
  match ref with
  | This => getZIndex l
  | Other z => z
  end.

Definition is_this (ref : LayerRef) : bool :=
  match ref with This => true | Other _ => false end.

(** Numbers are doubles; those of the model are the integers among them
    (a fraction or an infinity is outside the model). [to_double n] is the
    double the exact result [n] of an operation is rounded to, to the
    nearest, a tie going to the even mantissa: [n] itself up to 2^53 in
    magnitude, and a multiple of a power of 2 with a mantissa of 53 bits
    beyond. *)
Definition to_double (n : Z) : Z :=
  let a := Z.abs n in
  if (a <=? 2 ^ 53)%Z then n
  else
    let e := (Z.log2 a - 52)%Z in
    let q := Z.shiftr a e in
    let r := (a - Z.shiftl q e)%Z in
    let half := (2 ^ (e - 1))%Z in
    let q' := if (half <? r)%Z || ((r =? half)%Z && Z.odd q)
              then (q + 1)%Z else q in
    (Z.sgn n * Z.shiftl q' e)%Z.

(** [x + d] on a number that may be undefined or NaN. *)
Definition num_add (x : option Z) (d : Z) : option Z :=
  match x with Some a => Some (to_double (a + d)) | None => None end.

Definition bringToFront (l : Layer) : Layer :=
  let layers := _getLayerList l in
  if bool_decide (length layers = 0%nat) then l
  else match layers !! (length layers - 1)%nat with
       | None => l
       | Some topLayer =>
         if bool_decide (length layers = 1%nat) || is_this topLayer then l
         else let max := zIndex_of l topLayer in
              setZIndex l (num_add max 1)
       end.

Definition bringToBack (l : Layer) : Layer :=
  let layers := _getLayerList l in
  if bool_decide (length layers = 0%nat) then l
  else match layers !! 0%nat with
       | None => l
       | Some bottomLayer =>
         if bool_decide (length layers = 1%nat) || is_this bottomLayer then l
         else let min := zIndex_of l bottomLayer in
              setZIndex l (num_add min (-1))
       end.

(** Truthiness of [options.visible]. *)
Definition truthy (v : option bool) : bool :=
  match v with Some true => true | _ => false end.

Definition show (l : Layer) : Layer :=
  if negb (truthy (visible l)) then
    let l := set_visible l (Some true) in
    let l := if _renderer l then call l RendererShow else l in
    match getMap l with
    | Some _ => once_renderend l "show"
    | None => fire l "show"
    end
  else l.

Definition hide (l : Layer) : Layer :=
  if truthy (visible l) then
    let l := set_visible l (Some false) in
    let l := if _renderer l then call l RendererHide else l in
    match getMap l with
    | Some _ => once_renderend l "hide"
    | None => fire l "hide"
    end
  else l.

(** [isVisible] answers and may write the default into [options.visible]. *)
Definition isVisible (l : Layer) : bool * Layer :=
  if match opacity l with Some o => Qle_bool o 0 | None => false end
  then (false, l)
  else if match getMap l with
          | Some m =>
            let zoom := getZoom m in
            match maxZoom l with
            | Some mx => negb (Qle_bool zoom mx)
            | None => false
            end
            || match minZoom l with
               | Some mn => negb (Qle_bool mn zoom)
               | None => false
               end
          | None => false
          end
  then (false, l)
  else match visible l with
       | None => (true, set_visible l (Some true))
       | Some v => (v, l)
       end.

(** Notions used to state the properties. *)

(** The layer can be seen at all: its opacity is not a number at or below
    0, and the zoom of its map, if it is on one, is within
    [[minZoom, maxZoom]]. *)
Definition displayable (l : Layer) : bool :=
  negb (match opacity l with Some o => Qle_bool o 0 | None => false end)
  && match map l with
     | Some m =>
       match maxZoom l with Some mx => Qle_bool (getZoom m) mx | None => true end
       && match minZoom l with Some mn => Qle_bool mn (getZoom m) | None => true end
     | None => true
     end.

(** [a] is not above [b], both being numbers. *)
Definition z_le (a b : option Z) : Prop :=
  match a, b with
  | Some x, Some y => (x ≤ y)%Z
  | _, _ => False
  end.

(** A number that every integer operation is exact around: an integer of a
    magnitude below 2^53. *)
Definition safe_integer (x : option Z) : Prop :=
  match x with
  | Some z => (- 2 ^ 53 < z < 2 ^ 53)%Z
  | None => False
  end.

(** [a] is below [b], both being numbers. *)
Definition z_lt (a b : option Z) : Prop :=
  match a, b with
  | Some x, Some y => (x < y)%Z
  | _, _ => False
  end.

End Layer.

(** ** The parent class of the map tools (MapTool) *)

Module MapTool.

(** A tool: its name, whether it was added to the map ([_map] is set),
    whether it is enabled, and whether [getEvents()] answers an event
    map. *)
Record Tool := mkTool {
  name : string;
  _map : bool;
  _enabled : bool;
  has_events : bool
}.

Global Instance Tool_inhabited : Inhabited Tool :=
  populate (mkTool "" false false false).

(** Calls the tools make on the map and on themselves; the hooks [onAdd],
    [onEnable] and [onDisable] are the subclass's and are taken to leave
    the fields of the tools alone. *)
Inductive Call :=
  | MapOff (tool : nat)                 (* map.off(events, tool) *)
  | MapOn (tool : nat)                  (* map.on(events, tool) *)
  | OnAdd (tool : nat)
  | OnEnable (tool : nat)
  | OnDisable (tool : nat)
  | Fire (tool : nat) (type : string).  (* tool.fire(type, {}) *)

(** One map and the tools around it: the tool objects by identity, the
    properties [_tool<name>] of the map, and the calls made. *)
Record World := mkWorld {
  tools : gmap nat Tool;
  registry : gmap string nat;           (* map['_tool' + name] *)
  calls : list Call
}.

Definition tool_of (w : World) (t : nat) : Tool := tools w !!! t.

Definition set_tool (w : World) (t : nat) (tool : Tool) : World :=
  mkWorld (<[t := tool]> (tools w)) (registry w) (calls w).
Definition set_registry (w : World) (r : gmap string nat) : World :=
  mkWorld (tools w) r (calls w).
Definition call (w : World) (c : Call) : World :=
  mkWorld (tools w) (registry w) (calls w ++ [c]).

Inductive switch := On | Off.

Definition _switchEvents (w : World) (t : nat) (to : switch) : World :=
  if has_events (tool_of w t)
  then call w (match to with On => MapOn t | Off => MapOff t end)
  else w.

Definition _registerEvents (w : World) (t : nat) : World := _switchEvents w t On.

Definition _fireEvent (w : World) (t : nat) (eventName : string) : World :=
  call w (Fire t eventName).

Definition isEnabled (w : World) (t : nat) : bool :=
  if negb (_enabled (tool_of w t)) then false else true.

Definition enable (w : World) (t : nat) : World :=
  let tool := tool_of w t in
  if negb (_map tool) || _enabled tool then w
  else
    let w := set_tool w t (mkTool (name tool) (_map tool) true (has_events tool)) in
    let w := _switchEvents w t Off in
    let w := _registerEvents w t in
    let w := call w (OnEnable t) in
    _fireEvent w t "enable".

Definition disable (w : World) (t : nat) : World :=
  let tool := tool_of w t in
  if negb (_enabled tool) || negb (_map tool) then w
  else
    let w := set_tool w t (mkTool (name tool) (_map tool) false (has_events tool)) in
    let w := _switchEvents w t Off in
    let w := call w (OnDisable t) in
    _fireEvent w t "disable".

(** [addTo(map)]; [map] is [false] for a falsy argument. *)
Definition addTo (w : World) (t : nat) (map : bool) : World :=
  if negb map then w
  else
    let tool := tool_of w t in
    let w := set_tool w t (mkTool (name tool) true (_enabled tool) (has_events tool)) in
    let key := "_tool" +:+ name tool in
    let w := match registry w !! key with
             | Some previous => disable w previous
             | None => w
             end in
    let w := call w (OnAdd t) in
    let w := enable w t in
    let w := set_registry w (<[key := t]> (registry w)) in
    _fireEvent w t "add".

End MapTool.

(** ** Concrete inputs for the examples *)

Module Examples.
Import Overlay.

Definition geometry (z : Z) (id : string) : Geometry :=
  mkGeometry (Some id) z None None.

(** An empty layer "v" on a map, over a heap with A (1: z=0, id a),
    B (2: z=5, id b), C (3: z=0, id c), D (4: z=1, id a again) and
    E (5: z=2, no id). *)
Definition empty_layer : World :=
  mkWorld (list_to_map [(1, geometry 0 "a"); (2, geometry 5 "b");
                        (3, geometry 0 "c"); (4, geometry 1 "a");
                        (5, mkGeometry None 2 None None)])
          7 "v" [] ∅ false true true 0 [].

(** The layer after A, B and C were added, one call each. *)
Definition layer_ABC : World :=
  state_of (addGeometry_calls empty_layer [[Some 1]; [Some 2]; [Some 3]]).

(** The layer after B was added. *)
Definition layer_B : World := state_of (addGeometry empty_layer [Some 2]).

(** The layer of A, B and C taken off its map. *)
Definition layer_ABC_off_map : World :=
  mkWorld (heap layer_ABC) (layer_self layer_ABC) (layer_id layer_ABC)
          (_geoList layer_ABC) (_geoMap layer_ABC) (_clearing layer_ABC)
          false false (uid layer_ABC) (events layer_ABC).

(** The layer after B was added and a call that adds A and D, which
    carries the id of A again, has thrown on D. *)
Definition layer_B_A : World :=
  state_of (addGeometry_calls empty_layer [[Some 2]; [Some 1; Some 4]]).

(** The layer with A in it, bound to its map while its renderer is not
    there yet (as between [_bindMap] and [load]). *)
Definition layer_A_unloaded : World :=
  let w := state_of (addGeometry empty_layer [Some 1]) in
  mkWorld (heap w) (layer_self w) (layer_id w) (_geoList w) (_geoMap w)
          (_clearing w) true false (uid w) (events w).

(** A query point inside every geometry. *)
Definition hits_all : HitTest :=
  mkHitTest (λ _, true) (λ _, true) (λ _, false) (λ _, true) (λ _, true).

(** A callback that removes the geometry it is given and empties the
    sequence after the first one. *)
Definition remove_and_clear : callback :=
  λ geo i w, if (i =? 0)%nat then clear w else Geometry_remove w geo.

(** A text symbol with a content only, a layout function that keeps the
    content and the size, and a geometry that was never drawn. *)
Definition symbol_Hi : gmap string TextMarker.value :=
  {[ "textName" := TextMarker.VStr "Hi" ]}.

Definition symbol_dynamic : gmap string TextMarker.value :=
  {[ "textName" := TextMarker.VStr "Hi"; "textSize" := TextMarker.VFn "size" ]}.

Definition rows (textContent : string) (style : TextMarker.Style) : list string :=
  [textContent; TextMarker.to_string (TextMarker.style_get style "textSize")].

Definition no_value (f : string) : TextMarker.value := TextMarker.VNull.

Definition never_drawn : @TextMarker.GeometryState (list string) :=
  TextMarker.mkGeometryState None 0 0 0.

(** An image marker at half opacity on a context at full alpha, two points,
    the second drawn rotated. *)
Definition half_opaque : ImageMarker.Symbolizer :=
  ImageMarker.mkSymbolizer None
    (ImageMarker.mkStyle "pin.png" (Some (1 # 2)%Q) None None 0%Q 0%Q).

Definition blank_context : ImageMarker.Context2D :=
  ImageMarker.mkContext2D 1%Q [] [] [].

(** A context at alpha 1/2, and a [_prepareContext] that sets the alpha
    to 1. *)
Definition dimmed_context : ImageMarker.Context2D :=
  ImageMarker.mkContext2D (1 # 2)%Q [] [] [].

Definition full_alpha (ctx : ImageMarker.Context2D) : ImageMarker.Context2D :=
  ImageMarker.set_globalAlpha ctx 1%Q.

(** A frame for a rotated marker: the origin is moved to the point and the
    axes are turned, and the marker is drawn at the origin. *)
Definition turned_frame (this : ImageMarker.Symbolizer) (p : Q * Q) (r : Q)
  : list ImageMarker.TransformOp * (Q * Q) :=
  ([ImageMarker.Translate p.1 p.2; ImageMarker.Rotate r], (0, 0)%Q).

(** A marker whose [markerFile] is the empty string, and resources without
    any image. *)
Definition unnamed_marker : ImageMarker.Symbolizer :=
  ImageMarker.mkSymbolizer None
    (ImageMarker.mkStyle "" (Some 1%Q) None None 0%Q 0%Q).

Definition no_image (key : string * option Q * option Q) : option ImageMarker.Image :=
  None.

Definition two_points : list (Q * Q) := [(10, 10)%Q; (20, 20)%Q].

Definition second_rotated (i : nat) : option Q :=
  if (i =? 1)%nat then Some 90%Q else None.

Definition pin_image (key : string * option Q * option Q) : option ImageMarker.Image :=
  Some (ImageMarker.mkImage 16%Q 24%Q).

(** The layer of A, B and C after A has been given the z-index 9, before
    the layer hears of it. *)
Definition layer_A_raised : World :=
  with_heap layer_ABC
    (<[1%nat := mkGeometry (Some "a") 9 (Some 0%Z) (Some 7%nat)]>
       (heap layer_ABC)).

(** A layer with z-index 1 between two other layers, of z-index 0 and 3, on
    a map at zoom 10. *)
Definition map_of_three : Layer.Map :=
  Layer.mkMap 10%Q [Layer.Other (Some 0%Z); Layer.This; Layer.Other (Some 3%Z)].

Definition middle_layer : Layer.Layer :=
  Layer.mkLayer (Some 1%Z) (Some true) (Some 1%Q) None None (Some map_of_three)
    true false [] [].

(** A layer with z-index 0 under a layer whose z-index is 2^53. *)
Definition map_at_limit : Layer.Map :=
  Layer.mkMap 10%Q [Layer.This; Layer.Other (Some (2 ^ 53)%Z)].

Definition layer_under_limit : Layer.Layer :=
  Layer.mkLayer (Some 0%Z) (Some true) (Some 1%Q) None None (Some map_at_limit)
    true false [] [].

(** Two draw tools: the first is on the map and enabled, the second was
    never added. *)
Definition two_tools : MapTool.World :=
  MapTool.mkWorld
    {[ 1%nat := MapTool.mkTool "DrawTool" true true true;
       2%nat := MapTool.mkTool "DrawTool" false false true ]}
    {[ "_toolDrawTool" := 1%nat ]} [].
(** A text symbol that asks for a rotation. *)
Definition symbol_rotated : gmap string TextMarker.value :=
  {[ "textName" := TextMarker.VStr "Hi"; "textRotation" := TextMarker.VNum 45 ]}.

End Examples.

(** * Facts about the overlay layer *)

Section overlay_facts.
Import Overlay.

(** ** Reads of the id map *)

Lemma _geoMap_get_None w k :
  _geoMap_get w k = None ↔ _geoMap w !! k = None ∧ inherited k = false.
Proof.
  unfold _geoMap_get.
  destruct (_geoMap w !! k), (inherited k); intuition congruence.
Qed.

Lemma _geoMap_get_Geo w k geo :
  _geoMap_get w k = Some (Geo geo) ↔ _geoMap w !! k = Some geo.
Proof.
  unfold _geoMap_get.
  destruct (_geoMap w !! k), (inherited k); intuition congruence.
Qed.

Lemma _geoMap_get_registered w k :
  is_Some (_geoMap w !! k) → is_Some (_geoMap_get w k).
Proof. intros [geo Hk]. exists (Geo geo). by apply _geoMap_get_Geo. Qed.

Lemma _geoMap_get_Proto w k name :
  _geoMap_get w k = Some (Proto name)
  ↔ _geoMap w !! k = None ∧ inherited k = true ∧ name = k.
Proof.
  unfold _geoMap_get.
  destruct (_geoMap w !! k), (inherited k); intuition congruence.
Qed.

(** ** Projections of the updated worlds *)

Lemma addGeometry_step_Some w i geo :
  addGeometry_step w i (Some geo) =
    match getId w geo with
    | Some geoId =>
      if bool_decide (is_Some (_geoMap_get w geoId))
      then Throw (duplicate_id_msg w geoId i) w
      else Return (emit (_bindLayer (with_geoList
             (_setInternalId (with_uid (with_geoMap w (<[geoId := geo]> (_geoMap w))) (uid w + 1)) geo (uid w))
             (_geoList w ++ [geo])) geo) (GeometryAdd geo))
    | None =>
      Return (emit (_bindLayer (with_geoList
             (_setInternalId (with_uid w (uid w + 1)) geo (uid w))
             (_geoList w ++ [geo])) geo) (GeometryAdd geo))
    end.
Proof.
  unfold addGeometry_step. destruct (getId w geo) as [k|]; [|done].
  by case_bool_decide.
Qed.

(** A turn of the loop that returns has appended the entry to [_geoList],
    kept the layer's name and flags, and used one internal id. *)
Lemma addGeometry_step_Return w i entry w' :
  addGeometry_step w i entry = Return w' →
  ∃ geo, entry = Some geo ∧ _geoList w' = _geoList w ++ [geo]
         ∧ layer_id w' = layer_id w ∧ uid w' = (uid w + 1)%Z
         ∧ has_map w' = has_map w.
Proof.
  destruct entry as [geo|]; [|done].
  rewrite addGeometry_step_Some. intros H. exists geo.
  destruct (getId w geo) as [k|]; [case_bool_decide|]; simplify_eq; done.
Qed.

Lemma addGeometry_loop_app w i pre rest :
  addGeometry_loop w i (pre ++ rest) =
    (w1 ←! addGeometry_loop w i pre; addGeometry_loop w1 (i + length pre) rest).
Proof.
  revert w i. induction pre as [|e pre IH]; intros w i; simpl.
  - by rewrite Nat.add_0_r.
  - destruct (addGeometry_step w i e) as [w'|msg w']; simpl; [|done].
    rewrite IH. by replace (S i + length pre) with (i + S (length pre)) by lia.
Qed.

(** A run of the loop that returns has seen geometries only and has pushed
    them behind what [_geoList] held, in the order of the array. *)
Lemma addGeometry_loop_Return w i entries w' :
  addGeometry_loop w i entries = Return w' →
  entries = Some <$> refs_of entries
  ∧ _geoList w' = _geoList w ++ refs_of entries
  ∧ layer_id w' = layer_id w
  ∧ uid w' = (uid w + Z.of_nat (length entries))%Z
  ∧ has_map w' = has_map w.
Proof.
  revert w i. induction entries as [|e entries IH]; intros w i; simpl.
  - intros [= ->]. rewrite app_nil_r. repeat split; lia.
  - destruct (addGeometry_step w i e) as [w1|msg w1] eqn:Hstep; simpl; [|done].
    intros Hloop.
    destruct (addGeometry_step_Return _ _ _ _ Hstep)
      as (geo & -> & Hl & Hid & Hu & Hm).
    destruct (IH _ _ Hloop) as (He & Hl' & Hid' & Hu' & Hm').
    unfold refs_of in *. simpl. repeat split.
    + f_equal. exact He.
    + by rewrite Hl', Hl, <- app_assoc.
    + congruence.
    + lia.
    + congruence.
Qed.

(** C3, as the code has it. When the entries before index [i] are geometries
    that go in without an id collision and the entry at [i] is null or
    undefined, [addGeometry] throws "Invalid geometry to add to layer(..) at
    index:i". The entries before [i] have been added by then and stay: the
    world at the throw is the one the loop reached, with them pushed behind
    the sequence, unsorted, and no batch notification sent. The store is
    untouched only when the null entry is the first one. *)
Theorem addGeometry_null_entry w pre post w1 :
  addGeometry_loop w 0 pre = Return w1 →
  addGeometry w (pre ++ None :: post)
    = Throw (invalid_geometry_msg w (length pre)) w1
  ∧ _geoList w1 = _geoList w ++ refs_of pre
  ∧ (pre = [] → w1 = w).
Proof.
  intros Hpre.
  destruct (addGeometry_loop_Return _ _ _ _ Hpre) as (_ & Hl & Hid & _).
  split; [|split; [done|]].
  - unfold addGeometry.
    destruct (pre ++ None :: post) eqn:E; [by destruct pre|]. rewrite <- E.
    rewrite addGeometry_loop_app, Hpre. simpl.
    unfold invalid_geometry_msg. by rewrite Hid.
  - intros ->. simpl in Hpre. congruence.
Qed.

(** C2, as the code has it. When the entries before index [i] go in without
    a collision and the geometry at [i] carries an id that is registered by
    then, [addGeometry] throws "Duplicate geometry id in layer(..):id, at
    index:i". A single geometry, or a collision at the first entry, leaves
    the store as it was; after a collision further on, the entries before it
    have been added and stay. *)
Theorem addGeometry_duplicate_id w pre geo post w1 geoId :
  addGeometry_loop w 0 pre = Return w1 →
  getId w1 geo = Some geoId →
  is_Some (_geoMap w1 !! geoId) →
  addGeometry w (pre ++ Some geo :: post)
    = Throw (duplicate_id_msg w geoId (length pre)) w1
  ∧ _geoList w1 = _geoList w ++ refs_of pre
  ∧ (pre = [] → w1 = w).
Proof.
  intros Hpre Hid Hdup.
  destruct (addGeometry_loop_Return _ _ _ _ Hpre) as (_ & Hl & Hlid & _).
  split; [|split; [done|]].
  - unfold addGeometry.
    destruct (pre ++ Some geo :: post) eqn:E; [by destruct pre|]. rewrite <- E.
    rewrite addGeometry_loop_app, Hpre. simpl.
    rewrite Hid, bool_decide_true by (by apply _geoMap_get_registered). simpl.
    unfold duplicate_id_msg. by rewrite Hlid.
  - intros ->. simpl in Hpre. congruence.
Qed.

(** An array with a null or undefined entry somewhere never goes in: the
    call throws, at that entry or before it. *)
Lemma addGeometry_null_throws w geometries :
  None ∈ geometries → returns (addGeometry w geometries) = false.
Proof.
  intros Hnull. destruct (addGeometry w geometries) as [w'|msg w'] eqn:Hadd; [|done].
  unfold addGeometry in Hadd. destruct geometries as [|e geometries].
  { by apply elem_of_nil in Hnull. }
  destruct (addGeometry_loop w 0 (e :: geometries)) as [w1|msg w1] eqn:Hloop;
    [|done].
  apply addGeometry_loop_Return in Hloop as (Hsome & _).
  rewrite Hsome in Hnull. apply list_elem_of_fmap in Hnull as (? & ? & _). done.
Qed.

(** ** Lookup by id *)

Lemma getGeometryById_get w id :
  getGeometryById w id
  = if isNil_id id || is_empty_string id then None
    else _geoMap_get w (key_of id).
Proof. unfold getGeometryById. by repeat case_match. Qed.

Lemma getGeometryById_unregistered w id :
  _geoMap_get w (key_of id) = None → getGeometryById w id = None.
Proof. rewrite getGeometryById_get. intros ->. by case_match. Qed.

(** In every state of the store, [getGeometryById] returns null when the id
    is null, undefined or the empty string, whatever the id map holds (a
    geometry stored under the empty key included), and when the read of the
    id map finds nothing under the id: no geometry registered and no member
    of Object.prototype of that name. When no geometry is registered under
    a name of Object.prototype, it returns the inherited member. *)
Lemma getGeometryById_null w id :
  (isNil_id id = true ∨ id = IdKey "" ∨ _geoMap_get w (key_of id) = None →
   getGeometryById w id = None)
  ∧ (∀ k, inherited k = true → _geoMap w !! k = None →
          getGeometryById w (IdKey k) = Some (Proto k)).
Proof.
  split.
  - intros [Hnil | [-> | Hmiss]].
    + unfold getGeometryById. by rewrite Hnil.
    + done.
    + by apply getGeometryById_unregistered.
  - intros k Hk Hfree. rewrite getGeometryById_get. simpl.
    rewrite bool_decide_false by (by intros ->).
    by apply _geoMap_get_Proto.
Qed.

(** ** Removal *)

Lemma onRemoveGeometry_bound w geo x n :
  _clearing w = false →
  getLayer w geo = Some (layer_self w) →
  _getInternalId w geo = Some n →
  getId w geo = Some x →
  _geoMap (onRemoveGeometry w (Some geo)) = delete x (_geoMap w).
Proof.
  intros Hc Hl Hn Hx. unfold onRemoveGeometry.
  rewrite Hc, Hl, bool_decide_true, Hn, Hx by done. simpl.
  repeat (case_match; try done).
Qed.

Lemma Geometry_remove_bound w geo x n :
  _clearing w = false →
  getLayer w geo = Some (layer_self w) →
  _getInternalId w geo = Some n →
  getId w geo = Some x →
  _geoMap (Geometry_remove w geo) = delete x (_geoMap w).
Proof.
  intros Hc Hl Hn Hx. unfold Geometry_remove. rewrite Hl. simpl.
  by apply (onRemoveGeometry_bound _ _ _ n).
Qed.

Lemma removeGeometry_bound w geo x n :
  _clearing w = false →
  getLayer w geo = Some (layer_self w) →
  _getInternalId w geo = Some n →
  getId w geo = Some x →
  removeGeometry w [ByRef geo]
  = Return (emit (Geometry_remove w geo) (LayerRemoveGeo [Some geo]))
  ∧ _geoMap (state_of (removeGeometry w [ByRef geo])) = delete x (_geoMap w).
Proof.
  intros Hc Hl Hn Hx.
  assert (removeGeometry w [ByRef geo]
          = Return (emit (Geometry_remove w geo) (LayerRemoveGeo [Some geo])))
    as E.
  { unfold removeGeometry. simpl. by rewrite Hl, bool_decide_true by done. }
  split; [done|]. rewrite E. simpl.
  by apply (Geometry_remove_bound _ _ _ n).
Qed.

(** ** What a turn of the add loop does to the geometries *)

Lemma addGeometry_step_fields w i geo w' :
  addGeometry_step w i (Some geo) = Return w' →
  _geoList w' = _geoList w ++ [geo]
  ∧ uid w' = (uid w + 1)%Z
  ∧ (∀ r, getZIndex w' r = getZIndex w r)
  ∧ (∀ r, getId w' r = getId w r)
  ∧ (∀ r, _getInternalId w' r
          = if decide (r = geo) then Some (uid w) else _getInternalId w r)
  ∧ (∀ r, getLayer w' r
          = if decide (r = geo) then Some (layer_self w) else getLayer w r).
Proof.
  rewrite addGeometry_step_Some. intros H.
  assert (∃ m, w' = emit (_bindLayer (with_geoList
             (_setInternalId (with_uid (with_geoMap w m) (uid w + 1)) geo (uid w))
             (_geoList w ++ [geo])) geo) (GeometryAdd geo)) as [m ->].
  { destruct (getId w geo) as [k|]; [case_bool_decide; [done|]|];
      simplify_eq; [by eexists|].
    exists (_geoMap w). by destruct w. }
  clear H. split; [done|]. split; [done|].
  unfold getZIndex, getId, _getInternalId, getLayer, emit, _bindLayer,
    with_geoList, _setInternalId, with_uid, with_geoMap; simpl.
  repeat split; intros r; unfold deref; simpl;
    rewrite ?lookup_total_insert_eq;
    (destruct (decide (r = geo)) as [->|Hne];
     [by rewrite !lookup_total_insert_eq
     |by rewrite !lookup_total_insert_ne by done]).
Qed.

(** ** Array.prototype.sort *)

Section array_sort.
Context {A : Type} (cmp : A → A → option Z).

Lemma sort_insert_Permutation x l : sort_insert cmp x l ≡ₚ x :: l.
Proof.
  induction l as [|y l IH]; simpl; [done|].
  destruct (is_positive (cmp x y)); [|done].
  rewrite IH. apply perm_swap.
Qed.

Lemma array_sort_Permutation l : array_sort cmp l ≡ₚ l.
Proof.
  induction l as [|x l IH]; simpl; [done|].
  by rewrite sort_insert_Permutation, IH.
Qed.

Context (R : relation A) `{!Transitive R}.

Lemma sort_insert_sorted x l :
  Forall (agrees cmp R x) l →
  StronglySorted R l → StronglySorted R (sort_insert cmp x l).
Proof.
  induction l as [|y l IH]; simpl; intros Hx Hl.
  { repeat constructor. }
  apply Forall_cons in Hx as [Hxy Hx]. apply StronglySorted_cons in Hl as [Hy Hl].
  unfold agrees in Hxy. destruct (is_positive (cmp x y)).
  - apply StronglySorted_cons. split; [|by apply IH].
    rewrite sort_insert_Permutation. by constructor.
  - apply StronglySorted_cons. split; [|by apply StronglySorted_cons].
    constructor; [done|]. eapply Forall_impl; [exact Hy|].
    intros z Hyz. by transitivity y.
Qed.

Lemma array_sort_sorted l :
  StronglySorted (agrees cmp R) l → StronglySorted R (array_sort cmp l).
Proof.
  induction l as [|x l IH]; simpl; intros Hl; [constructor|].
  apply StronglySorted_cons in Hl as [Hx Hl].
  apply sort_insert_sorted; [|by apply IH].
  by rewrite array_sort_Permutation.
Qed.
End array_sort.

Lemma StronglySorted_pairwise {A} (P : relation A) (l : list A) :
  NoDup l → (∀ a b, a ∈ l → b ∈ l → a ≠ b → P a b) → StronglySorted P l.
Proof.
  induction 1 as [|x l Hx Hnd IH]; intros HP; [constructor|].
  apply StronglySorted_cons. split.
  - apply Forall_forall. intros y Hy. apply HP; [left|by right|].
    intros ->. done.
  - apply IH. intros a b Ha Hb. apply HP; by right.
Qed.

Lemma StronglySorted_lookup_lt {A} (R : relation A) (l : list A) i j x y :
  StronglySorted R l → (i < j)%nat → l !! i = Some x → l !! j = Some y → R x y.
Proof.
  intros Hl. revert i j. induction Hl as [|z l Hl IH Hz]; intros i j Hij Hi Hj.
  { by rewrite lookup_nil in Hi. }
  destruct j as [|j]; [lia|]. simpl in Hj. destruct i as [|i]; simpl in Hi.
  - simplify_eq. rewrite Forall_forall in Hz. apply Hz.
    by eapply list_elem_of_lookup_2.
  - eapply (IH i j); [lia|done..].
Qed.

(** ** The draw order *)

Global Instance geo_lt_trans w : Transitive (geo_lt w).
Proof.
  intros a b c [Hab|(Hab & m & n & Hm & Hn & Hmn)]
               [Hbc|(Hbc & n' & k & Hn' & Hk & Hnk)].
  - left. lia.
  - left. lia.
  - left. lia.
  - right. split; [lia|]. exists m, k. simplify_eq. repeat split; [done..|lia].
Qed.

Lemma geo_lt_irrefl w a : ¬ geo_lt w a a.
Proof. intros [?|(_ & m & n & ? & ? & ?)]; [lia|]. simplify_eq. lia. Qed.

Lemma geo_lt_frame w w' :
  (∀ r, getZIndex w' r = getZIndex w r) →
  (∀ r, _getInternalId w' r = _getInternalId w r) →
  ∀ a b, geo_lt w' a b ↔ geo_lt w a b.
Proof. intros Hz Hi a b. unfold geo_lt. by rewrite !Hz, !Hi. Qed.

(** [_compare] agrees with the draw order on two geometries that carry
    different internal ids. *)
Lemma _compare_agrees w a b m n :
  _getInternalId w a = Some m → _getInternalId w b = Some n → m ≠ n →
  agrees (_compare w) (geo_lt w) a b.
Proof.
  intros Hm Hn Hne. unfold agrees, _compare, geo_lt. rewrite Hm, Hn.
  destruct (Z.eqb_spec (getZIndex w a) (getZIndex w b)) as [Hz|Hz]; simpl.
  - destruct (Z.ltb_spec 0 (m - n)).
    + right. split; [done|]. exists n, m. repeat split; [done..|lia].
    + right. split; [done|]. exists m, n. repeat split; [done..|lia].
  - destruct (Z.ltb_spec 0 (getZIndex w a - getZIndex w b)); left; lia.
Qed.

(** ** Arrays that go in *)

Lemma addGeometry_step_geoMap w i geo w' :
  addGeometry_step w i (Some geo) = Return w' →
  _geoMap w' = match getId w geo with
               | Some geoId => <[geoId := geo]> (_geoMap w)
               | None => _geoMap w
               end.
Proof.
  rewrite addGeometry_step_Some.
  destruct (getId w geo) as [k|]; [case_bool_decide|]; by intros [= <-].
Qed.

(** Geometries whose ids are pairwise different and free (the read of the
    id map finds nothing under them): the loop returns. *)
Lemma addGeometry_loop_returns (ids : nat → option string) entries : ∀ w i,
  (∀ r, getId w r = ids r) →
  Forall is_Some entries →
  NoDup (omap ids (refs_of entries)) →
  (∀ k, k ∈ omap ids (refs_of entries) → _geoMap_get w k = None) →
  ∃ w', addGeometry_loop w i entries = Return w'.
Proof.
  induction entries as [|e entries IH]; intros w i Hids Hsome Hnd Hfree.
  { by exists w. }
  apply Forall_cons in Hsome as [[geo ->] Hsome]. cbn [addGeometry_loop].
  assert (∃ w1, addGeometry_step w i (Some geo) = Return w1) as [w1 Hstep].
  { rewrite addGeometry_step_Some, Hids. unfold refs_of in Hfree. simpl in Hfree.
    destruct (ids geo) as [k|]; [|by eexists].
    rewrite bool_decide_false; [by eexists|].
    rewrite Hfree; [by intros [? ?]|left]. }
  rewrite Hstep. simpl.
  pose proof (addGeometry_step_geoMap _ _ _ _ Hstep) as Hmap.
  destruct (addGeometry_step_fields _ _ _ _ Hstep) as (_ & _ & _ & Hid1 & _).
  rewrite Hids in Hmap. unfold refs_of in *. simpl in *.
  apply IH; [by intros r; rewrite Hid1|done|..].
  - destruct (ids geo); [by apply NoDup_cons in Hnd as [_ ?]|done].
  - intros k Hk. apply _geoMap_get_None. rewrite Hmap.
    destruct (ids geo) as [k0|].
    + apply NoDup_cons in Hnd as [Hk0 _].
      rewrite lookup_insert_ne by (by intros ->).
      apply _geoMap_get_None, Hfree. by right.
    + by apply _geoMap_get_None, Hfree.
Qed.

Lemma addGeometry_step_has_renderer w i entry w' :
  addGeometry_step w i entry = Return w' → has_renderer w' = has_renderer w.
Proof.
  destruct entry as [geo|]; [|done]. rewrite addGeometry_step_Some.
  destruct (getId w geo) as [k|]; [case_bool_decide|]; by intros [= <-].
Qed.

Lemma addGeometry_loop_has_renderer entries : ∀ w i w',
  addGeometry_loop w i entries = Return w' → has_renderer w' = has_renderer w.
Proof.
  induction entries as [|e entries IH]; intros w i w'; simpl.
  { by intros [= ->]. }
  destruct (addGeometry_step w i e) as [w1|msg w1] eqn:Hstep; simpl; [|done].
  intros Hloop. rewrite (IH _ _ _ Hloop).
  by eapply addGeometry_step_has_renderer.
Qed.

(** What [addGeometry] does after a loop that returned: it sorts, then, on a
    map, calls the renderer, which raises when there is none, and fires
    [addgeo]. *)
Lemma addGeometry_after_loop w geometries w1 :
  geometries ≠ [] →
  addGeometry_loop w 0 geometries = Return w1 →
  addGeometry w geometries
  = if has_map w && negb (has_renderer w)
    then Throw TypeError (_sortGeometries w1)
    else Return (emit (if has_map w
                       then emit (_sortGeometries w1)
                                 (RendererGeometryAdd geometries)
                       else _sortGeometries w1) (LayerAddGeo geometries)).
Proof.
  intros Hne Hloop. unfold addGeometry.
  destruct geometries as [|e geometries]; [done|]. rewrite Hloop. cbn [obind].
  destruct (addGeometry_loop_Return _ _ _ _ Hloop) as (_ & _ & _ & _ & Hm).
  pose proof (addGeometry_loop_has_renderer _ _ _ _ Hloop) as Hr.
  unfold _sortGeometries at 1 2. cbn [has_map has_renderer with_geoList].
  rewrite Hm, Hr. by destruct (has_map w), (has_renderer w).
Qed.

(** A call that returns: the array was empty, or the loop returned and the
    layer has a renderer if it is on a map. *)
Lemma addGeometry_Return_cases w geometries w' :
  addGeometry w geometries = Return w' →
  (geometries = [] ∧ w' = w)
  ∨ ∃ w1, geometries ≠ []
      ∧ addGeometry_loop w 0 geometries = Return w1
      ∧ (has_map w = true → has_renderer w = true)
      ∧ w' = emit (if has_map w
                   then emit (_sortGeometries w1)
                             (RendererGeometryAdd geometries)
                   else _sortGeometries w1) (LayerAddGeo geometries).
Proof.
  destruct geometries as [|e geometries].
  { intros [= <-]. by left. }
  intros Hadd. right.
  destruct (addGeometry_loop w 0 (e :: geometries)) as [w1|msg w1] eqn:Hloop.
  2:{ unfold addGeometry in Hadd. by rewrite Hloop in Hadd. }
  rewrite (addGeometry_after_loop _ _ w1) in Hadd by done.
  exists w1. destruct (has_map w), (has_renderer w); simpl in Hadd;
    simplify_eq; done.
Qed.

Lemma addGeometry_returns w geometries :
  Forall is_Some geometries →
  NoDup (omap (getId w) (refs_of geometries)) →
  (∀ k, k ∈ omap (getId w) (refs_of geometries) → _geoMap_get w k = None) →
  (has_map w = true → has_renderer w = true) →
  ∃ w', addGeometry w geometries = Return w'.
Proof.
  intros Hsome Hnd Hfree Hr.
  destruct geometries as [|e geometries]; [by eexists|].
  destruct (addGeometry_loop_returns (getId w) (e :: geometries) w 0)
    as [w1 Hloop]; [done..|].
  rewrite (addGeometry_after_loop _ _ w1) by done.
  destruct (has_map w); [rewrite Hr by done|]; by eexists.
Qed.

(** ** Sequences of addGeometry calls *)

Lemma addGeometry_loop_inv entries : ∀ w i w' base ins,
  addGeometry_loop w i entries = Return w' →
  NoDup (ins ++ refs_of entries) →
  store_inv w base ins →
  store_inv w' base (ins ++ refs_of entries)
  ∧ (∀ r, getZIndex w' r = getZIndex w r).
Proof.
  induction entries as [|e entries IH]; intros w i w' base ins; simpl.
  { intros [= ->] _ Hinv. unfold refs_of. simpl. by rewrite app_nil_r. }
  destruct (addGeometry_step w i e) as [w1|msg w1] eqn:Hstep; simpl; [|done].
  intros Hloop Hnd [Hperm Hids Huid].
  destruct e as [geo|]; [|done].
  destruct (addGeometry_step_fields _ _ _ _ Hstep)
    as (Hl & Hu & Hz & _ & Hi & _).
  unfold refs_of in *. simpl in *.
  replace (ins ++ geo :: omap id entries)
    with ((ins ++ [geo]) ++ omap id entries) in * by by rewrite <- app_assoc.
  destruct (IH w1 (S i) w' base (ins ++ [geo]) Hloop Hnd) as [Hinv Hz'].
  - split.
    + by rewrite Hl, Hperm.
    + intros j r Hj. rewrite Hi.
      apply NoDup_app in Hnd as (Hnd & _ & _).
      destruct (decide (j < length ins)%nat) as [Hlt|Hge].
      * rewrite lookup_app_l in Hj by done.
        rewrite decide_False; [by apply Hids|].
        intros ->. apply NoDup_app in Hnd as (_ & Hnd & _).
        apply (Hnd geo); [by eapply list_elem_of_lookup_2|left].
      * rewrite lookup_app_r in Hj by lia.
        destruct (j - length ins)%nat as [|k] eqn:Hk; [|by destruct k].
        simpl in Hj. simplify_eq. rewrite decide_True by done.
        f_equal. lia.
    + rewrite Hu, Huid, length_app. simpl. lia.
  - split; [done|]. intros r. by rewrite Hz', Hz.
Qed.

Lemma internal_ids_inj w base ins i j a :
  internal_ids_from w base ins →
  ins !! i = Some a → ins !! j = Some a → i = j.
Proof.
  intros Hids Hi Hj. apply Hids in Hi, Hj. rewrite Hi in Hj. simplify_eq. lia.
Qed.

(** A call that returns keeps the invariant and leaves the sequence in draw
    order. *)
Lemma addGeometry_inv w geometries w' base ins :
  addGeometry w geometries = Return w' →
  NoDup (ins ++ refs_of geometries) →
  store_inv w base ins →
  StronglySorted (geo_lt w) (_geoList w) →
  store_inv w' base (ins ++ refs_of geometries)
  ∧ StronglySorted (geo_lt w') (_geoList w')
  ∧ (∀ r, getZIndex w' r = getZIndex w r).
Proof.
  intros Hadd.
  destruct (addGeometry_Return_cases _ _ _ Hadd)
    as [[-> ->]|(w1 & _ & Hloop & _ & ->)].
  { intros _ Hinv Hs. unfold refs_of. simpl. by rewrite app_nil_r. }
  intros Hnd Hinv _.
  destruct (addGeometry_loop_inv _ _ _ _ _ _ Hloop Hnd Hinv) as [[Hp Hi Hu] Hz].
  assert (StronglySorted (geo_lt w1) (array_sort (_compare w1) (_geoList w1)))
    as Hsorted.
  { apply array_sort_sorted; [apply _|].
    apply StronglySorted_pairwise; [by rewrite Hp|].
    intros a b Ha Hb Hab. rewrite Hp in Ha, Hb.
    apply list_elem_of_lookup_1 in Ha as [i Ha], Hb as [j Hb].
    eapply _compare_agrees; [by apply Hi|by apply Hi|].
    intros Heq. apply Hab.
    assert (i = j) as -> by lia. congruence. }
  split; [|split].
  - destruct (has_map w); (split; [|done..]); simpl;
      by rewrite array_sort_Permutation.
  - destruct (has_map w); exact Hsorted.
  - destruct (has_map w); exact Hz.
Qed.

Lemma addGeometry_calls_inv calls : ∀ w w' base ins,
  addGeometry_calls w calls = Return w' →
  NoDup (ins ++ refs_of (concat calls)) →
  store_inv w base ins →
  StronglySorted (geo_lt w) (_geoList w) →
  store_inv w' base (ins ++ refs_of (concat calls))
  ∧ StronglySorted (geo_lt w') (_geoList w')
  ∧ (∀ r, getZIndex w' r = getZIndex w r).
Proof.
  induction calls as [|c calls IH]; intros w w' base ins; simpl.
  { intros [= ->] _ Hinv Hs. unfold refs_of. simpl. by rewrite app_nil_r. }
  destruct (addGeometry w c) as [w1|msg w1] eqn:Hcall; simpl; [|done].
  intros Hcalls Hnd Hinv Hs.
  unfold refs_of in *. rewrite omap_app, app_assoc in *.
  destruct (addGeometry_inv w c w1 base ins Hcall)
    as (Hinv1 & Hs1 & Hz1); [|done..|].
  { by apply NoDup_app in Hnd as (? & _ & _). }
  destruct (IH _ _ _ _ Hcalls Hnd Hinv1 Hs1) as (Hinv' & Hs' & Hz').
  repeat split; [apply Hinv'..|done|]. intros r. by rewrite Hz', Hz1.
Qed.

(** ** Stable sorting, as a specification *)

Lemma StronglySorted_of_lookup {A} (R : relation A) (l : list A) :
  (∀ i j x y, (i < j)%nat → l !! i = Some x → l !! j = Some y → R x y) →
  StronglySorted R l.
Proof.
  induction l as [|x l IH]; intros H; [constructor|].
  apply StronglySorted_cons. split.
  - apply Forall_forall. intros y Hy.
    apply list_elem_of_lookup_1 in Hy as [j Hj].
    apply (H 0%nat (S j)); [lia|done..].
  - apply IH. intros i j a b Hij Hi Hj. apply (H (S i) (S j)); [lia|done..].
Qed.

Lemma before_asym {A} (l : list A) a b :
  NoDup l → before l a b → before l b a → False.
Proof.
  intros Hnd (i & j & Hij & Hi & Hj) (i' & j' & Hij' & Hi' & Hj').
  assert (i = j') by by eapply NoDup_lookup.
  assert (j = i') by by eapply NoDup_lookup.
  lia.
Qed.

Lemma before_total {A} (l : list A) a b :
  a ∈ l → b ∈ l → a ≠ b → before l a b ∨ before l b a.
Proof.
  intros [i Hi]%list_elem_of_lookup_1 [j Hj]%list_elem_of_lookup_1 Hab.
  destruct (Nat.lt_trichotomy i j) as [?|[->|?]].
  - left. by exists i, j.
  - congruence.
  - right. by exists j, i.
Qed.

(** The specification leaves no choice: there is one stable sort. *)
Lemma stable_sort_by_unique z ins l1 l2 :
  NoDup ins → stable_sort_by z ins l1 → stable_sort_by z ins l2 → l1 = l2.
Proof.
  intros Hnd [Hp1 Ha1 Ht1] [Hp2 Ha2 Ht2].
  set (R := λ a b, (z a < z b)%Z ∨ (z a = z b ∧ before ins a b)).
  assert (∀ l, l ≡ₚ ins → StronglySorted (λ a b, z a ≤ z b)%Z l →
               (∀ a b, z a = z b → before ins a b → before l a b) →
               StronglySorted R l) as Hstrict.
  { intros l Hp Ha Ht. apply StronglySorted_of_lookup. intros i j x y Hij Hi Hj.
    pose proof (StronglySorted_lookup_lt _ _ _ _ _ _ Ha Hij Hi Hj) as Hle.
    simpl in Hle. destruct (decide (z x = z y)) as [Heq|Hne]; [|left; lia].
    right. split; [done|].
    assert (NoDup l) as Hndl by by rewrite Hp.
    destruct (before_total ins x y) as [?|Hyx]; [| | |done|].
    - rewrite <- Hp. by eapply list_elem_of_lookup_2.
    - rewrite <- Hp. by eapply list_elem_of_lookup_2.
    - intros ->. assert (i = j) by by eapply NoDup_lookup. lia.
    - exfalso. apply (before_asym l x y Hndl); [by exists i, j|].
      apply Ht; [done|done]. }
  apply (StronglySorted_unique_strong R); [|by apply Hstrict..|by rewrite Hp1, Hp2].
  intros x y _ _ [Hxy|[Hxy Hb]] [Hyx|[Hyx Hb']]; try lia.
  exfalso. by apply (before_asym ins x y).
Qed.

(** C1, for calls that return. After a sequence of [addGeometry] calls on an
    empty layer, none of which throws, with geometries that are distinct
    objects, [_geoList] is the stable sort of the insertion sequence by
    zIndex ascending; the internal ids grow with the insertion order, so this
    is the order by (zIndex, internal id), which [_compare] decides. *)
Theorem addGeometry_calls_order w0 calls w :
  _geoList w0 = [] →
  NoDup (refs_of (concat calls)) →
  addGeometry_calls w0 calls = Return w →
  stable_sort_by (getZIndex w) (refs_of (concat calls)) (_geoList w)
  ∧ internal_ids_from w (uid w0) (refs_of (concat calls))
  ∧ StronglySorted (geo_lt w) (_geoList w)
  ∧ (∀ r, getZIndex w r = getZIndex w0 r).
Proof.
  intros Hempty Hnd Hcalls.
  destruct (addGeometry_calls_inv calls w0 w (uid w0) [] Hcalls)
    as ([Hp Hi Hu] & Hs & Hz); [done| |by rewrite Hempty; constructor|].
  { split; [by rewrite Hempty|by intros i r; rewrite lookup_nil|simpl; lia]. }
  simpl in *. split; [|done]. split; [done| |].
  - apply StronglySorted_of_lookup. intros i j a b Hij Hia Hjb.
    destruct (StronglySorted_lookup_lt _ _ _ _ _ _ Hs Hij Hia Hjb) as [?|[? _]];
      lia.
  - intros a b Hzab (i & j & Hij & Hia & Hjb).
    assert (geo_lt w a b) as Hlt.
    { right. split; [done|]. eexists _, _.
      split; [by apply Hi|]. split; [by apply Hi|]. lia. }
    destruct (before_total (_geoList w) a b) as [?|(p & q & Hpq & Hp' & Hq')];
      [| | |done|].
    + rewrite Hp. by eapply list_elem_of_lookup_2.
    + rewrite Hp. by eapply list_elem_of_lookup_2.
    + intros ->. by apply geo_lt_irrefl in Hlt.
    + exfalso. apply (geo_lt_irrefl w a). transitivity b; [done|].
      by eapply (StronglySorted_lookup_lt _ _ p q).
Qed.

(** ** forEach *)



(** ** identify *)

(** One turn of the loop, by cases on [is_hit]. *)
Lemma identify_loop_cons ht opts geo rest r :
  ∃ r', visited r' = visited r ++ [geo]
    ∧ (filter_calls r' = filter_calls r
       ∨ (filter_calls r' = filter_calls r ++ [geo]
          ∧ passes_geometry ht geo = true))
    ∧ if is_hit ht opts geo
      then hits r' = hits r ++ [geo]
           ∧ identify_loop ht opts (geo :: rest) r
             = if count_reached opts (hits r') then r'
               else identify_loop ht opts rest r'
      else hits r' = hits r
           ∧ identify_loop ht opts (geo :: rest) r = identify_loop ht opts rest r'.
Proof.
  unfold is_hit, passes_geometry. simpl.
  pose (skip := visit r geo).
  destruct (isVisible ht geo); simpl; [|by exists skip; auto].
  destruct (_getPainter ht geo); simpl; [|by exists skip; auto].
  destruct (hasArrowStyle ht geo), (extentContains ht geo); simpl;
    try (by exists skip; auto);
    (destruct (_containsPoint ht geo); simpl; [|by exists skip; auto]);
    (destruct (options_filter opts) as [f|]; simpl;
       [destruct (f geo); simpl;
          [exists (push_hit (call_filter skip geo) geo)
          |exists (call_filter skip geo)]; auto
       |by exists (push_hit skip geo); auto]).
Qed.

Lemma take_room_nil {A} limit : take_room limit (@nil A) = [].
Proof. destruct limit; simpl; [by rewrite take_nil|done]. Qed.

Lemma identify_loop_hits ht opts candidates : ∀ r,
  hits (identify_loop ht opts candidates r)
  = hits r ++ take_room (room opts (length (hits r)))
                        (filter (λ g, is_hit ht opts g = true) candidates).
Proof.
  induction candidates as [|geo rest IH]; intros r.
  { simpl. by rewrite filter_nil, take_room_nil, app_nil_r. }
  destruct (identify_loop_cons ht opts geo rest r) as (r' & _ & _ & Hstep).
  destruct (is_hit ht opts geo) eqn:Hhit.
  - destruct Hstep as [Hh ->]. rewrite filter_cons_True by done.
    assert (length (hits r') = S (length (hits r))) as Hlen.
    { rewrite Hh, length_app. simpl. lia. }
    destruct (count_reached opts (hits r')) eqn:Hreached.
    + rewrite Hh. f_equal. unfold count_reached, room in *. rewrite Hlen in Hreached.
      destruct (options_count opts) as [n|]; [|done].
      destruct (Z.eqb_spec n 0); [done|]. simpl in *.
      apply Z.leb_le in Hreached.
      by replace (Z.to_nat (Z.max 1 (n - Z.of_nat (length (hits r)))))
        with 1%nat by lia.
    + rewrite IH, Hlen, Hh, <- app_assoc. f_equal. simpl. clear IH.
      unfold count_reached, room in *. rewrite Hlen in Hreached.
      destruct (options_count opts) as [n|]; [|done].
      destruct (Z.eqb_spec n 0); [done|]. simpl in *.
      apply Z.leb_gt in Hreached.
      replace (Z.to_nat (Z.max 1 (n - Z.of_nat (length (hits r)))))
        with (S (Z.to_nat (Z.max 1 (n - Z.of_nat (S (length (hits r)))))))
        by lia.
      done.
  - destruct Hstep as [Hh ->]. rewrite filter_cons_False by (by rewrite Hhit).
    by rewrite IH, Hh.
Qed.

Lemma identify_loop_filter_calls ht opts candidates : ∀ r,
  Forall (λ g, passes_geometry ht g = true) (filter_calls r) →
  Forall (λ g, passes_geometry ht g = true)
         (filter_calls (identify_loop ht opts candidates r)).
Proof.
  induction candidates as [|geo rest IH]; intros r Hr; [done|].
  destruct (identify_loop_cons ht opts geo rest r) as (r' & _ & Hcalls & Hstep).
  assert (Forall (λ g, passes_geometry ht g = true) (filter_calls r')) as Hr'.
  { destruct Hcalls as [->|[-> Hgeo]]; [done|].
    apply Forall_app. split; [done|]. by constructor. }
  destruct (is_hit ht opts geo); destruct Hstep as [_ ->]; [|by apply IH].
  destruct (count_reached opts (hits r')); [done|by apply IH].
Qed.

(** Once the count is reached the loop has ended on that hit: the last
    geometry it looked at is the last hit. *)
Lemma identify_loop_stops ht opts candidates : ∀ r,
  count_reached opts (hits r) = false →
  count_reached opts (hits (identify_loop ht opts candidates r)) = true →
  last (visited (identify_loop ht opts candidates r))
  = last (hits (identify_loop ht opts candidates r)).
Proof.
  induction candidates as [|geo rest IH]; intros r Hr; simpl.
  { by rewrite Hr. }
  destruct (identify_loop_cons ht opts geo rest r) as (r' & Hv & _ & Hstep).
  simpl in Hstep.
  destruct (is_hit ht opts geo); destruct Hstep as [Hh ->].
  - destruct (count_reached opts (hits r')) eqn:Hreached; [|by apply IH].
    intros _. by rewrite Hv, Hh, !last_snoc.
  - apply IH. by rewrite Hh.
Qed.

Lemma identify_loop_visited ht opts candidates : ∀ r,
  ∃ k, visited (identify_loop ht opts candidates r)
       = visited r ++ take k candidates.
Proof.
  induction candidates as [|geo rest IH]; intros r.
  { exists 0%nat. simpl. by rewrite app_nil_r. }
  destruct (identify_loop_cons ht opts geo rest r) as (r' & Hv & _ & Hstep).
  assert (∃ k, visited (identify_loop ht opts rest r')
               = visited r ++ take k (geo :: rest)) as Hgo.
  { destruct (IH r') as [k ->]. exists (S k). by rewrite Hv, <- app_assoc. }
  destruct (is_hit ht opts geo); destruct Hstep as [_ ->]; [|done].
  destruct (count_reached opts (hits r')); [|done].
  exists 1%nat. by rewrite Hv.
Qed.

Lemma StronglySorted_sublist {A} (R : relation A) (l1 l2 : list A) :
  sublist l1 l2 → StronglySorted R l2 → StronglySorted R l1.
Proof.
  induction 1 as [|x l1 l2 Hsub IH|x l1 l2 Hsub IH]; intros Hs; [done|..].
  - apply StronglySorted_cons in Hs as [Hx Hs].
    apply StronglySorted_cons. split; [|by apply IH].
    rewrite Forall_forall in *. intros y Hy. apply Hx.
    by eapply elem_of_sublist.
  - apply StronglySorted_cons in Hs as [_ Hs]. by apply IH.
Qed.

Lemma StronglySorted_reverse {A} (R : relation A) (l : list A) :
  StronglySorted R l → StronglySorted (flip R) (reverse l).
Proof.
  induction 1 as [|x l Hl IH Hx]; [constructor|]. rewrite reverse_cons.
  apply StronglySorted_app_2; [|done|repeat constructor].
  intros a b Ha Hb. apply list_elem_of_singleton in Hb as ->.
  rewrite Forall_forall in Hx. apply Hx. by apply elem_of_reverse.
Qed.

Lemma filter_none {A} (P : A → Prop) `{!∀ x, Decision (P x)} (l : list A) :
  (∀ x, x ∈ l → ¬ P x) → filter P l = [].
Proof.
  induction l as [|x l IH]; intros Hno; [done|].
  rewrite filter_cons_False by (apply Hno; left). apply IH.
  intros y Hy. apply Hno. by right.
Qed.

Lemma take_room_sublist {A} limit (l : list A) : sublist (take_room limit l) l.
Proof. destruct limit; simpl; [apply sublist_take|done]. Qed.

(** C4. On a layer that is on a map, [identify] returns the hits among the
    geometries from the last of [_geoList] to the first, cut at the count: a
    subsequence of the reversed sequence, so in descending draw order when
    the sequence is in draw order; at most [count] of them for a positive
    count, the loop ending on the hit that reaches it; none when no geometry
    is a hit; and the filter is called only on geometries that passed the
    geometric test. *)
Theorem identify_topmost_first w ht opts :
  has_map w = true →
  ∃ r, identify w ht opts = Some r
    ∧ hits r = take_room (room opts 0)
                 (filter (λ g, is_hit ht opts g = true) (reverse (_geoList w)))
    ∧ sublist (hits r) (reverse (_geoList w))
    ∧ (StronglySorted (geo_lt w) (_geoList w) →
       StronglySorted (flip (geo_lt w)) (hits r))
    ∧ (∀ n, options_count opts = Some n → (0 < n)%Z →
            (Z.of_nat (length (hits r)) ≤ n)%Z)
    ∧ ((∀ g, g ∈ _geoList w → is_hit ht opts g = false) → hits r = [])
    ∧ Forall (λ g, passes_geometry ht g = true) (filter_calls r)
    ∧ (∀ n, options_count opts = Some n → (0 < n)%Z →
            Z.of_nat (length (hits r)) = n → last (visited r) = last (hits r))
    ∧ (∃ k, visited r = take k (reverse (_geoList w))).
Proof.
  intros Hmap. unfold identify. rewrite Hmap. eexists. split; [done|].
  set (r0 := mkIdentifyRun [] [] []).
  assert (hits (identify_loop ht opts (reverse (_geoList w)) r0)
          = take_room (room opts 0)
              (filter (λ g, is_hit ht opts g = true) (reverse (_geoList w)))) as Hhits.
  { by rewrite identify_loop_hits. }
  assert (sublist (hits (identify_loop ht opts (reverse (_geoList w)) r0))
                  (reverse (_geoList w))) as Hsub.
  { rewrite Hhits. etransitivity; [apply take_room_sublist|apply sublist_filter]. }
  split_and!; try done.
  - intros Hs. eapply StronglySorted_sublist; [done|].
    by apply StronglySorted_reverse.
  - intros n Hn Hpos. rewrite Hhits. unfold room. rewrite Hn.
    destruct (Z.eqb_spec n 0); [lia|]. simpl.
    rewrite length_take. lia.
  - intros Hnone. rewrite Hhits.
    rewrite filter_none; [apply take_room_nil|].
    intros g Hg. rewrite Hnone; [done|]. by apply elem_of_reverse.
  - by apply identify_loop_filter_calls.
  - intros n Hn Hpos Hlen. apply identify_loop_stops.
    + unfold count_reached. rewrite Hn. simpl.
      apply andb_false_iff. right. apply Z.leb_gt. lia.
    + unfold count_reached. rewrite Hn, Hlen.
      apply andb_true_iff. split; [|apply Z.leb_refl].
      apply negb_true_iff, Z.eqb_neq. lia.
  - apply (identify_loop_visited ht opts (reverse (_geoList w)) r0).
Qed.

(** ** Removing, then adding under the same id *)

(** Adding one geometry whose id is free registers it; on a map whose
    renderer is missing the call raises after that. *)
Lemma addGeometry_free_id w geo x :
  getId w geo = Some x →
  _geoMap_get w x = None →
  ∃ w1, addGeometry w [Some geo]
        = (if has_map w && negb (has_renderer w)
           then Throw TypeError (_sortGeometries w1)
           else Return (emit (if has_map w
                              then emit (_sortGeometries w1)
                                        (RendererGeometryAdd [Some geo])
                              else _sortGeometries w1)
                             (LayerAddGeo [Some geo])))
        ∧ _geoMap w1 = <[x := geo]> (_geoMap w)
        ∧ geo ∈ _geoList (_sortGeometries w1).
Proof.
  intros Hx Hfree.
  assert (∃ w1, addGeometry_step w 0 (Some geo) = Return w1) as [w1 Hstep].
  { rewrite addGeometry_step_Some, Hx.
    rewrite bool_decide_false by (rewrite Hfree; by intros [? ?]). by eexists. }
  exists w1. split_and!.
  - apply addGeometry_after_loop; [done|]. cbn [addGeometry_loop].
    by rewrite Hstep.
  - by rewrite (addGeometry_step_geoMap _ _ _ _ Hstep), Hx.
  - destruct (addGeometry_step_fields _ _ _ _ Hstep) as (Hl & _).
    simpl. rewrite array_sort_Permutation, Hl. set_solver.
Qed.

(** A geometry with id [x] that is bound to the layer is removed, by
    [onRemoveGeometry], by its own [remove] or by [removeGeometry]. Then no
    geometry is registered under [x]. When [x] is not a name of
    Object.prototype: [getGeometryById x] is null, and adding a geometry
    that carries [x] registers it, and returns when the layer has a
    renderer or is on no map. When [x] is such a name, [getGeometryById x]
    answers the inherited member and the add throws a duplicate-id
    error. *)
Lemma remove_then_add_same_id w geo x n w' :
  _clearing w = false →
  getLayer w geo = Some (layer_self w) →
  _getInternalId w geo = Some n →
  getId w geo = Some x →
  w' ∈ [onRemoveGeometry w (Some geo); Geometry_remove w geo;
        state_of (removeGeometry w [ByRef geo])] →
  _geoMap w' !! x = None
  ∧ (inherited x = false →
     getGeometryById w' (IdKey x) = None
     ∧ ∀ geo', getId w' geo' = Some x →
         (has_map w' = true → has_renderer w' = true) →
         ∃ w'', addGeometry w' [Some geo'] = Return w''
                ∧ _geoMap w'' !! x = Some geo'
                ∧ geo' ∈ _geoList w''
                ∧ (x ≠ "" → getGeometryById w'' (IdKey x) = Some (Geo geo')))
  ∧ (inherited x = true →
     getGeometryById w' (IdKey x) = Some (Proto x)
     ∧ ∀ geo', getId w' geo' = Some x →
         addGeometry w' [Some geo'] = Throw (duplicate_id_msg w' x 0) w').
Proof.
  intros Hc Hl Hn Hx Hw'.
  assert (_geoMap w' !! x = None) as Hgone.
  { assert (_geoMap w' = delete x (_geoMap w)) as ->; [|apply lookup_delete_eq].
    repeat (apply elem_of_cons in Hw' as [->|Hw']).
    - by apply (onRemoveGeometry_bound _ _ _ n).
    - by apply (Geometry_remove_bound _ _ _ n).
    - by apply (removeGeometry_bound _ _ _ n).
    - by apply elem_of_nil in Hw'. }
  split; [done|]. split.
  - intros Hown.
    assert (_geoMap_get w' x = None) as Hfree by by apply _geoMap_get_None.
    split; [by apply getGeometryById_unregistered|].
    intros geo' Hx' Hr.
    destruct (addGeometry_free_id w' geo' x Hx' Hfree) as (w1 & Hadd & Hmap & Hin).
    assert (has_map w' && negb (has_renderer w') = false) as Hok.
    { destruct (has_map w'); [by rewrite Hr|done]. }
    rewrite Hok in Hadd. eexists. split; [exact Hadd|].
    assert (∀ v, _geoMap (emit (if has_map w'
                                then emit (_sortGeometries w1) v
                                else _sortGeometries w1)
                               (LayerAddGeo [Some geo']))
                 = <[x := geo']> (_geoMap w')) as Hmap'.
    { intros v. simpl. by destruct (has_map w'). }
    split_and!.
    + by rewrite Hmap', lookup_insert_eq.
    + simpl. by destruct (has_map w').
    + intros Hne. rewrite getGeometryById_get. simpl.
      rewrite bool_decide_false by done.
      apply _geoMap_get_Geo. by rewrite Hmap', lookup_insert_eq.
  - intros Hproto. split.
    + by apply (proj2 (getGeometryById_null w' (IdKey x))).
    + intros geo' Hx'. unfold addGeometry, addGeometry_loop.
      rewrite addGeometry_step_Some, Hx'.
      rewrite bool_decide_true; [done|].
      exists (Proto x). by apply _geoMap_get_Proto.
Qed.

(** ** The binary search *)

Lemma middle_bounds (low high : Z) :
  (low ≤ high)%Z → (low ≤ (low + high) / 2 ≤ high)%Z.
Proof.
  intros H. pose proof (Z.div_mod (low + high) 2 ltac:(lia)).
  pose proof (Z.mod_pos_bound (low + high) 2 ltac:(lia)). lia.
Qed.

(** The loop ends within [high - low + 1] turns: with that much fuel or
    more, the result does not depend on the fuel. *)
Lemma _findInList_loop_fuel w geo : ∀ fuel fuel' low high,
  (high - low < Z.of_nat fuel)%Z → (high - low < Z.of_nat fuel')%Z →
  _findInList_loop fuel w geo low high = _findInList_loop fuel' w geo low high.
Proof.
  induction fuel as [|fuel IH]; intros fuel' low high Hf Hf'.
  - destruct fuel' as [|fuel']; [done|]. simpl.
    destruct (Z.leb_spec low high); [lia|done].
  - destruct fuel' as [|fuel']; simpl.
    { destruct (Z.leb_spec low high); [lia|done]. }
    destruct (Z.leb_spec low high) as [Hle|]; [|done].
    pose proof (middle_bounds low high Hle).
    destruct (_geoList w !! Z.to_nat ((low + high) / 2)) as [m|]; [|done].
    case_bool_decide; [done|].
    destruct (is_positive (_compare w m geo)); apply IH; lia.
Qed.

(** On a sequence in draw order the search finds the geometry where it
    is. *)
Lemma _findInList_loop_finds w geo i :
  StronglySorted (geo_lt w) (_geoList w) →
  _geoList w !! i = Some geo →
  ∀ fuel low high,
    (0 ≤ low ≤ Z.of_nat i)%Z → (Z.of_nat i ≤ high)%Z →
    (high < Z.of_nat (length (_geoList w)))%Z →
    (high - low < Z.of_nat fuel)%Z →
    _findInList_loop fuel w geo low high = Z.of_nat i.
Proof.
  intros Hs Hi. induction fuel as [|fuel IH]; intros low high Hlow Hhigh Hlen Hf;
    [lia|].
  simpl. destruct (Z.leb_spec low high) as [Hle|]; [|lia].
  pose proof (middle_bounds low high Hle) as Hmid.
  set (middle := ((low + high) / 2)%Z) in *.
  destruct (_geoList w !! Z.to_nat middle) as [m|] eqn:Hm.
  2:{ apply lookup_ge_None in Hm. lia. }
  assert (∀ j k a b, _geoList w !! j = Some a → _geoList w !! k = Some b →
                     geo_lt w a b → (j < k)%nat) as Horder.
  { intros j k a b Hj Hk Hab. destruct (Nat.lt_trichotomy j k) as [?|[->|?]];
      [done|..].
    - simplify_eq. by apply geo_lt_irrefl in Hab.
    - exfalso. apply (geo_lt_irrefl w a). transitivity b; [done|].
      by eapply (StronglySorted_lookup_lt _ _ k j). }
  case_bool_decide as Heq.
  - subst m. destruct (Nat.lt_trichotomy (Z.to_nat middle) i) as [Hlt|[?|Hlt]];
      [|lia|].
    + pose proof (StronglySorted_lookup_lt _ _ _ _ _ _ Hs Hlt Hm Hi) as Hirr.
      by apply geo_lt_irrefl in Hirr.
    + pose proof (StronglySorted_lookup_lt _ _ _ _ _ _ Hs Hlt Hi Hm) as Hirr.
      by apply geo_lt_irrefl in Hirr.
  - assert (Z.to_nat middle ≠ i) as Hne by congruence.
    assert (geo_lt w m geo ∨ geo_lt w geo m) as Hcmp.
    { destruct (Nat.lt_trichotomy (Z.to_nat middle) i) as [Hlt|[?|Hlt]]; [|done|].
      - left. by eapply (StronglySorted_lookup_lt _ _ (Z.to_nat middle) i).
      - right. by eapply (StronglySorted_lookup_lt _ _ i (Z.to_nat middle)). }
    assert (if is_positive (_compare w m geo)
            then geo_lt w geo m else geo_lt w m geo) as Hagree.
    { unfold _compare, geo_lt in *.
      destruct (Z.eqb_spec (getZIndex w m) (getZIndex w geo)) as [Hz|Hz].
      - assert (∃ a b, _getInternalId w m = Some a ∧ _getInternalId w geo = Some b
                       ∧ a ≠ b) as (a & b & -> & -> & Hab).
        { destruct Hcmp as [[?|(_ & a & b & ? & ? & ?)]|[?|(_ & a & b & ? & ? & ?)]];
            try lia; [exists a, b|exists b, a]; split_and!; try done; lia. }
        simpl. destruct (Z.ltb_spec 0 (a - b)); right;
          (split; [done|]); [exists b, a|exists a, b]; split_and!; try done; lia.
      - simpl. destruct (Z.ltb_spec 0 (getZIndex w m - getZIndex w geo)); left; lia. }
    destruct (is_positive (_compare w m geo)).
    + pose proof (Horder _ _ _ _ Hi Hm Hagree). apply IH; lia.
    + pose proof (Horder _ _ _ _ Hm Hi Hagree). apply IH; lia.
Qed.

Lemma _findInList_finds w geo i :
  StronglySorted (geo_lt w) (_geoList w) →
  _geoList w !! i = Some geo →
  _findInList w geo = Z.of_nat i.
Proof.
  intros Hs Hi. unfold _findInList.
  pose proof (lookup_lt_Some _ _ _ Hi) as Hlt.
  rewrite bool_decide_false by lia.
  apply _findInList_loop_finds; [done|done|lia..].
Qed.

(** One order only: a permutation of the sequence that is in draw order is
    the sequence, whatever algorithm sorted it. *)
Lemma sorted_permutation_unique w l1 l2 :
  StronglySorted (geo_lt w) l1 → StronglySorted (geo_lt w) l2 →
  l1 ≡ₚ l2 → l1 = l2.
Proof.
  apply StronglySorted_unique_strong. intros a b _ _ Hab Hba.
  exfalso. apply (geo_lt_irrefl w a). by transitivity b.
Qed.

(** On a store in draw order, removing a bound geometry takes it out of the
    sequence and out of the id map. *)
Lemma onRemoveGeometry_sorted w geo i n :
  _clearing w = false →
  getLayer w geo = Some (layer_self w) →
  _getInternalId w geo = Some n →
  StronglySorted (geo_lt w) (_geoList w) →
  _geoList w !! i = Some geo →
  _geoList (onRemoveGeometry w (Some geo)) = delete i (_geoList w)
  ∧ geo ∉ _geoList (onRemoveGeometry w (Some geo)).
Proof.
  intros Hc Hl Hn Hs Hi.
  assert (_geoList (onRemoveGeometry w (Some geo)) = delete i (_geoList w)) as E.
  { unfold onRemoveGeometry. rewrite Hc, Hl, bool_decide_true, Hn by done. simpl.
    set (w1 := match getId w geo with Some _ => _ | None => _ end).
    assert (_findInList w1 geo = Z.of_nat i) as ->.
    { destruct (getId w geo); by apply _findInList_finds. }
    rewrite (proj2 (Z.leb_le 0 (Z.of_nat i))) by lia.
    unfold splice1. rewrite Nat2Z.id.
    by destruct (has_renderer _), (getId w geo). }
  split; [done|]. rewrite E. intros Hin.
  apply list_elem_of_lookup_1 in Hin as [j Hj].
  rewrite list_lookup_delete in Hj.
  assert (NoDup (_geoList w)) as Hnd.
  { clear -Hs. induction Hs as [|x l Hl IH Hx]; constructor; [|done].
    intros Hin. rewrite Forall_forall in Hx. by apply Hx, geo_lt_irrefl in Hin. }
  case_decide; pose proof (NoDup_lookup _ _ _ _ Hnd Hi Hj); lia.
Qed.

End overlay_facts.

(** * Facts about the text marker symbolizer *)

Section text_facts.
Import TextMarker.

(** ** Style resolution *)


Example translate_Hi :
  let style := translate {[ "textName" := VStr "Hi" ]} in
  style_get style "textName" = VStr "Hi"
  ∧ style_get style "textSize" = VNum 10
  ∧ style_get style "textFill" = VStr "#000"
  ∧ style_get style "textOpacity" = VNum 1
  ∧ style_get style "textHaloRadius" = VNum 0.
Proof. vm_compute. done. Qed.

(** ** Cache keys *)

Lemma string_length_app (a b : string) :
  String.length (a +:+ b) = (String.length a + String.length b)%nat.
Proof. induction a as [|c a IH]; simpl; [done|by rewrite IH]. Qed.

Lemma string_app_inv_tail (a b t : string) : a +:+ t = b +:+ t → a = b.
Proof.
  revert b. induction a as [|c a IH]; intros [|c' b] H; simpl in *.
  - done.
  - apply (f_equal String.length) in H.
    rewrite !string_length_app in H. simpl in H. lia.
  - apply (f_equal String.length) in H.
    rewrite !string_length_app in H. simpl in H. lia.
  - injection H as -> H. f_equal. by apply IH.
Qed.

Lemma concat_cons2 (sep x y : string) (l : list string) :
  String.concat sep (x :: y :: l) = x +:+ sep +:+ String.concat sep (y :: l).
Proof. done. Qed.

(** Two joined arrays that differ in one entry only differ. *)
Lemma concat_inj_entry (sep : string) (l1 l2 : list string) (e1 e2 c : string) :
  String.concat sep (c :: l1 ++ e1 :: l2) = String.concat sep (c :: l1 ++ e2 :: l2) →
  e1 = e2.
Proof.
  revert c. induction l1 as [|a l1 IH]; intros c; simpl app.
  - rewrite !concat_cons2. intros H. do 2 apply String.app_inj in H.
    destruct l2 as [|b l2]; [done|].
    rewrite !concat_cons2 in H. by apply string_app_inv_tail in H.
  - rewrite !concat_cons2. intros H. do 2 apply String.app_inj in H. by eapply IH.
Qed.

Lemma genCacheKey_entries_app (st1 st2 : Style) :
  genCacheKey_entries (st1 ++ st2)
  = genCacheKey_entries st1 ++ genCacheKey_entries st2.
Proof.
  induction st1 as [|[p v] st1 IH]; simpl; [done|].
  destruct (_ && _); simpl; by rewrite IH.
Qed.

(** Styles that differ in [textSize] only have different keys, unless the
    two sizes read the same as strings. *)
Lemma genCacheKey_textSize (textContent : string) (pre post : Style) (v1 v2 : value) :
  genCacheKey textContent (pre ++ ("textSize", v1) :: post)
  = genCacheKey textContent (pre ++ ("textSize", v2) :: post) →
  to_string v1 = to_string v2.
Proof.
  unfold genCacheKey. rewrite !genCacheKey_entries_app. simpl.
  intros H. apply concat_inj_entry in H.
  by apply (String.app_inj "textSize=") in H.
Qed.

Lemma genCacheKey_textSize_same (textContent : string) (pre post : Style)
    (v1 v2 : value) :
  to_string v1 = to_string v2 →
  genCacheKey textContent (pre ++ ("textSize", v1) :: post)
  = genCacheKey textContent (pre ++ ("textSize", v2) :: post).
Proof.
  intros H. unfold genCacheKey. rewrite !genCacheKey_entries_app. simpl.
  by rewrite H.
Qed.

(** ** Static symbols *)

Lemma static_prop (s : gmap string value) p :
  hasFunctionDefinition s = false → isFunctionDefinition (prop s p) = false.
Proof.
  unfold hasFunctionDefinition, prop. intros Hs.
  destruct (s !! p) as [v|] eqn:Hp; [|done]. simpl.
  destruct (isFunctionDefinition v) eqn:Hv; [|done].
  rewrite <- Hs. symmetry. apply existsb_exists. exists (p, v). split; [|done].
  apply list_elem_of_In. by apply elem_of_map_to_list.
Qed.

Lemma static_intro (s : gmap string value) :
  (∀ p v, s !! p = Some v → isFunctionDefinition v = false) →
  hasFunctionDefinition s = false.
Proof.
  intros Hs. unfold hasFunctionDefinition.
  destruct (existsb _ _) eqn:E; [|done].
  apply existsb_exists in E as ([p v] & Hin & Hv).
  apply list_elem_of_In, elem_of_map_to_list in Hin. simpl in Hv.
  by rewrite (Hs p v Hin) in Hv.
Qed.

Lemma static_insert (s : gmap string value) p v :
  hasFunctionDefinition s = false → isFunctionDefinition v = false →
  hasFunctionDefinition (<[p := v]> s) = false.
Proof.
  intros Hs Hv. apply static_intro. intros q u Hq.
  destruct (decide (p = q)) as [->|Hne].
  - rewrite lookup_insert_eq in Hq. by simplify_eq.
  - rewrite lookup_insert_ne in Hq by done.
    pose proof (static_prop s q Hs) as Hp. unfold prop in Hp. by rewrite Hq in Hp.
Qed.

Lemma prop_insert_ne (s : gmap string value) p q v :
  p ≠ q → prop (<[p := v]> s) q = prop s q.
Proof. intros Hne. unfold prop. by rewrite lookup_insert_ne. Qed.

Lemma prop_insert_eq (s : gmap string value) p v : prop (<[p := v]> s) p = v.
Proof. unfold prop. by rewrite lookup_insert_eq. Qed.

Lemma translate_split (s : gmap string value) :
  translate s
  = translate_before s
    ++ ("textSize", style_get (translate s) "textSize") :: translate_after s.
Proof. done. Qed.

(** Setting the size changes the resolved style in its [textSize] entry
    only. *)
Lemma translate_textSize (s : gmap string value) (v : value) :
  translate (<["textSize" := v]> s)
  = translate_before s
    ++ ("textSize", getValueOrDefault v (VNum 10)) :: translate_after s.
Proof.
  unfold translate_before, translate_after, translate.
  rewrite prop_insert_eq. rewrite !prop_insert_ne by done. done.
Qed.

Section with_collaborators.
Context {TextDesc : Type}.
Variable splitTextToRow : string → Style → TextDesc.
Variable evaluate : string → value.
Variable replaceVariable : value → string.

Lemma _defineStyle_static (s : gmap string value) :
  hasFunctionDefinition s = false →
  _defineStyle evaluate (translate s) = translate s.
Proof.
  intros Hs.
  assert (∀ p d, isFunctionDefinition d = false →
    match getValueOrDefault (prop s p) d with VFn f => evaluate f | v => v end
    = getValueOrDefault (prop s p) d) as Hv.
  { intros p d Hd. pose proof (static_prop s p Hs) as Hp.
    unfold getValueOrDefault. destruct (isNil (prop s p)).
    - by destruct d.
    - by destruct (prop s p). }
  unfold _defineStyle, translate. simpl. rewrite !Hv by done.
  pose proof (static_prop s "textName" Hs). by destruct (prop s "textName").
Qed.

Lemma _descText_hit is_node (this : Symbolizer) g textContent key d :
  _dynamic this = false → _cacheKey this = Some key →
  cache_lookup g key = Some d →
  _descText splitTextToRow is_node this g textContent
  = (set_textDesc this d, after_read g).
Proof.
  intros Hdyn Hkey Hd. unfold _descText, _loadFromCache, cache_key_name.
  rewrite Hdyn, Hkey. simpl. unfold cache_lookup in Hd.
  unfold after_read.
  destruct (text_symbol_cache g) as [cache|]; [|done]. simpl in Hd.
  by rewrite Hd.
Qed.

Lemma _descText_miss (this : Symbolizer) g textContent key :
  _dynamic this = false → _cacheKey this = Some key →
  cache_lookup g key = None →
  _descText splitTextToRow false this g textContent
  = (set_textDesc this (splitTextToRow textContent (style this)),
     mkGeometryState
       (Some (<[key := splitTextToRow textContent (style this)]>
                (default ∅ (text_symbol_cache g))))
       (S (layouts g)) (S (cache_reads g)) (S (cache_writes g))).
Proof.
  intros Hdyn Hkey Hd. unfold _descText, _loadFromCache, cache_key_name.
  rewrite Hdyn, Hkey. simpl. unfold cache_lookup in Hd.
  destruct (text_symbol_cache g) as [cache|]; simpl in *.
  - rewrite Hd. unfold _storeToCache, cache_key_name. simpl. by rewrite Hkey.
  - unfold _storeToCache, cache_key_name. simpl. by rewrite Hkey.
Qed.

Lemma _descText_dynamic is_node (this : Symbolizer) g textContent :
  _dynamic this = true →
  _descText splitTextToRow is_node this g textContent
  = (set_textDesc this (splitTextToRow textContent (style this)),
     mkGeometryState (text_symbol_cache g) (S (layouts g)) (cache_reads g)
       (cache_writes g)).
Proof. intros Hdyn. unfold _descText. by rewrite Hdyn. Qed.

(** Under Node no layout ever gets into the cache. *)
Lemma _descText_node (this : Symbolizer) g textContent :
  text_symbol_cache (_descText splitTextToRow true this g textContent).2
  = text_symbol_cache g.
Proof.
  unfold _descText, _loadFromCache, _storeToCache, layout.
  destruct (_dynamic this); [done|].
  destruct (text_symbol_cache g) as [cache|]; simpl; [|done].
  by destruct (cache !! cache_key_name this).
Qed.

Abbreviation content_of := (content_of replaceVariable).
Abbreviation key_of := (cache_key_of replaceVariable).

Lemma style_get_textName (sym : gmap string value) :
  style_get (translate sym) "textName" = prop sym "textName".
Proof. done. Qed.

Lemma new_static is_node (sym : gmap string value) g :
  hasFunctionDefinition sym = false →
  new_TextMarkerSymbolizer splitTextToRow is_node evaluate replaceVariable sym g
  = _descText splitTextToRow is_node
      (mkSymbolizer sym false (translate sym) (Some (key_of sym)) None)
      g (content_of sym).
Proof.
  intros Hs. unfold new_TextMarkerSymbolizer.
  by rewrite Hs, _defineStyle_static.
Qed.

Lemma style_get_textSize (sym : gmap string value) (v : value) :
  style_get (translate (<["textSize" := v]> sym)) "textSize"
  = getValueOrDefault v (VNum 10).
Proof. rewrite translate_textSize. done. Qed.

(** Two static symbols that differ in [textSize] only have the same key
    exactly when the two resolved sizes read the same as strings. *)
Lemma key_of_textSize (sym : gmap string value) (v : value) :
  key_of (<["textSize" := v]> sym) = key_of sym
  ↔ to_string (style_get (translate (<["textSize" := v]> sym)) "textSize")
    = to_string (style_get (translate sym) "textSize").
Proof.
  rewrite style_get_textSize.
  unfold cache_key_of, TextMarker.content_of.
  rewrite prop_insert_ne by done.
  rewrite translate_textSize, (translate_split sym).
  split; [apply genCacheKey_textSize|apply genCacheKey_textSize_same].
Qed.

Abbreviation new_symbolizer is_node :=
  (new_TextMarkerSymbolizer splitTextToRow is_node evaluate replaceVariable).

(** A static symbol, outside Node: the constructor leaves the descriptor
    in the geometry's cache under the symbol's key. *)
Lemma new_static_stores (sym : gmap string value) g0 :
  hasFunctionDefinition sym = false →
  ∃ this d,
    new_symbolizer false sym g0 = (this, (new_symbolizer false sym g0).2)
    ∧ symbol this = sym
    ∧ _dynamic this = false
    ∧ _cacheKey this = Some (key_of sym)
    ∧ style this = translate sym
    ∧ textDesc this = Some d
    ∧ set_textDesc this d = this
    ∧ cache_lookup (new_symbolizer false sym g0).2 (key_of sym) = Some d
    ∧ (cache_lookup g0 (key_of sym) = None →
       d = splitTextToRow (content_of sym) (translate sym)
       ∧ layouts (new_symbolizer false sym g0).2 = S (layouts g0)).
Proof.
  intros Hs. rewrite new_static by done.
  destruct (cache_lookup g0 (key_of sym)) as [d|] eqn:Hc.
  - erewrite _descText_hit by done. by eexists _, d.
  - erewrite _descText_miss by done. eexists _, _. split_and!; try done.
    unfold cache_lookup. simpl. by rewrite lookup_insert_eq.
Qed.

(** Under Node a miss computes and stores nothing. *)
Lemma _descText_miss_node (this : Symbolizer) g textContent key :
  _dynamic this = false → _cacheKey this = Some key →
  cache_lookup g key = None →
  _descText splitTextToRow true this g textContent
  = (set_textDesc this (splitTextToRow textContent (style this)),
     after_layout (after_read g)).
Proof.
  intros Hdyn Hkey Hd.
  unfold _descText, _loadFromCache, _storeToCache, layout, cache_key_name,
    after_layout, after_read.
  rewrite Hdyn, Hkey. simpl. unfold cache_lookup in Hd.
  destruct (text_symbol_cache g) as [cache|]; simpl in *; [by rewrite Hd|done].
Qed.

Abbreviation static_symbolizer := (static_symbolizer replaceVariable).

Lemma new_static_symbolizer is_node (sym : gmap string value) g :
  hasFunctionDefinition sym = false →
  new_symbolizer is_node sym g
  = _descText splitTextToRow is_node (static_symbolizer sym) g (content_of sym).
Proof. apply new_static. Qed.

(** C6. A static symbol (no computed expression), outside Node: the
    constructor leaves the descriptor in the geometry's cache under the key
    made of the content and the text properties of the style; a later
    layout of the same symbol on that geometry, by [_descText] or by a new
    symbolizer, returns that entry and computes nothing; another
    [textSize] gives another key exactly when the two resolved sizes read
    differently as strings, and then a miss and a second entry beside the
    first. A static symbol under Node: the cache is read and never written,
    so a layout returns the entry the cache holds under the key, if any,
    and computes whenever it holds none, the next layout included. A
    dynamic symbol, under Node or not: every layout computes and the cache
    is neither read nor written. *)
Theorem text_layout_cache (sym : gmap string value) (g0 : GeometryState) :
  (hasFunctionDefinition sym = false →
   ∃ this d,
     let g1 := (new_symbolizer false sym g0).2 in
     new_symbolizer false sym g0 = (this, g1)
     ∧ _cacheKey this = Some (key_of sym)
     ∧ textDesc this = Some d
     ∧ cache_lookup g1 (key_of sym) = Some d
     ∧ (cache_lookup g0 (key_of sym) = None →
        d = splitTextToRow (content_of sym) (translate sym)
        ∧ layouts g1 = S (layouts g0))
     ∧ (∀ textContent,
          _descText splitTextToRow false this g1 textContent
          = (this, after_read g1))
     ∧ new_symbolizer false sym g1 = (this, after_read g1)
     ∧ (∀ v,
          isFunctionDefinition v = false →
          let sym' := <["textSize" := v]> sym in
          let g2 := (new_symbolizer false sym' g1).2 in
          (key_of sym' = key_of sym
           ↔ to_string (style_get (translate sym') "textSize")
             = to_string (style_get (translate sym) "textSize"))
          ∧ (key_of sym' ≠ key_of sym →
             cache_lookup g1 (key_of sym') = None →
             layouts g2 = S (layouts g1)
             ∧ cache_lookup g2 (key_of sym) = Some d
             ∧ cache_lookup g2 (key_of sym')
               = Some (splitTextToRow (content_of sym') (translate sym')))))
  ∧ (hasFunctionDefinition sym = false →
     let this0 := static_symbolizer sym in
     (∀ d, cache_lookup g0 (key_of sym) = Some d →
        new_symbolizer true sym g0 = (set_textDesc this0 d, after_read g0))
     ∧ (cache_lookup g0 (key_of sym) = None →
        let this := set_textDesc this0
                      (splitTextToRow (content_of sym) (translate sym)) in
        let g1 := after_layout (after_read g0) in
        new_symbolizer true sym g0 = (this, g1)
        ∧ cache_lookup g1 (key_of sym) = None
        ∧ (∀ textContent,
             _descText splitTextToRow true this g1 textContent
             = (set_textDesc this0 (splitTextToRow textContent (translate sym)),
                after_layout (after_read g1)))
        ∧ new_symbolizer true sym g1 = (this, after_layout (after_read g1)))
     ∧ (∀ this g textContent,
          text_symbol_cache (_descText splitTextToRow true this g textContent).2
          = text_symbol_cache g
          ∧ cache_writes (_descText splitTextToRow true this g textContent).2
            = cache_writes g))
  ∧ (hasFunctionDefinition sym = true →
     ∀ is_node, ∃ this,
       new_symbolizer is_node sym g0 = (this, after_layout g0)
       ∧ _dynamic this = true
       ∧ _cacheKey this = None
       ∧ (∀ g textContent,
            _descText splitTextToRow is_node this g textContent
            = (set_textDesc this (splitTextToRow textContent (style this)),
               after_layout g))).
Proof.
  split; [|split].
  - intros Hs.
    destruct (new_static_stores sym g0 Hs)
      as (this & d & Hnew & Hsym & Hdyn & Hkey & Hst & Hd & Hset & Hc & Hmiss).
    exists this, d. cbv zeta. set (g1 := (new_symbolizer false sym g0).2) in *.
    split; [exact Hnew|]. split; [exact Hkey|]. split; [exact Hd|].
    split; [exact Hc|]. split; [exact Hmiss|]. split; [|split].
    + intros textContent. erewrite _descText_hit by done. by rewrite Hset.
    + rewrite new_static_symbolizer by exact Hs.
      erewrite _descText_hit by done.
      f_equal. rewrite <- Hset. unfold static_symbolizer.
      destruct this. simpl in *. by subst.
    + intros v Hv. split; [apply key_of_textSize|].
      intros Hne Hfresh.
      assert (hasFunctionDefinition (<["textSize" := v]> sym) = false)
        as Hs' by by apply static_insert.
      rewrite new_static_symbolizer by exact Hs'.
      erewrite _descText_miss by done.
      cbn [snd layouts]. split; [reflexivity|]. split.
      * unfold cache_lookup in *. cbn [text_symbol_cache mbind option_bind].
        rewrite lookup_insert_ne by exact Hne.
        by destruct (text_symbol_cache g1).
      * unfold cache_lookup. cbn [text_symbol_cache mbind option_bind].
        by rewrite lookup_insert_eq.
  - intros Hs. cbv zeta. split; [|split].
    + intros d Hd. rewrite new_static_symbolizer by exact Hs.
      by erewrite _descText_hit by done.
    + intros Hmiss.
      assert (cache_lookup (after_layout (after_read g0)) (key_of sym) = None)
        as Hmiss' by exact Hmiss.
      split; [|split; [exact Hmiss'|split]].
      * rewrite new_static_symbolizer by exact Hs.
        by erewrite _descText_miss_node by done.
      * intros textContent.
        by erewrite _descText_miss_node by done.
      * rewrite new_static_symbolizer by exact Hs.
        by erewrite _descText_miss_node by done.
    + intros this g textContent. split; [apply _descText_node|].
      unfold _descText, _loadFromCache, _storeToCache, layout.
      destruct (_dynamic this); [done|].
      destruct (text_symbol_cache g) as [cache|]; simpl; [|done].
      by destruct (cache !! cache_key_name this).
  - intros Hd is_node. unfold new_TextMarkerSymbolizer. rewrite Hd.
    rewrite _descText_dynamic by done. eexists. split_and!; [done..|].
    intros g textContent. by rewrite _descText_dynamic.
Qed.
End with_collaborators.

End text_facts.

(** * Facts about the image marker symbolizer *)

Section image_facts.
Import ImageMarker.

Lemma below_one_lt (opacity : Q) :
  (opacity < 1)%Q → below_one (Some opacity) = Some opacity.
Proof.
  intros Hlt. unfold below_one. destruct (Qle_bool 1 opacity) eqn:E; [|done].
  apply Qle_bool_iff in E. by apply Qlt_not_le in Hlt.
Qed.

Lemma foldl_apply_transform (ops : list TransformOp) : ∀ ctx,
  foldl apply_transform ctx ops
  = mkContext2D (globalAlpha ctx) (transform ctx ++ ops) (saved ctx) (drawn ctx).
Proof.
  induction ops as [|op ops IH]; intros ctx; simpl.
  - rewrite app_nil_r. by destruct ctx.
  - rewrite IH. simpl. by rewrite <- app_assoc.
Qed.

Section with_collaborators.
Variable _prepareContext : Context2D → Context2D.
Variable cookedPoints : list Point.
Variable _getRotationAt : nat → option Q.
Variable getImage : ResourceKey → option Image.
Variable isResourceLoaded : ResourceKey → bool.
Variable isSpriting : bool.
Variable phantomjs : bool.
Variable rotated_frame : Symbolizer → Point → Q → list TransformOp * Point.

(** The loop gives every point one blit, in the order of the points, with
    the alpha it starts with, and leaves the drawing state as it found it:
    what [_rotate] saves, [restore] brings back. *)
Lemma draw_points_blits this width height points : ∀ ctx i,
  draw_points _getRotationAt rotated_frame this ctx width height i points
  = mkContext2D (globalAlpha ctx) (transform ctx) (saved ctx)
      (drawn ctx
       ++ imap (λ k p, point_blit (rotated_frame this) (transform ctx)
                         (globalAlpha ctx) (width, height)
                         (_getRotationAt (i + k)) p) points).
Proof.
  induction points as [|p points IH]; intros ctx i.
  { simpl. rewrite app_nil_r. by destruct ctx. }
  cbn [draw_points imap]. rewrite Nat.add_0_r. unfold _rotate.
  destruct (_getRotationAt i) as [r|].
  - rewrite foldl_apply_transform. cbn -[imap point_blit]. rewrite IH.
    cbn -[imap point_blit]. rewrite <- app_assoc. cbn -[imap point_blit].
    do 3 f_equal. apply imap_ext. intros k q _. simpl. by rewrite Nat.add_succ_r.
  - cbn -[imap point_blit]. rewrite IH.
    cbn -[imap point_blit]. rewrite <- app_assoc. cbn -[imap point_blit].
    do 3 f_equal. apply imap_ext. intros k q _. simpl. by rewrite Nat.add_succ_r.
Qed.

Lemma point_blit_alpha frame base alpha size rotation p :
  blit_alpha (point_blit frame base alpha size rotation p) = alpha.
Proof. by destruct rotation. Qed.

Abbreviation run_symbolize :=
  (symbolize _prepareContext cookedPoints _getRotationAt getImage
             isResourceLoaded isSpriting phantomjs rotated_frame).

(** What [symbolize] does once it has the image, whatever the marker. *)
Lemma symbolize_image (this : Symbolizer) (ctx : Context2D) (img : Image) :
  image_to_draw getImage cookedPoints (style this) = Some img →
  let base := _prepareContext ctx in
  let size := draw_size (style this) img in
  let key := (markerFile (style this), Some (img_width img),
              Some (img_height img)) in
  let settled :=
    match markerWidth (style this), markerHeight (style this) with
    | Some _, Some _ => (this, [])
    | _, _ =>
      (mkSymbolizer (markerType this)
         (set_size (style this) (img_width img) (img_height img)),
       (if isResourceLoaded key then [] else [AddResource key])
         ++ (if isSpriting then [] else [RemoveCache]))
    end in
  run_symbolize this ctx
  = Return
      (settled.1,
       mkContext2D (globalAlpha base) (transform base) (saved base)
         (drawn base
          ++ imap (λ i p, point_blit (rotated_frame settled.1) (transform base)
                            (draw_alpha this (globalAlpha base)) size
                            (_getRotationAt i) p)
                  cookedPoints),
       settled.2).
Proof.
  unfold image_to_draw, symbolize.
  destruct (_ || _); [done|].
  destruct cookedPoints as [|p points] eqn:Hpoints; [done|].
  rewrite bool_decide_false by done. rewrite <- Hpoints. clear Hpoints.
  intros ->. cbv zeta.
  set (base := _prepareContext ctx).
  assert (∀ this1 width height (effects : list Effect),
    markerType this1 = markerType this →
    markerOpacity (style this1) = markerOpacity (style this) →
    (let '(alpha, ctx) :=
       if negb (is_path (markerType this1)) then
         match below_one (markerOpacity (style this1)) with
         | Some opacity =>
           (Some (globalAlpha base),
            set_globalAlpha base (globalAlpha base * opacity)%Q)
         | None => (None, base)
         end
       else (None, base) in
     let ctx := draw_points _getRotationAt rotated_frame this1 ctx width height
                  0 cookedPoints in
     let ctx := match alpha with
                | Some a => set_globalAlpha ctx a
                | None => ctx
                end in
     Return (this1, ctx, effects))
    = Return
        (this1,
         mkContext2D (globalAlpha base) (transform base) (saved base)
           (drawn base
            ++ imap (λ i p, point_blit (rotated_frame this1) (transform base)
                              (draw_alpha this (globalAlpha base))
                              (width, height) (_getRotationAt i) p)
                    cookedPoints),
         effects)) as Hblock.
  { intros this1 width height effects Ht Ho.
    unfold draw_alpha. rewrite Ht, Ho.
    destruct (is_path (markerType this)); cbn -[imap point_blit].
    - rewrite draw_points_blits. by destruct base.
    - destruct (below_one (markerOpacity (style this))) as [opacity|];
        cbn -[imap point_blit]; rewrite draw_points_blits; [done|].
      by destruct base. }
  unfold draw_size.
  destruct (markerWidth (style this)) as [width|],
           (markerHeight (style this)) as [height|]; by apply Hblock.
Qed.

(** What [symbolize] does without an image to draw. *)
Lemma symbolize_no_image (this : Symbolizer) (ctx : Context2D) :
  image_to_draw getImage cookedPoints (style this) = None →
  (state_of (run_symbolize this ctx)).1 = (this, ctx).
Proof.
  unfold image_to_draw, symbolize.
  destruct (_ || _); [done|].
  destruct cookedPoints as [|p points] eqn:Hpoints; [done|].
  rewrite bool_decide_false by done. intros ->.
  destruct phantomjs; [done|]. by case_bool_decide.
Qed.

(** C9. A marker whose type is not 'path' and whose opacity is a number
    below 1. When [symbolize] has nothing to draw (a size or the opacity is
    0, no point, no image) it leaves the context as it was. Otherwise it
    calls [_prepareContext], multiplies the [globalAlpha] that left by the
    opacity, draws every point at that alpha, and sets [globalAlpha] back to
    the value it read before scaling, which is the one [_prepareContext]
    left; the transform and the save stack are as [_prepareContext] left
    them too. So [globalAlpha] is after the call what it was before it
    whenever [_prepareContext] leaves it alone. *)
Theorem symbolize_restores_globalAlpha (this : Symbolizer) (ctx : Context2D)
    (opacity : Q) :
  is_path (markerType this) = false →
  markerOpacity (style this) = Some opacity →
  (opacity < 1)%Q →
  let ctx' := (state_of (run_symbolize this ctx)).1.2 in
  match image_to_draw getImage cookedPoints (style this) with
  | None => ctx' = ctx
  | Some img =>
    returns (run_symbolize this ctx) = true
    ∧ globalAlpha ctx' = globalAlpha (_prepareContext ctx)
    ∧ transform ctx' = transform (_prepareContext ctx)
    ∧ saved ctx' = saved (_prepareContext ctx)
    ∧ (∃ blits,
         drawn ctx' = drawn (_prepareContext ctx) ++ blits
         ∧ length blits = length cookedPoints
         ∧ Forall (λ b, blit_alpha b
                        = (globalAlpha (_prepareContext ctx) * opacity)%Q)
                  blits)
  end
  ∧ (globalAlpha (_prepareContext ctx) = globalAlpha ctx →
     globalAlpha ctx' = globalAlpha ctx).
Proof.
  intros Hpath Hop Hlt ctx'. subst ctx'.
  destruct (image_to_draw getImage cookedPoints (style this)) as [img|] eqn:Himg.
  - rewrite (symbolize_image this ctx img Himg). cbn [state_of returns fst snd].
    cbn [globalAlpha transform saved drawn].
    split; [|done]. split_and!; [done..|].
    eexists. split; [done|]. split; [by rewrite length_imap|].
    apply Forall_forall. intros b Hb.
    apply list_elem_of_lookup_1 in Hb as [k Hk].
    rewrite list_lookup_imap in Hk.
    destruct (cookedPoints !! k) as [q|]; simpl in Hk; [|done].
    injection Hk as <-. rewrite point_blit_alpha.
    unfold draw_alpha. by rewrite Hpath, Hop, below_one_lt.
  - pose proof (symbolize_no_image this ctx Himg) as Hrun.
    assert ((state_of (run_symbolize this ctx)).1.2 = ctx) as ->
      by by rewrite Hrun.
    done.
Qed.
End with_collaborators.

End image_facts.

(** * Further facts about the overlay layer *)

Section overlay_store_facts.
Import Overlay.

(** ** Searching and removing *)

(** Whatever the order of the sequence, the search answers -1 or an index
    at which the geometry is. *)
Lemma _findInList_loop_sound w geo : ∀ fuel low high,
  (0 ≤ low)%Z →
  _findInList_loop fuel w geo low high = (-1)%Z
  ∨ ∃ i, _findInList_loop fuel w geo low high = Z.of_nat i
         ∧ _geoList w !! i = Some geo.
Proof.
  induction fuel as [|fuel IH]; intros low high Hlow; [by left|].
  simpl. destruct (Z.leb_spec low high) as [Hle|]; [|by left].
  pose proof (middle_bounds low high Hle) as Hmid.
  destruct (_geoList w !! Z.to_nat ((low + high) / 2)) as [m|] eqn:Hm; [|by left].
  case_bool_decide as Heq.
  - right. exists (Z.to_nat ((low + high) / 2)). subst m. split; [lia|done].
  - destruct (is_positive (_compare w m geo)); apply IH; lia.
Qed.

(** X1. [_findInList] answers -1 or an index of the sequence that holds the
    geometry looked for, whatever the order of the sequence; on a sequence
    in draw order it answers the index of every geometry that is listed;
    for a geometry that is not listed it answers -1. *)
Theorem _findInList_index w geo :
  (_findInList w geo = (-1)%Z
   ∨ ∃ i, _findInList w geo = Z.of_nat i ∧ _geoList w !! i = Some geo)
  ∧ (StronglySorted (geo_lt w) (_geoList w) →
     ∀ i, _geoList w !! i = Some geo → _findInList w geo = Z.of_nat i)
  ∧ (geo ∉ _geoList w → _findInList w geo = (-1)%Z).
Proof.
  assert (_findInList w geo = (-1)%Z
          ∨ ∃ i, _findInList w geo = Z.of_nat i ∧ _geoList w !! i = Some geo) as Hs.
  { unfold _findInList. case_bool_decide; [by left|].
    by apply _findInList_loop_sound. }
  split_and!; [done| |].
  - intros Hsorted i Hi. by apply _findInList_finds.
  - intros Hnot. destruct Hs as [?|(i & _ & Hi)]; [done|].
    by apply list_elem_of_lookup_2 in Hi.
Qed.

Lemma StronglySorted_NoDup w l : StronglySorted (geo_lt w) l → NoDup l.
Proof.
  induction 1 as [|x l Hl IH Hx]; constructor; [|done].
  intros Hin. rewrite Forall_forall in Hx. by apply Hx, geo_lt_irrefl in Hin.
Qed.

Lemma sublist_delete {A} (l : list A) i : sublist (delete i l) l.
Proof.
  revert i. induction l as [|x l IH]; intros [|i]; simpl;
    [done|done|by apply sublist_cons|by apply sublist_skip].
Qed.

(** X2. On a store in draw order, [onRemoveGeometry] of a listed geometry
    that is bound to the layer takes exactly that geometry out of the
    sequence, deletes its id (and no other) from the id map, leaves the
    sequence in draw order and tells the renderer once. *)
Theorem onRemoveGeometry_listed w geo i n :
  _clearing w = false →
  getLayer w geo = Some (layer_self w) →
  _getInternalId w geo = Some n →
  StronglySorted (geo_lt w) (_geoList w) →
  _geoList w !! i = Some geo →
  let w' := onRemoveGeometry w (Some geo) in
  _geoList w' = delete i (_geoList w)
  ∧ (geo ∉ _geoList w')
  ∧ (∀ g, g ≠ geo → g ∈ _geoList w → g ∈ _geoList w')
  ∧ _geoMap w' = match getId w geo with
                 | Some x => delete x (_geoMap w)
                 | None => _geoMap w
                 end
  ∧ StronglySorted (geo_lt w') (_geoList w')
  ∧ events w' = events w ++ (if has_renderer w
                             then [RendererGeometryRemove [geo]] else []).
Proof.
  intros Hc Hl Hn Hs Hi w'.
  destruct (onRemoveGeometry_sorted w geo i n Hc Hl Hn Hs Hi) as [El Hnot].
  fold w' in El, Hnot.
  assert (heap w' = heap w ∧ has_renderer w' = has_renderer w
          ∧ _geoMap w' = match getId w geo with
                         | Some x => delete x (_geoMap w)
                         | None => _geoMap w
                         end
          ∧ events w' = events w ++ (if has_renderer w
                                     then [RendererGeometryRemove [geo]] else []))
    as (Hh & _ & Hm & He).
  { subst w'. unfold onRemoveGeometry.
    rewrite Hc, Hl, bool_decide_true, Hn by done. simpl.
    destruct (getId w geo), (0 <=? _)%Z, (has_renderer w) eqn:Hr; simpl;
      rewrite ?Hr; simpl; rewrite ?app_nil_r; done. }
  split_and!; try done.
  - intros g Hg Hin. rewrite El.
    apply list_elem_of_lookup_1 in Hin as [j Hj].
    assert (j ≠ i) by (intros ->; congruence).
    destruct (decide (j < i)%nat).
    + apply (list_elem_of_lookup_2 _ j). rewrite list_lookup_delete.
      by rewrite decide_True by lia.
    + apply (list_elem_of_lookup_2 _ (j - 1)). rewrite list_lookup_delete.
      rewrite decide_False by lia. by replace (S (j - 1)) with j by lia.
  - rewrite El. eapply StronglySorted_sublist; [apply sublist_delete|].
    clear -Hs Hh. induction Hs as [|x l Hs' IH Hx]; constructor; [done|].
    eapply Forall_impl; [exact Hx|]. intros y Hy.
    unfold geo_lt, getZIndex, _getInternalId, deref in *. by rewrite Hh.
Qed.

(** The loop over entries that resolve to nothing of this layer. *)
Lemma removeGeometry_loop_foreign w : ∀ backwards,
  (∀ t, t ∈ backwards → foreign w t) →
  removeGeometry_loop w backwards
  = Return (w, reverse (resolved_geometry w <$> backwards)).
Proof.
  induction backwards as [|t rest IH]; intros H; [done|].
  cbn [removeGeometry_loop].
  pose proof (H t (list_elem_of_here _ _)) as Ht.
  assert (match t with
          | ByRef geo => Some (Geo geo)
          | ById id => getGeometryById w id
          end = resolve_target w t) as -> by by destruct t.
  rewrite fmap_cons, reverse_cons. unfold foreign in Ht.
  unfold resolved_geometry at 2.
  destruct (resolve_target w t) as [[geo|name]|] eqn:Hr; [|done|].
  - rewrite bool_decide_false by done.
    by rewrite IH by (intros; apply H; by apply list_elem_of_further).
  - by rewrite IH by (intros; apply H; by apply list_elem_of_further).
Qed.

(** The loop stops at the first entry it meets that resolves to a member
    of Object.prototype. *)
Lemma removeGeometry_loop_inherited w t name rest : ∀ backwards,
  (∀ t', t' ∈ backwards → foreign w t') →
  resolve_target w t = Some (Proto name) →
  removeGeometry_loop w (backwards ++ t :: rest) = Throw TypeError (w, []).
Proof.
  induction backwards as [|t' backwards IH]; intros H Ht.
  - cbn [app removeGeometry_loop].
    assert (match t with
            | ByRef geo => Some (Geo geo)
            | ById id => getGeometryById w id
            end = resolve_target w t) as -> by by destruct t.
    by rewrite Ht.
  - cbn [app removeGeometry_loop].
    pose proof (H t' (list_elem_of_here _ _)) as Ht'.
    assert (match t' with
            | ByRef geo => Some (Geo geo)
            | ById id => getGeometryById w id
            end = resolve_target w t') as -> by by destruct t'.
    unfold foreign in Ht'.
    destruct (resolve_target w t') as [[geo|name']|] eqn:Hr; [|done|].
    + rewrite bool_decide_false by done.
      by rewrite IH by (try done; intros; apply H; by apply list_elem_of_further).
    + by rewrite IH by (try done; intros; apply H; by apply list_elem_of_further).
Qed.

(** X3. [removeGeometry] removes nothing when every entry of the array is
    an id under which the id map holds nothing or a geometry that is not
    bound to this layer: it returns with the store as it was, and the only
    effect is the [removegeo] event, which carries the entries as they were
    resolved, in the order given. When the entries are such from some entry
    on, and the entry before them is an id that names a member of
    Object.prototype and no geometry, [removeGeometry] raises a TypeError
    on the call of that member's [getLayer], with the store as it was and
    no event. *)
Theorem removeGeometry_foreign w targets :
  ((∀ t, t ∈ targets → foreign w t) →
   removeGeometry w targets
   = Return (emit w (LayerRemoveGeo (resolved_geometry w <$> targets))))
  ∧ (∀ before t after name,
       targets = before ++ t :: after →
       (∀ t', t' ∈ after → foreign w t') →
       resolve_target w t = Some (Proto name) →
       removeGeometry w targets = Throw TypeError w).
Proof.
  split.
  - intros H. unfold removeGeometry.
    rewrite removeGeometry_loop_foreign.
    + by rewrite fmap_reverse, reverse_involutive.
    + intros t Ht. apply H. by apply elem_of_reverse.
  - intros before t after name -> H Ht. unfold removeGeometry.
    rewrite reverse_app, reverse_cons, <- app_assoc. cbn [app].
    rewrite (removeGeometry_loop_inherited w t name); [done| |done].
    intros t' Ht'. apply H. by apply elem_of_reverse.
Qed.

(** ** clear *)

(** A callback that does not look at the index runs over the snapshot as a
    fold. *)
Lemma forEach_loop_foldl (f : World → nat → World) copyOnWrite : ∀ turns i st,
  (i + turns = length copyOnWrite)%nat →
  (forEach_loop (λ geo _ w, f w geo) copyOnWrite i turns st).1
  = foldl f st.1 (drop i copyOnWrite).
Proof.
  induction turns as [|turns IH]; intros i st Hlen.
  - simpl. by rewrite drop_ge by lia.
  - simpl. destruct (copyOnWrite !! i) as [geo|] eqn:Hi.
    + rewrite IH by lia. simpl.
      by rewrite (drop_S _ _ _ Hi).
    + apply lookup_ge_None in Hi. lia.
Qed.

Lemma Geometry_remove_clearing w geo :
  _clearing w = true →
  _geoList (Geometry_remove w geo) = _geoList w
  ∧ _geoMap (Geometry_remove w geo) = _geoMap w
  ∧ events (Geometry_remove w geo) = events w
  ∧ has_renderer (Geometry_remove w geo) = has_renderer w
  ∧ _clearing (Geometry_remove w geo) = true.
Proof.
  intros Hc. unfold Geometry_remove, onRemoveGeometry.
  destruct (getLayer w geo); rewrite ?Hc; done.
Qed.

Lemma onRemoveGeometry_heap w geometry :
  heap (onRemoveGeometry w geometry) = heap w.
Proof. unfold onRemoveGeometry. by repeat case_match. Qed.

Lemma Geometry_remove_getLayer w g geo :
  getLayer (Geometry_remove w g) geo
  = if decide (geo = g) then None else getLayer w geo.
Proof.
  unfold Geometry_remove. destruct (getLayer w g) eqn:Hg.
  - unfold getLayer, deref. cbn [heap with_heap]. case_decide as Heq.
    + subst. by rewrite lookup_total_insert_eq.
    + rewrite lookup_total_insert_ne by done.
      by rewrite onRemoveGeometry_heap.
  - case_decide; by subst.
Qed.

Lemma foldl_Geometry_remove l : ∀ w,
  _clearing w = true →
  let w' := foldl Geometry_remove w l in
  _geoList w' = _geoList w ∧ _geoMap w' = _geoMap w ∧ events w' = events w
  ∧ has_renderer w' = has_renderer w
  ∧ ∀ geo, getLayer w geo = None ∨ geo ∈ l → getLayer w' geo = None.
Proof.
  induction l as [|g l IH]; intros w Hc; simpl.
  { split_and!; try done. intros geo [?|Hin]; [done|]. by apply elem_of_nil in Hin. }
  destruct (Geometry_remove_clearing w g Hc) as (Hl & Hm & He & Hr & Hc').
  destruct (IH _ Hc') as (Hl' & Hm' & He' & Hr' & Hu).
  split_and!; try congruence.
  intros geo Hgeo. apply Hu. rewrite Geometry_remove_getLayer.
  case_decide; [by left|].
  destruct Hgeo as [?|Hin]; [by left|right].
  by apply elem_of_cons in Hin as [?|?].
Qed.

(** X4. [clear] leaves an empty store: no geometry in the sequence, no id
    in the id map (a lookup by id answers no geometry: null, or the member
    of Object.prototype the id names), the clearing flag down again. The
    renderer, when there is one, is told once, with all the
    geometries the sequence held, in their order, and [clear] is fired
    last; no geometry tells the layer one by one. The geometries that were
    listed are bound to no layer afterwards. *)
Theorem clear_empties w :
  let w' := clear w in
  _geoList w' = [] ∧ _geoMap w' = ∅ ∧ _clearing w' = false
  ∧ getCount w' = 0%nat
  ∧ (∀ id, getGeometryById w' id
           = if isNil_id id || is_empty_string id then None
             else if inherited (key_of id) then Some (Proto (key_of id))
             else None)
  ∧ events w' = events w
       ++ (if has_renderer w then [RendererGeometryRemove (_geoList w)] else [])
       ++ [LayerClear]
  ∧ (∀ geo, geo ∈ _geoList w → getLayer w' geo = None).
Proof.
  intros w'.
  pose (w2 := (forEach (λ geo _ w0, Geometry_remove w0 geo) (with_clearing w true)).1).
  assert (w2 = foldl Geometry_remove (with_clearing w true) (_geoList w)) as E2.
  { unfold w2, forEach.
    by rewrite (forEach_loop_foldl Geometry_remove) by (simpl; lia). }
  destruct (foldl_Geometry_remove (_geoList w) (with_clearing w true) eq_refl)
    as (Hl & Hm & He & Hr & Hu).
  rewrite <- E2 in Hl, Hm, He, Hr, Hu. simpl in Hl, Hm, He, Hr.
  assert (w' = emit (with_clearing
            (let w4 := with_geoList (with_geoMap w2 ∅) [] in
             if has_renderer w4
             then emit w4 (RendererGeometryRemove (_geoList w2)) else w4) false)
            LayerClear) as E by done.
  assert (_geoMap w' = ∅) as Hmap.
  { rewrite E. simpl. by destruct (has_renderer w2). }
  split_and!.
  - rewrite E. simpl. by destruct (has_renderer w2).
  - done.
  - by rewrite E.
  - rewrite E. unfold getCount. simpl. by destruct (has_renderer w2).
  - intros id. rewrite getGeometryById_get. unfold _geoMap_get.
    by rewrite Hmap, lookup_empty.
  - rewrite E. simpl. rewrite Hr, Hl.
    destruct (has_renderer w); simpl; by rewrite He, ?app_nil_r, <- ?app_assoc.
  - intros geo Hin. rewrite E. unfold getLayer, deref. simpl.
    specialize (Hu geo (or_intror Hin)). unfold getLayer, deref in Hu.
    by destruct (has_renderer w2).
Qed.

(** ** addGeometry and the id map *)

Lemma addGeometry_step_unregistered w i geo w' k :
  addGeometry_step w i (Some geo) = Return w' →
  getId w geo = Some k → _geoMap w !! k = None ∧ inherited k = false.
Proof.
  rewrite addGeometry_step_Some. intros H Hk. rewrite Hk in H.
  case_bool_decide as Hreg; [done|]. apply _geoMap_get_None.
  destruct (_geoMap_get w k) eqn:E; [|done]. by destruct Hreg.
Qed.

Lemma addGeometry_loop_registers entries : ∀ w i w',
  addGeometry_loop w i entries = Return w' →
  (∀ r, getId w' r = getId w r)
  ∧ (∀ k g, _geoMap w !! k = Some g → _geoMap w' !! k = Some g)
  ∧ (∀ geo k, geo ∈ refs_of entries → getId w geo = Some k →
              _geoMap w' !! k = Some geo)
  ∧ (∀ k g, _geoMap w' !! k = Some g →
            _geoMap w !! k = Some g
            ∨ (g ∈ refs_of entries ∧ getId w g = Some k ∧ inherited k = false)).
Proof.
  induction entries as [|e entries IH]; intros w i w'; simpl.
  { intros [= ->]. split_and!; try done; [|by left].
    intros geo k Hin. by apply elem_of_nil in Hin. }
  destruct (addGeometry_step w i e) as [w1|msg w1] eqn:Hstep; simpl; [|done].
  intros Hloop.
  destruct (addGeometry_step_Return _ _ _ _ Hstep) as (geo & -> & _).
  pose proof (addGeometry_step_geoMap _ _ _ _ Hstep) as Hmap.
  pose proof (λ k, addGeometry_step_unregistered _ _ _ _ k Hstep) as Hfree.
  destruct (addGeometry_step_fields _ _ _ _ Hstep) as (_ & _ & _ & Hid1 & _).
  destruct (IH _ _ _ Hloop) as (Hid & Hkeep & Hnew & Hold).
  assert (∀ k g, _geoMap w !! k = Some g → _geoMap w1 !! k = Some g) as Hkeep1.
  { intros k g Hk. rewrite Hmap. destruct (getId w geo) as [k0|] eqn:Hk0; [|done].
    rewrite lookup_insert_ne; [done|]. intros ->.
    rewrite (proj1 (Hfree _ eq_refl)) in Hk; done. }
  unfold refs_of in *. simpl. split_and!.
  - intros r. by rewrite Hid, Hid1.
  - intros k g Hk. by apply Hkeep, Hkeep1.
  - intros g k Hin Hk. apply elem_of_cons in Hin as [->|Hin].
    + apply Hkeep. rewrite Hmap, Hk. by rewrite lookup_insert_eq.
    + apply Hnew; [done|]. by rewrite Hid1.
  - intros k g Hk. destruct (Hold _ _ Hk) as [Hk1|(Hin & Hg & Hown)].
    + rewrite Hmap in Hk1. destruct (getId w geo) as [k0|] eqn:Hk0; [|by left].
      destruct (decide (k0 = k)) as [->|Hne].
      * rewrite lookup_insert_eq in Hk1. simplify_eq. right.
        split; [left|]. split; [done|]. by apply (Hfree k).
      * rewrite lookup_insert_ne in Hk1 by done. by left.
    + right. split; [by right|]. by rewrite <- Hid1.
Qed.

Lemma addGeometry_Return w geometries w' :
  addGeometry w geometries = Return w' →
  ∃ w1, addGeometry_loop w 0 geometries = Return w1
        ∧ _geoMap w' = _geoMap w1 ∧ _geoList w' ≡ₚ _geoList w1.
Proof.
  intros Hadd.
  destruct (addGeometry_Return_cases _ _ _ Hadd)
    as [[-> ->]|(w1 & _ & Hloop & _ & ->)].
  { by exists w. }
  exists w1. split; [done|].
  unfold _sortGeometries. destruct (has_map w); simpl;
    by rewrite ?array_sort_Permutation.
Qed.

(** X5. Adding and looking up. When [addGeometry] returns, every geometry
    of the array that has a (non-empty) id is what [getGeometryById]
    answers for that id, every id answers what it answered before, a
    geometry that an id answers was answered before or is a geometry of the
    array whose id it is, and the sequence has grown by the geometries of
    the array: the count by their number. *)
Theorem addGeometry_registers w geometries w' :
  addGeometry w geometries = Return w' →
  (∀ geo k, Some geo ∈ geometries → getId w geo = Some k → k ≠ "" →
            getGeometryById w' (IdKey k) = Some (Geo geo))
  ∧ (∀ id v, getGeometryById w id = Some v → getGeometryById w' id = Some v)
  ∧ (∀ id g, getGeometryById w' id = Some (Geo g) →
             getGeometryById w id = Some (Geo g)
             ∨ (Some g ∈ geometries ∧ getId w g = Some (key_of id)))
  ∧ (∀ id name, getGeometryById w' id = Some (Proto name) →
                getGeometryById w id = Some (Proto name))
  ∧ _geoList w' ≡ₚ _geoList w ++ refs_of geometries
  ∧ getCount w' = (getCount w + length geometries)%nat.
Proof.
  intros Hadd.
  destruct (addGeometry_Return _ _ _ Hadd) as (w1 & Hloop & Hm & Hp).
  destruct (addGeometry_loop_Return _ _ _ _ Hloop) as (Hes & Hl & _).
  destruct (addGeometry_loop_registers _ _ _ _ Hloop) as (_ & Hkeep & Hnew & Hold).
  assert (∀ g, g ∈ refs_of geometries ↔ Some g ∈ geometries) as Hrefs.
  { intros g. unfold refs_of. rewrite list_elem_of_omap. split.
    - intros (x & Hin & Hx). destruct x; simpl in Hx; simplify_eq. exact Hin.
    - intros Hin. by exists (Some g). }
  rewrite <- Hm in Hkeep, Hnew, Hold.
  split_and!.
  - intros geo k Hin Hk Hne. rewrite getGeometryById_get. simpl.
    rewrite bool_decide_false by done. apply _geoMap_get_Geo.
    apply Hnew; [by apply Hrefs|done].
  - intros id v. rewrite !getGeometryById_get.
    destruct (isNil_id id || is_empty_string id); [done|].
    destruct v as [g|name].
    + rewrite !_geoMap_get_Geo. apply Hkeep.
    + rewrite !_geoMap_get_Proto. intros (Hnone & Hin & ->).
      split; [|done].
      destruct (_geoMap w' !! key_of id) as [g|] eqn:Hk; [|done].
      destruct (Hold _ _ Hk) as [?|(_ & _ & ?)]; congruence.
  - intros id g. rewrite !getGeometryById_get.
    destruct (isNil_id id || is_empty_string id); [done|].
    rewrite !_geoMap_get_Geo. intros Hk.
    destruct (Hold _ _ Hk) as [?|(Hin & Hid & _)]; [by left|right].
    split; [by apply Hrefs|done].
  - intros id name. rewrite !getGeometryById_get.
    destruct (isNil_id id || is_empty_string id); [done|].
    rewrite !_geoMap_get_Proto. intros (Hnone & Hin & ->).
    split; [|done].
    destruct (_geoMap w !! key_of id) as [g|] eqn:Hk; [|done].
    by rewrite (Hkeep _ _ Hk) in Hnone.
  - by rewrite Hp, Hl.
  - unfold getCount. rewrite Hp, Hl, length_app. f_equal.
    rewrite Hes at 2. by rewrite length_fmap.
Qed.

(** ** Notifications of addGeometry *)

Lemma addGeometry_loop_events entries : ∀ w i w',
  addGeometry_loop w i entries = Return w' →
  events w' = events w ++ (GeometryAdd <$> refs_of entries).
Proof.
  induction entries as [|e entries IH]; intros w i w'; simpl.
  { intros [= ->]. by rewrite app_nil_r. }
  destruct (addGeometry_step w i e) as [w1|msg w1] eqn:Hstep; simpl; [|done].
  intros Hloop.
  destruct (addGeometry_step_Return _ _ _ _ Hstep) as (geo & -> & _).
  assert (events w1 = events w ++ [GeometryAdd geo]) as He.
  { rewrite addGeometry_step_Some in Hstep.
    destruct (getId w geo); [case_bool_decide; [done|]|];
      by injection Hstep as <-. }
  rewrite (IH _ _ _ Hloop), He, <- app_assoc. done.
Qed.

(** X6. An array of geometries (no null entry) whose ids are pairwise
    different, not registered in the layer and no names of members of
    Object.prototype, is accepted by a layer that is on no map or has its
    renderer: [addGeometry] returns; each geometry has fired its [add]
    event, in the order of the array, then the renderer was told once if
    the layer is on a map, and [addgeo] was fired once, last. On a map and
    without a renderer [addGeometry] raises a TypeError instead, on the
    call of the renderer's [onGeometryAdd], after the [add] events and
    without [addgeo]. *)
Theorem addGeometry_accepts w geometries :
  geometries ≠ [] →
  Forall is_Some geometries →
  NoDup (omap (getId w) (refs_of geometries)) →
  (∀ k, k ∈ omap (getId w) (refs_of geometries) → _geoMap_get w k = None) →
  if has_map w && negb (has_renderer w)
  then ∃ w', addGeometry w geometries = Throw TypeError w'
             ∧ events w' = events w ++ (GeometryAdd <$> refs_of geometries)
  else ∃ w', addGeometry w geometries = Return w'
             ∧ events w' = events w ++ (GeometryAdd <$> refs_of geometries)
                  ++ (if has_map w then [RendererGeometryAdd geometries] else [])
                  ++ [LayerAddGeo geometries].
Proof.
  intros Hne Hsome Hnd Hfree.
  destruct (addGeometry_loop_returns (getId w) geometries w 0) as [w1 Hloop];
    [done..|].
  pose proof (addGeometry_loop_events _ _ _ _ Hloop) as He.
  rewrite (addGeometry_after_loop w geometries w1 Hne Hloop).
  assert (events (_sortGeometries w1) = events w1) as Hs.
  { unfold _sortGeometries. by destruct (has_map w1). }
  destruct (has_map w), (has_renderer w); cbn [andb negb];
    eexists; (split; [done|]); cbn [events emit]; rewrite ?Hs, He;
    by rewrite <- ?app_assoc.
Qed.

(** ** Reactions to the events of a geometry *)

(** X7. After a [zindexchange] event whose old and new values differ, the
    sequence is in draw order again, with the same geometries, whatever its
    order was, provided the listed geometries are distinct objects with
    pairwise different internal ids; the renderer is told when there is
    one. With equal old and new values nothing happens. *)
Theorem _onGeometryZIndexChange_sorts w old new :
  NoDup (_geoList w) →
  (∀ a, a ∈ _geoList w → is_Some (_getInternalId w a)) →
  (∀ a b, a ∈ _geoList w → b ∈ _geoList w → a ≠ b →
          _getInternalId w a ≠ _getInternalId w b) →
  let w' := (_onGeometryZIndexChange w old new).1 in
  (old ≠ new →
     StronglySorted (geo_lt w') (_geoList w')
     ∧ _geoList w' ≡ₚ _geoList w
     ∧ _geoMap w' = _geoMap w
     ∧ (_onGeometryZIndexChange w old new).2 = has_renderer w)
  ∧ (old = new → _onGeometryZIndexChange w old new = (w, false)).
Proof.
  intros Hnd Hsome Hdiff w'. subst w'. unfold _onGeometryZIndexChange. split.
  - intros Hne. rewrite bool_decide_true by done. cbn [fst snd].
    split_and!; try done.
    + change (StronglySorted (geo_lt w) (array_sort (_compare w) (_geoList w))).
      apply (array_sort_sorted (_compare w) (geo_lt w)).
      apply StronglySorted_pairwise; [done|].
      intros a b Ha Hb Hab.
      destruct (Hsome a Ha) as [m Hm], (Hsome b Hb) as [n Hn].
      apply (_compare_agrees w a b m n Hm Hn).
      intros ->. apply (Hdiff a b Ha Hb Hab). congruence.
    + apply array_sort_Permutation.
  - intros ->. by rewrite bool_decide_false by (by intros ?).
Qed.

(** X8. Renaming. An [idchange] event to a new id (not null or undefined)
    under which the read of the id map finds nothing (no geometry and no
    member of Object.prototype) and which is another key than the old id
    registers the geometry under the new id and drops the old id; every
    other id answers as before and the sequence is untouched. *)
Theorem _onGeometryIdChange_renames w old new target :
  isNil_idvalue new = false →
  (isNil_idvalue old = false → idvalue_key new ≠ idvalue_key old) →
  _geoMap_get w (idvalue_key new) = None →
  ∃ w', _onGeometryIdChange w old new target = Return w'
    ∧ _geoMap w' !! idvalue_key new = Some target
    ∧ (isNil_idvalue old = false → _geoMap w' !! idvalue_key old = None)
    ∧ (∀ k, k ≠ idvalue_key new →
            (isNil_idvalue old = true ∨ k ≠ idvalue_key old) →
            _geoMap w' !! k = _geoMap w !! k)
    ∧ _geoList w' = _geoList w.
Proof.
  intros Hnew Hkeys Hfree. unfold _onGeometryIdChange.
  assert (new ≠ old) as Hne.
  { intros ->. destruct (isNil_idvalue old) eqn:E; [done|]. by apply Hkeys. }
  rewrite (bool_decide_false (new = old)) by done. cbn [andb].
  rewrite Hnew. cbn [negb]. rewrite bool_decide_false by (rewrite Hfree; by intros [? ?]).
  apply _geoMap_get_None in Hfree as [Hfree _].
  cbn [obind]. eexists. split; [done|].
  destruct (isNil_idvalue old) eqn:Hold; cbn [negb andb]; simpl.
  - split_and!; [by rewrite lookup_insert_eq|done| |done].
    intros k Hk _. by rewrite lookup_insert_ne.
  - specialize (Hkeys eq_refl). split_and!.
    + rewrite lookup_delete_ne by done. by rewrite lookup_insert_eq.
    + intros _. by rewrite lookup_delete_eq.
    + intros k Hk [?|Hk']; [done|].
      rewrite lookup_delete_ne by done. by rewrite lookup_insert_ne.
    + done.
Qed.

(** X9. Collision. An [idchange] event to a new id (not null or undefined)
    that is registered in the id map throws "Duplicate geometry id in
    layer(..):new" and leaves the store as it was, unless the event is a
    change of an id to itself by the geometry the id is registered to; in
    particular a change between the number 1 and the string '1' of one
    geometry throws. *)
Theorem _onGeometryIdChange_collision w old new target :
  isNil_idvalue new = false →
  is_Some (_geoMap w !! idvalue_key new) →
  (new ≠ old ∨ _geoMap w !! idvalue_key old ≠ Some target) →
  _onGeometryIdChange w old new target
  = Throw (duplicate_id_change_msg w new) w.
Proof.
  intros Hnew Hreg Hcase. unfold _onGeometryIdChange.
  assert (bool_decide (new = old)
          && bool_decide (_geoMap w !! idvalue_key old = Some target) = false) as ->.
  { destruct Hcase; [rewrite (bool_decide_false (new = old)) by done; done|].
    rewrite (bool_decide_false (_ = Some target)) by done. apply andb_false_r. }
  rewrite Hnew. cbn [negb].
  by rewrite bool_decide_true by (by apply _geoMap_get_registered).
Qed.

(** ** The bottom and the top of the sequence *)

(** X10. On a store in draw order, [getFirstGeometry] answers the geometry
    drawn first (below every other listed geometry) and [getLastGeometry]
    the one drawn last (above every other one); both answer null exactly
    when the layer is empty, which is when the count is 0. *)
Theorem first_and_last_geometry w :
  StronglySorted (geo_lt w) (_geoList w) →
  (getFirstGeometry w = None ↔ isEmpty w = true)
  ∧ (getLastGeometry w = None ↔ isEmpty w = true)
  ∧ (isEmpty w = true ↔ getCount w = 0%nat)
  ∧ (∀ g, getFirstGeometry w = Some g →
          g ∈ _geoList w ∧ ∀ h, h ∈ _geoList w → h ≠ g → geo_lt w g h)
  ∧ (∀ g, getLastGeometry w = Some g →
          g ∈ _geoList w ∧ ∀ h, h ∈ _geoList w → h ≠ g → geo_lt w h g).
Proof.
  intros Hs. unfold getFirstGeometry, getLastGeometry, isEmpty, getCount.
  pose proof (StronglySorted_NoDup _ _ Hs) as Hnd.
  split_and!.
  - case_bool_decide as Hlen; [done|]. split; [|done]. intros Hnone.
    apply lookup_ge_None in Hnone. lia.
  - case_bool_decide as Hlen; [done|]. split; [|done]. intros Hnone.
    apply lookup_ge_None in Hnone. lia.
  - by rewrite bool_decide_eq_true.
  - intros g. case_bool_decide; [done|]. intros Hg.
    split; [by eapply list_elem_of_lookup_2|]. intros h Hh Hne.
    apply list_elem_of_lookup_1 in Hh as [j Hj].
    destruct j as [|j]; [congruence|].
    eapply (StronglySorted_lookup_lt _ _ 0 (S j)); [done|lia|done..].
  - intros g. case_bool_decide; [done|]. intros Hg.
    split; [by eapply list_elem_of_lookup_2|]. intros h Hh Hne.
    apply list_elem_of_lookup_1 in Hh as [j Hj].
    pose proof (lookup_lt_Some _ _ _ Hj).
    destruct (decide (j = length (_geoList w) - 1)%nat) as [->|]; [congruence|].
    eapply (StronglySorted_lookup_lt _ _ j (length (_geoList w) - 1));
      [done|lia|done..].
Qed.

(** ** identify without a positive count *)

Lemma identify_loop_visits_all ht opts candidates : ∀ r,
  (∀ l, count_reached opts l = false) →
  visited (identify_loop ht opts candidates r) = visited r ++ candidates.
Proof.
  intros r Hnever. revert r.
  induction candidates as [|geo rest IH]; intros r; [by rewrite app_nil_r|].
  destruct (identify_loop_cons ht opts geo rest r) as (r' & Hv & _ & Hcase).
  destruct (is_hit ht opts geo).
  - destruct Hcase as [_ ->]. rewrite Hnever, IH, Hv, <- app_assoc. done.
  - destruct Hcase as [_ ->]. rewrite IH, Hv, <- app_assoc. done.
Qed.

(** X11. Without a count, or with a count of 0, [identify] looks at every
    geometry of the layer and answers exactly the listed geometries that
    contain the point and pass the filter; with a negative count it answers
    the topmost hit alone. *)
Theorem identify_count_edges w ht opts :
  has_map w = true →
  ∃ r, identify w ht opts = Some r
    ∧ (options_count opts = None ∨ options_count opts = Some 0%Z →
       visited r = reverse (_geoList w)
       ∧ hits r = filter (λ g, is_hit ht opts g = true) (reverse (_geoList w))
       ∧ ∀ g, g ∈ hits r ↔ g ∈ _geoList w ∧ is_hit ht opts g = true)
    ∧ (∀ n, options_count opts = Some n → (n < 0)%Z →
       hits r = take 1 (filter (λ g, is_hit ht opts g = true)
                               (reverse (_geoList w)))).
Proof.
  intros Hmap. unfold identify. rewrite Hmap. eexists. split; [done|].
  rewrite identify_loop_hits. cbn [hits length app]. split.
  - intros Hc.
    assert (room opts 0 = None) as ->.
    { unfold room. by destruct Hc as [-> | ->]. }
    cbn [take_room]. split_and!; [|done|].
    + rewrite identify_loop_visits_all; [done|].
      intros l. unfold count_reached. by destruct Hc as [-> | ->].
    + intros g. rewrite list_elem_of_filter, elem_of_reverse. tauto.
  - intros n Hn Hneg. unfold room. rewrite Hn.
    destruct (Z.eqb_spec n 0) as [?|_]; [lia|].
    by replace (Z.to_nat (Z.max 1 (n - Z.of_nat 0))) with 1%nat by lia.
Qed.

(** ** getGeometries *)

Lemma getGeometries_loop_filter (f : nat → bool) rest : ∀ result,
  getGeometries_loop f rest result
  = result ++ filter (λ g, f g = true) rest.
Proof.
  induction rest as [|g rest IH]; intros result; simpl.
  { by rewrite app_nil_r. }
  destruct (f g) eqn:Hf.
  - rewrite IH, filter_cons_True by done. by rewrite <- app_assoc.
  - rewrite IH, filter_cons_False; [done|]. by rewrite Hf.
Qed.

(** X22. [getGeometries] answers, in the order of the sequence, the listed
    geometries the filter accepts, each as often as it is listed, and the
    whole sequence when there is no filter; on a store in draw order the
    answer is in draw order. *)
Theorem getGeometries_filtered w (f : option (nat → bool)) :
  getGeometries w f
  = filter (λ g, default (λ _, true) f g = true) (_geoList w)
  ∧ sublist (getGeometries w f) (_geoList w)
  ∧ (∀ g, g ∈ getGeometries w f
          ↔ g ∈ _geoList w ∧ default (λ _, true) f g = true)
  ∧ (StronglySorted (geo_lt w) (_geoList w) →
     StronglySorted (geo_lt w) (getGeometries w f)).
Proof.
  assert (getGeometries w f
          = filter (λ g, default (λ _, true) f g = true) (_geoList w)) as E.
  { destruct f as [f|]; simpl.
    - by rewrite getGeometries_loop_filter.
    - induction (_geoList w) as [|g l IH]; [done|].
      by rewrite filter_cons_True, <- IH. }
  split_and!; [done|..].
  - rewrite E. apply sublist_filter.
  - intros g. rewrite E, list_elem_of_filter. tauto.
  - intros Hs. rewrite E. eapply StronglySorted_sublist; [|done].
    apply sublist_filter.
Qed.

(** ** removeGeometry on geometries of the layer *)

Lemma StronglySorted_impl_in {A} (R R' : relation A) (l : list A) :
  StronglySorted R l →
  (∀ a b, a ∈ l → b ∈ l → R a b → R' a b) →
  StronglySorted R' l.
Proof.
  induction 1 as [|x l Hl IH Hx]; intros Himpl; constructor.
  - apply IH. intros a b Ha Hb. apply Himpl; by right.
  - rewrite Forall_forall in *. intros y Hy.
    apply Himpl; [left|by right|by apply Hx].
Qed.

Lemma filter_ne_delete (l : list nat) (i : nat) (g : nat) :
  NoDup l → l !! i = Some g → filter (λ x, x ≠ g) l = delete i l.
Proof.
  revert i. induction l as [|x l IH]; intros i Hnd Hi; [done|].
  apply NoDup_cons in Hnd as [Hx Hnd]. destruct i as [|i]; simpl in *.
  - simplify_eq. rewrite filter_cons_False by (by intros ?).
    clear IH Hnd. induction l as [|y l IH]; [done|].
    rewrite not_elem_of_cons in Hx. destruct Hx as [Hne Hx].
    rewrite filter_cons_True by done. by rewrite IH.
  - rewrite filter_cons_True.
    + by rewrite (IH i).
    + intros ->. apply Hx. by eapply list_elem_of_lookup_2.
Qed.

Lemma filter_all {A} (P : A → Prop) `{!∀ x, Decision (P x)} (l : list A) :
  (∀ x, x ∈ l → P x) → filter P l = l.
Proof.
  induction l as [|x l IH]; intros Hall; [done|].
  rewrite filter_cons_True by (apply Hall; left).
  rewrite IH; [done|]. intros y Hy. apply Hall. by right.
Qed.

(** What the removal of a listed, bound geometry leaves. *)
Lemma Geometry_remove_listed w g :
  _clearing w = false →
  StronglySorted (geo_lt w) (_geoList w) →
  listed_bound w →
  g ∈ _geoList w →
  let w' := Geometry_remove w g in
  _clearing w' = false
  ∧ layer_self w' = layer_self w
  ∧ _geoList w' = filter (λ x, x ≠ g) (_geoList w)
  ∧ StronglySorted (geo_lt w') (_geoList w')
  ∧ listed_bound w'
  ∧ (∀ r, r ≠ g → deref w' r = deref w r)
  ∧ getLayer w' g = None
  ∧ (∀ r, getId w' r = getId w r)
  ∧ (∀ k v, _geoMap w' !! k = Some v → _geoMap w !! k = Some v)
  ∧ (∀ k, getId w g = Some k → _geoMap w' !! k = None).
Proof.
  intros Hc Hs Hb Hin w'.
  destruct (Hb g Hin) as [Hl [n Hn]].
  apply list_elem_of_lookup_1 in Hin as [i Hi].
  destruct (onRemoveGeometry_sorted w g i n Hc Hl Hn Hs Hi) as [El _].
  set (w1 := onRemoveGeometry w (Some g)) in *.
  assert (heap w1 = heap w) as Hh by apply onRemoveGeometry_heap.
  assert (_clearing w1 = false ∧ layer_self w1 = layer_self w
          ∧ _geoMap w1 = match getId w g with
                         | Some x => delete x (_geoMap w)
                         | None => _geoMap w
                         end) as (Hc1 & Hself1 & Hm1).
  { unfold w1, onRemoveGeometry.
    rewrite Hc, Hl, bool_decide_true, Hn by done. simpl.
    destruct (getId w g), (0 <=? _)%Z, (has_renderer w) eqn:Hr; simpl;
      rewrite ?Hr; simpl; done. }
  assert (w' = with_heap w1
            (<[g := mkGeometry (g_id (deref w1 g)) (g_zIndex (deref w1 g))
                               None None]> (heap w1))) as Ew'.
  { unfold w', Geometry_remove. by rewrite Hl. }
  assert (∀ r, r ≠ g → deref w' r = deref w r) as Hframe.
  { intros r Hr. rewrite Ew'. unfold deref. simpl.
    by rewrite lookup_total_insert_ne, Hh. }
  assert (deref w' g = mkGeometry (g_id (deref w g)) (g_zIndex (deref w g))
                                  None None) as Hg.
  { rewrite Ew'. unfold deref. simpl. by rewrite lookup_total_insert_eq, Hh. }
  assert (_geoList w' = filter (λ x, x ≠ g) (_geoList w)) as El'.
  { rewrite Ew'. simpl. rewrite El. symmetry.
    apply filter_ne_delete; [by eapply StronglySorted_NoDup|done]. }
  assert (∀ r, r ∈ _geoList w' → r ≠ g ∧ r ∈ _geoList w) as Hin'.
  { intros r. rewrite El', list_elem_of_filter. tauto. }
  split_and!.
  - rewrite Ew'. exact Hc1.
  - rewrite Ew'. exact Hself1.
  - done.
  - rewrite El'. eapply StronglySorted_impl_in.
    + eapply StronglySorted_sublist; [apply sublist_filter|exact Hs].
    + intros a b Ha Hb' Hab.
      apply list_elem_of_filter in Ha as [Ha _].
      apply list_elem_of_filter in Hb' as [Hb' _].
      unfold geo_lt, getZIndex, _getInternalId in *.
      by rewrite !Hframe.
  - intros r Hr. destruct (Hin' r Hr) as [Hne Hr0].
    destruct (Hb r Hr0) as [Hlr Hir].
    unfold getLayer, _getInternalId in *. rewrite Hframe by done.
    split; [|done]. rewrite Hlr. f_equal. rewrite Ew'. symmetry. exact Hself1.
  - done.
  - unfold getLayer. by rewrite Hg.
  - intros r. unfold getId. destruct (decide (r = g)) as [->|Hr].
    + by rewrite Hg.
    + by rewrite Hframe.
  - intros k v. rewrite Ew'. simpl. rewrite Hm1.
    destruct (getId w g) as [x|]; [|done].
    intros Hk. apply lookup_delete_Some in Hk. tauto.
  - intros k Hk. rewrite Ew'. simpl. rewrite Hm1, Hk.
    by rewrite lookup_delete_eq.
Qed.

Lemma removeGeometry_loop_refs refs : ∀ w,
  _clearing w = false →
  StronglySorted (geo_lt w) (_geoList w) →
  listed_bound w →
  (∀ g, g ∈ refs → getLayer w g = Some (layer_self w) → g ∈ _geoList w) →
  ∃ w',
  removeGeometry_loop w (ByRef <$> refs) = Return (w', reverse (Some <$> refs))
  ∧ _clearing w' = false
  ∧ layer_self w' = layer_self w
  ∧ _geoList w' = filter (λ x, x ∉ refs) (_geoList w)
  ∧ StronglySorted (geo_lt w') (_geoList w')
  ∧ listed_bound w'
  ∧ (∀ g, g ∈ refs → getLayer w' g ≠ Some (layer_self w))
  ∧ (∀ r, r ∉ refs → deref w' r = deref w r)
  ∧ (∀ r, getId w' r = getId w r)
  ∧ (∀ k v, _geoMap w' !! k = Some v → _geoMap w !! k = Some v)
  ∧ (∀ g k, g ∈ refs → g ∈ _geoList w → getId w g = Some k →
            _geoMap w' !! k = None).
Proof.
  induction refs as [|g refs IH]; intros w Hc Hs Hb Ht.
  { exists w. simpl. split_and!; try done.
    - symmetry. apply filter_all. intros x _. apply not_elem_of_nil.
    - intros g Hg. by apply elem_of_nil in Hg.
    - intros g k Hg. by apply elem_of_nil in Hg. }
  rewrite fmap_cons. cbn [removeGeometry_loop].
  set (w1 := if bool_decide (getLayer w g = Some (layer_self w))
             then Geometry_remove w g else w).
  assert (_clearing w1 = false
          ∧ layer_self w1 = layer_self w
          ∧ _geoList w1 = filter (λ x, x ≠ g) (_geoList w)
          ∧ StronglySorted (geo_lt w1) (_geoList w1)
          ∧ listed_bound w1
          ∧ (∀ r, r ≠ g → deref w1 r = deref w r)
          ∧ getLayer w1 g ≠ Some (layer_self w)
          ∧ (∀ r, getId w1 r = getId w r)
          ∧ (∀ k v, _geoMap w1 !! k = Some v → _geoMap w !! k = Some v)
          ∧ (∀ k, g ∈ _geoList w → getId w g = Some k → _geoMap w1 !! k = None))
    as (Hc1 & Hself1 & El1 & Hs1 & Hb1 & Hframe1 & Hun1 & Hid1 & Hsub1 & Hdel1).
  { unfold w1. case_bool_decide as Hbound.
    - pose proof (Ht g (list_elem_of_here _ _) Hbound) as Hin.
      destruct (Geometry_remove_listed w g Hc Hs Hb Hin)
        as (? & ? & ? & ? & ? & ? & Hnone & ? & ? & Hdel).
      split_and!; try done; [by rewrite Hnone|]. intros k _. apply Hdel.
    - assert (g ∉ _geoList w) as Hnot.
      { intros Hin. by destruct (Hb g Hin). }
      split_and!; try done;
        try (symmetry; apply filter_all; by intros x Hx ->);
        try (by intros k Hin). }
  destruct (IH w1 Hc1 Hs1 Hb1) as
    (w2 & Hloop & Hc2 & Hself2 & El2 & Hs2 & Hb2 & Hun2 & Hframe2 & Hid2 & Hsub2
     & Hdel2).
  { intros r Hr Hbound. rewrite El1. apply list_elem_of_filter.
    destruct (decide (r = g)) as [->|Hne].
    - rewrite Hself1 in Hbound. by destruct Hun1.
    - split; [done|]. apply Ht; [by right|].
      unfold getLayer in *. rewrite <- Hframe1 by done. by rewrite <- Hself1. }
  rewrite Hloop. exists w2.
  split_and!.
  - by rewrite fmap_cons, reverse_cons.
  - done.
  - congruence.
  - rewrite El2, El1, list_filter_filter. apply list_filter_iff.
    intros x. rewrite not_elem_of_cons. tauto.
  - done.
  - done.
  - intros r Hr. apply elem_of_cons in Hr as [->|Hr].
    + destruct (decide (g ∈ refs)) as [Hin|Hnot].
      * rewrite <- Hself1. by apply Hun2.
      * unfold getLayer in *. by rewrite Hframe2.
    + rewrite <- Hself1. by apply Hun2.
  - intros r Hr. rewrite not_elem_of_cons in Hr. destruct Hr as [Hne Hr].
    by rewrite Hframe2, Hframe1.
  - intros r. by rewrite Hid2, Hid1.
  - intros k v Hk. by apply Hsub1, Hsub2.
  - intros r k Hr Hin Hk.
    destruct (decide (r = g)) as [->|Hne].
    + destruct (_geoMap w2 !! k) as [v|] eqn:Hv; [|done].
      apply Hsub2 in Hv. by rewrite (Hdel1 k Hin Hk) in Hv.
    + apply elem_of_cons in Hr as [?|Hr]; [done|].
      apply (Hdel2 r k Hr); [|by rewrite Hid1].
      rewrite El1. by apply list_elem_of_filter.
Qed.

(** X23. Removing geometries of the layer. On a store in draw order whose
    listed geometries are bound to the layer and carry internal ids,
    [removeGeometry] of an array of geometries (those bound to the layer
    being listed) takes exactly the geometries of the array out of the
    sequence, the others keeping their order, so that the sequence is still
    in draw order and its geometries still bound; the ids of the removed
    geometries are no longer registered and no id is added; none of the
    geometries of the array is bound to the layer afterwards; and
    [removeGeometry] returns, [removegeo] being fired last, with the
    array. *)
Theorem removeGeometry_removes w refs :
  _clearing w = false →
  StronglySorted (geo_lt w) (_geoList w) →
  listed_bound w →
  (∀ g, g ∈ refs → getLayer w g = Some (layer_self w) → g ∈ _geoList w) →
  ∃ w', removeGeometry w (ByRef <$> refs) = Return w'
  ∧ _geoList w' = filter (λ x, x ∉ refs) (_geoList w)
  ∧ StronglySorted (geo_lt w') (_geoList w')
  ∧ listed_bound w'
  ∧ (∀ g, g ∈ refs → getLayer w' g ≠ Some (layer_self w'))
  ∧ (∀ g k, g ∈ refs → g ∈ _geoList w → getId w g = Some k →
            _geoMap w' !! k = None)
  ∧ (∀ k v, _geoMap w' !! k = Some v → _geoMap w !! k = Some v)
  ∧ last (events w') = Some (LayerRemoveGeo (Some <$> refs)).
Proof.
  intros Hc Hs Hb Ht.
  destruct (removeGeometry_loop_refs (reverse refs) w Hc Hs Hb)
    as (w2 & Hloop & Hc2 & Hself2 & El2 & Hs2 & Hb2 & Hun2 & Hframe2 & Hid2
        & Hsub2 & Hdel2).
  { intros g Hg. apply Ht. by apply elem_of_reverse. }
  exists (emit w2 (LayerRemoveGeo (Some <$> refs))).
  split_and!.
  - unfold removeGeometry. rewrite <- fmap_reverse, Hloop.
    by rewrite <- fmap_reverse, reverse_involutive.
  - simpl. rewrite El2. apply list_filter_iff.
    intros x. by rewrite elem_of_reverse.
  - done.
  - done.
  - intros g Hg.
    change (getLayer w2 g ≠ Some (layer_self w2)). rewrite Hself2.
    apply Hun2. by apply elem_of_reverse.
  - intros g k Hg. apply Hdel2. by apply elem_of_reverse.
  - exact Hsub2.
  - simpl. by rewrite last_snoc.
Qed.

End overlay_store_facts.

(** * Further facts about the text marker symbolizer *)

Section text_key_facts.
Import TextMarker.

(** ** What the cache key tells apart *)

(** X12. For a given style, two text contents have the same cache key only
    when they are the same content. *)
Theorem genCacheKey_content_inj (c1 c2 : string) (st : Style) :
  genCacheKey c1 st = genCacheKey c2 st → c1 = c2.
Proof.
  unfold genCacheKey. destruct (genCacheKey_entries st) as [|e es]; [done|].
  rewrite !concat_cons2. apply string_app_inv_tail.
Qed.

(** X13. Two styles that differ in the value of one property only: when the
    property is keyed (its name is longer than 4 characters and starts with
    "text"), the cache keys are the same exactly when the two values read
    the same as strings, so the number 10 and the string '10' share a key;
    when it is not keyed, the keys are the same whatever the values. *)
Theorem genCacheKey_property (textContent : string) (pre post : Style)
    (p : string) (v1 v2 : value) :
  (keyed p = true →
     (genCacheKey textContent (pre ++ (p, v1) :: post)
      = genCacheKey textContent (pre ++ (p, v2) :: post)
      ↔ to_string v1 = to_string v2))
  ∧ (keyed p = false →
     genCacheKey textContent (pre ++ (p, v1) :: post)
     = genCacheKey textContent (pre ++ (p, v2) :: post)).
Proof.
  unfold genCacheKey. rewrite !genCacheKey_entries_app.
  cbn [genCacheKey_entries].
  change ((4 <? String.length p)%nat && String.eqb (String.substring 0 4 p) "text")
    with (keyed p).
  split; intros ->; [|done]. split.
  - intros H. apply concat_inj_entry in H.
    by do 2 apply String.app_inj in H.
  - by intros ->.
Qed.

Section descText.
Context {TextDesc : Type}.
Variable splitTextToRow : string → Style → TextDesc.
Variable IS_NODE : bool.
Variable evaluate : string → value.
Variable replaceVariable : value → string.

(** X14. [_descText] only ever adds to the geometry's cache: whatever the
    symbolizer and the content, a descriptor the cache held under a key is
    still there under that key afterwards; the symbolizer ends with a
    descriptor; for a static symbol outside Node that descriptor is the
    one the cache then holds under the symbol's key; and when the cache held
    a descriptor under that key, that one is taken, whatever the content
    given, and no layout is computed. *)
Theorem _descText_cache_grows (this : Symbolizer) (g : GeometryState)
    (textContent : string) :
  let this' := (_descText splitTextToRow IS_NODE this g textContent).1 in
  let g' := (_descText splitTextToRow IS_NODE this g textContent).2 in
  (∀ key d, cache_lookup g key = Some d → cache_lookup g' key = Some d)
  ∧ is_Some (textDesc this')
  ∧ (_dynamic this = false → IS_NODE = false →
     cache_lookup g' (cache_key_name this) = textDesc this')
  ∧ (_dynamic this = false →
     ∀ d, cache_lookup g (cache_key_name this) = Some d →
          textDesc this' = Some d ∧ layouts g' = layouts g)
  ∧ (layouts g' = layouts g
     ∨ (layouts g' = S (layouts g)
        ∧ textDesc this' = Some (splitTextToRow textContent (style this)))).
Proof.
  unfold _descText, _loadFromCache, _storeToCache, layout, cache_lookup.
  destruct (_dynamic this); simpl.
  { split_and!; [done|by eexists|done|done|by right]. }
  destruct (text_symbol_cache g) as [cache|] eqn:Hc; simpl.
  - destruct (cache !! cache_key_name this) as [d0|] eqn:Hk; simpl.
    + rewrite ?Hc. simpl.
      split_and!; [done|by eexists|done| |by left].
      intros _ d Hd. by simplify_eq.
    + destruct IS_NODE; simpl; rewrite ?Hc; simpl.
      * split_and!; [done|by eexists|done|by intros _ d ?; simplify_eq|by right].
      * split_and!; [|by eexists| |by intros _ d ?; simplify_eq|by right].
        -- intros key d Hd. rewrite lookup_insert_ne; [done|].
           intros <-. by simplify_eq.
        -- intros _ _. by rewrite lookup_insert_eq.
  - destruct IS_NODE; simpl; rewrite ?Hc; simpl.
    + split_and!; [done|by eexists|done|done|by right].
    + split_and!; [done|by eexists| |done|by right].
      intros _ _. by rewrite lookup_insert_eq.
Qed.

Lemma _descText_style (this : Symbolizer) g textContent :
  style (_descText splitTextToRow IS_NODE this g textContent).1 = style this.
Proof.
  unfold _descText, _loadFromCache, layout.
  destruct (_dynamic this); [done|].
  by destruct (text_symbol_cache g) as [cache|];
    simpl; [destruct (cache !! cache_key_name this)|].
Qed.

(** X15. A text marker is never rotated by its symbol: whatever the symbol
    holds, a [textRotation] included, the style [translate] makes has no
    [textRotation] entry, and [getRotation] of the symbolizer the
    constructor makes answers null. *)
Theorem getRotation_null (sym : gmap string value) (g : GeometryState) :
  getRotation
    (new_TextMarkerSymbolizer splitTextToRow IS_NODE evaluate replaceVariable
       sym g).1 = None.
Proof.
  unfold getRotation, new_TextMarkerSymbolizer.
  rewrite _descText_style. cbn [style]. reflexivity.
Qed.
End descText.

End text_key_facts.

(** * Further facts about the image marker symbolizer *)

Section image_drawing_facts.
Import ImageMarker.

Section drawing.
Variable _prepareContext : Context2D → Context2D.
Variable cookedPoints : list Point.
Variable _getRotationAt : nat → option Q.
Variable getImage : ResourceKey → option Image.
Variable isResourceLoaded : ResourceKey → bool.
Variable isSpriting : bool.
Variable phantomjs : bool.
Variable rotated_frame : Symbolizer → Point → Q → list TransformOp * Point.

(** X16. What [symbolize] draws, for every marker. When a size or the
    opacity is 0, there is no point or no image, the symbolizer and the
    context are left as they were. Otherwise it returns, and each point got
    one blit, in the order of the points: with its bottom centre at the
    point, or, when the point has a rotation, in the frame [_rotate] set up
    and with its bottom centre at the point [_rotate] returned, the state
    [_rotate] saved being restored after the blit; all of them at the size
    of the style (the image's own size unless the style has both a width
    and a height) and at one alpha; and the context ends with the alpha, the
    transform and the save stack [_prepareContext] left. *)
Theorem symbolize_draws (this : Symbolizer) (ctx : Context2D) :
  let run := symbolize _prepareContext cookedPoints _getRotationAt getImage
               isResourceLoaded isSpriting phantomjs rotated_frame this ctx in
  match image_to_draw getImage cookedPoints (style this) with
  | None => (state_of run).1 = (this, ctx)
  | Some img =>
    let base := _prepareContext ctx in
    returns run = true
    ∧ (state_of run).1.2
      = mkContext2D (globalAlpha base) (transform base) (saved base)
          (drawn base
           ++ imap (λ i p, point_blit (rotated_frame (state_of run).1.1)
                             (transform base)
                             (draw_alpha this (globalAlpha base))
                             (draw_size (style this) img) (_getRotationAt i) p)
                   cookedPoints)
  end.
Proof.
  intros run. subst run.
  destruct (image_to_draw getImage cookedPoints (style this)) as [img|] eqn:Himg.
  - cbv zeta. by rewrite (symbolize_image _ _ _ _ _ _ _ _ this ctx img Himg).
  - by apply symbolize_no_image.
Qed.

(** X17. The size of the style is settled once. When [symbolize] finds the
    image and the style lacks a width or a height, both are taken from the
    image (a width or height the style had alone is replaced), the rest of
    the style is kept, the resource is registered under the key with the
    sizes unless it is loaded, and the painter's cache is dropped unless it
    is spriting. When the style has both, the symbolizer is left as it is
    and nothing happens besides drawing. Without an image to draw the
    symbolizer and the context are left as they are: [symbolize] returns at
    once when a size or the opacity is 0, when there is no point, or under
    phantomjs; else it warns that no image was found for the [markerFile];
    and when the [markerFile] is the empty string it raises a TypeError
    instead, on reading [this._url[0]]. *)
Theorem symbolize_settles_size (this : Symbolizer) (ctx : Context2D) :
  let run := symbolize _prepareContext cookedPoints _getRotationAt getImage
               isResourceLoaded isSpriting phantomjs rotated_frame this ctx in
  match image_to_draw getImage cookedPoints (style this) with
  | None =>
    if skips cookedPoints (style this) || phantomjs
    then run = Return (this, ctx, [])
    else if bool_decide (markerFile (style this) = "")
    then run = Throw TypeError (this, ctx, [])
    else run = Return (this, ctx,
                       [Warn ("no img found for " +:+ markerFile (style this))])
  | Some img =>
    ∃ ctx',
      match markerWidth (style this), markerHeight (style this) with
      | Some _, Some _ => run = Return (this, ctx', [])
      | _, _ =>
        let key := (markerFile (style this), Some (img_width img),
                    Some (img_height img)) in
        run = Return
                (mkSymbolizer (markerType this)
                   (set_size (style this) (img_width img) (img_height img)),
                 ctx',
                 (if isResourceLoaded key then [] else [AddResource key])
                 ++ (if isSpriting then [] else [RemoveCache]))
      end
  end.
Proof.
  intros run. subst run.
  destruct (image_to_draw getImage cookedPoints (style this)) as [img|] eqn:Himg.
  - rewrite (symbolize_image _ _ _ _ _ _ _ _ this ctx img Himg). cbv zeta.
    destruct (markerWidth (style this)) as [width|],
             (markerHeight (style this)) as [height|]; eexists; reflexivity.
  - revert Himg. unfold image_to_draw, skips, symbolize.
    destruct (_ || _); [done|].
    destruct cookedPoints as [|p points] eqn:Hpoints; [done|].
    rewrite bool_decide_false by done. intros ->. simpl.
    destruct phantomjs; [done|]. by case_bool_decide.
Qed.
End drawing.

End image_drawing_facts.

(** * Facts about the base class of the layers *)

Section layer_facts.
Import Layer.

(** X18. Showing and hiding. After [show] the option [visible] is true and
    [isVisible] answers whether the layer can be seen at all (an opacity
    above 0, the zoom of its map within its zoom range). After [hide],
    [isVisible] answers false, provided the option [visible] was not null
    or undefined: on such a layer [hide] does nothing and [isVisible]
    still answers as for a shown layer. A second [show] or [hide] changes
    nothing and notifies no one. *)
Theorem show_hide_visibility (l : Layer) :
  visible (show l) = Some true
  ∧ (isVisible (show l)).1 = displayable l
  ∧ (visible l ≠ None → (isVisible (hide l)).1 = false)
  ∧ (visible l = None →
     hide l = l ∧ (isVisible (hide l)).1 = displayable l)
  ∧ show (show l) = show l
  ∧ hide (hide l) = hide l.
Proof.
  destruct l as [z v o mn mx m r ld cs rs].
  unfold show, hide, isVisible, displayable, fire, getMap.
  destruct v as [[|]|], r, m as [m|], o as [o|], mn as [mn|], mx as [mx|]; cbn;
    repeat (match goal with
            | |- context [Qle_bool ?a ?b] => destruct (Qle_bool a b)
            end; cbn);
    split_and!; try done; try (intros _; by split).
Qed.

Lemma setZIndex_getZIndex l z : getZIndex (setZIndex l z) = z.
Proof. destruct l. unfold setZIndex. simpl. by repeat case_match. Qed.

Lemma to_double_exact (n : Z) : (Z.abs n ≤ 2 ^ 53)%Z → to_double n = n.
Proof.
  intros Hn. unfold to_double.
  by destruct (Z.leb_spec (Z.abs n) (2 ^ 53)); [|lia].
Qed.

Lemma num_add_safe (t d : Z) :
  safe_integer (Some t) → (-1 ≤ d ≤ 1)%Z → num_add (Some t) d = Some (t + d)%Z.
Proof.
  unfold safe_integer, num_add. intros Ht Hd.
  rewrite to_double_exact; [done|lia].
Qed.

(** X19. On a layer list that holds the layer and is in ascending z-index
    order, all z-indices being integers between -2^53 and 2^53, both
    excluded (the numbers next to which the doubles are one apart): after
    [bringToFront] no layer of
    the list has a z-index above this layer's, and every other layer is
    strictly below it unless this layer was the last of the list already;
    after [bringToBack] no layer has a z-index below this layer's, and
    every other layer is strictly above it unless this layer was the first
    already. *)
Theorem bringToFront_back_bounds (l : Layer) (m : Map) :
  map l = Some m →
  This ∈ _layers m →
  (∀ ref, ref ∈ _layers m → safe_integer (zIndex_of l ref)) →
  StronglySorted (λ a b, z_le (zIndex_of l a) (zIndex_of l b)) (_layers m) →
  ((∀ ref, ref ∈ _layers m →
      z_le (zIndex_of (bringToFront l) ref) (getZIndex (bringToFront l)))
   ∧ (bringToFront l = l
      ∨ ∀ z, Other z ∈ _layers m → z_lt z (getZIndex (bringToFront l))))
  ∧ ((∀ ref, ref ∈ _layers m →
      z_le (getZIndex (bringToBack l)) (zIndex_of (bringToBack l) ref))
     ∧ (bringToBack l = l
        ∨ ∀ z, Other z ∈ _layers m → z_lt (getZIndex (bringToBack l)) z)).
Proof.
  intros Hmap Hthis Hsafe Hsorted.
  assert (∀ ref, ref ∈ _layers m → is_Some (zIndex_of l ref)) as Hnum.
  { intros ref Hin. specialize (Hsafe ref Hin).
    by destruct (zIndex_of l ref). }
  assert (∀ ref, ref ∈ _layers m → z_le (zIndex_of l ref) (zIndex_of l ref))
    as Hrefl.
  { intros ref Hin. destruct (Hnum ref Hin) as [x ->]. simpl. lia. }
  assert (length (_layers m) ≠ 0%nat) as Hlen.
  { destruct (_layers m); [by apply elem_of_nil in Hthis|done]. }
  split.
  - unfold bringToFront, _getLayerList. rewrite Hmap.
    rewrite bool_decide_false by done.
    destruct (_layers m !! (length (_layers m) - 1)%nat) as [top|] eqn:Htop.
    2:{ apply lookup_ge_None in Htop. lia. }
    assert (∀ ref, ref ∈ _layers m →
                   z_le (zIndex_of l ref) (zIndex_of l top)) as Hmax.
    { intros ref Hin. apply list_elem_of_lookup_1 in Hin as [i Hi].
      pose proof (lookup_lt_Some _ _ _ Hi).
      destruct (decide (i = length (_layers m) - 1)%nat) as [->|].
      - simplify_eq. apply Hrefl. by eapply list_elem_of_lookup_2.
      - apply (StronglySorted_lookup_lt _ _ i (length (_layers m) - 1) _ _
                 Hsorted); [lia|exact Hi|exact Htop]. }
    case_bool_decide as H1; cbn [orb].
    { split; [|by left]. intros ref Hin.
      destruct (_layers m) as [|a [|b rest]]; simplify_eq/=.
      apply list_elem_of_singleton in Hthis, Hin. subst. apply (Hrefl This). by apply list_elem_of_singleton. }
    destruct top as [|zt]; cbn [is_this].
    { split; [|by left]. intros ref Hin. by apply Hmax. }
    destruct (Hnum (Other zt)) as [t Ht]; [by eapply list_elem_of_lookup_2|].
    simpl in Ht. subst zt. cbn [zIndex_of].
    rewrite num_add_safe;
      [|by apply (Hsafe (Other (Some t))); eapply list_elem_of_lookup_2|lia].
    split; [|right].
    + intros [|z] Hin; cbn [zIndex_of]; rewrite setZIndex_getZIndex.
      * simpl. lia.
      * specialize (Hmax _ Hin). simpl in Hmax.
        destruct z as [z|]; simpl in *; [lia|done].
    + intros z Hin. rewrite setZIndex_getZIndex.
      specialize (Hmax _ Hin). simpl in Hmax.
      destruct z as [z|]; simpl in *; [lia|done].
  - unfold bringToBack, _getLayerList. rewrite Hmap.
    rewrite bool_decide_false by done.
    destruct (_layers m !! 0%nat) as [bottom|] eqn:Hbottom.
    2:{ apply lookup_ge_None in Hbottom. lia. }
    assert (∀ ref, ref ∈ _layers m →
                   z_le (zIndex_of l bottom) (zIndex_of l ref)) as Hmin.
    { intros ref Hin. apply list_elem_of_lookup_1 in Hin as [i Hi].
      destruct i as [|i].
      - simplify_eq. apply Hrefl. by eapply list_elem_of_lookup_2.
      - apply (StronglySorted_lookup_lt _ _ 0 (S i) _ _ Hsorted);
          [lia|exact Hbottom|exact Hi]. }
    case_bool_decide as H1; cbn [orb].
    { split; [|by left]. intros ref Hin.
      destruct (_layers m) as [|a [|b rest]]; simplify_eq/=.
      apply list_elem_of_singleton in Hthis, Hin. subst. apply (Hrefl This). by apply list_elem_of_singleton. }
    destruct bottom as [|zb]; cbn [is_this].
    { split; [|by left]. intros ref Hin. by apply Hmin. }
    destruct (Hnum (Other zb)) as [b Hb]; [by eapply list_elem_of_lookup_2|].
    simpl in Hb. subst zb. cbn [zIndex_of].
    rewrite num_add_safe;
      [|by apply (Hsafe (Other (Some b))); eapply list_elem_of_lookup_2|lia].
    split; [|right].
    + intros [|z] Hin; cbn [zIndex_of]; rewrite setZIndex_getZIndex.
      * simpl. lia.
      * specialize (Hmin _ Hin). simpl in Hmin.
        destruct z as [z|]; simpl in *; [lia|done].
    + intros z Hin. rewrite setZIndex_getZIndex.
      specialize (Hmin _ Hin). simpl in Hmin.
      destruct z as [z|]; simpl in *; [lia|done].
Qed.

End layer_facts.

(** * Facts about the map tools *)

Section maptool_facts.
Import MapTool.

Lemma enable_tools w t :
  tools (enable w t)
  = if negb (_map (tool_of w t)) || _enabled (tool_of w t) then tools w
    else <[t := mkTool (name (tool_of w t)) (_map (tool_of w t)) true
                       (has_events (tool_of w t))]> (tools w).
Proof.
  unfold enable, _registerEvents, _switchEvents, _fireEvent.
  destruct (negb _ || _); [done|]. simpl. by repeat case_match.
Qed.

Lemma disable_tools w t :
  tools (disable w t)
  = if negb (_enabled (tool_of w t)) || negb (_map (tool_of w t)) then tools w
    else <[t := mkTool (name (tool_of w t)) (_map (tool_of w t)) false
                       (has_events (tool_of w t))]> (tools w).
Proof.
  unfold disable, _switchEvents, _fireEvent.
  destruct (negb _ || _); [done|]. simpl. by repeat case_match.
Qed.

Lemma enable_registry w t : registry (enable w t) = registry w.
Proof.
  unfold enable, _registerEvents, _switchEvents, _fireEvent.
  destruct (negb _ || _); [done|]. simpl. by repeat case_match.
Qed.

Lemma disable_registry w t : registry (disable w t) = registry w.
Proof.
  unfold disable, _switchEvents, _fireEvent.
  destruct (negb _ || _); [done|]. simpl. by repeat case_match.
Qed.

(** X20. Enabling and disabling. A tool that was never added to a map
    cannot be enabled; a tool that was added is enabled after [enable] and
    disabled after [disable]; [enable] on an enabled tool and [disable] on a
    disabled one do nothing at all, so that a second call in a row
    registers no listener and fires no event. *)
Theorem enable_disable (w : World) (t : nat) :
  (_map (tool_of w t) = false → enable w t = w)
  ∧ (_map (tool_of w t) = true →
     isEnabled (enable w t) t = true ∧ isEnabled (disable w t) t = false)
  ∧ (isEnabled w t = true → enable w t = w)
  ∧ (isEnabled w t = false → disable w t = w)
  ∧ enable (enable w t) t = enable w t
  ∧ disable (disable w t) t = disable w t.
Proof.
  assert (∀ v, isEnabled v t = _enabled (tool_of v t)) as Hen.
  { intros v. unfold isEnabled. by destruct (_enabled _). }
  assert (∀ v, _enabled (tool_of v t) = true → enable v t = v) as Hnoop1.
  { intros v Hv. unfold enable. rewrite Hv. by rewrite orb_true_r. }
  assert (∀ v, _enabled (tool_of v t) = false → disable v t = v) as Hnoop2.
  { intros v Hv. unfold disable. by rewrite Hv. }
  assert (∀ v, _map (tool_of v t) = false → enable v t = v) as Hnomap.
  { intros v Hv. unfold enable. by rewrite Hv. }
  assert (∀ v, _map (tool_of v t) = false → disable v t = v) as Hnomap2.
  { intros v Hv. unfold disable. rewrite Hv. by rewrite orb_true_r. }
  assert (_map (tool_of w t) = true → _enabled (tool_of (enable w t) t) = true)
    as Hon.
  { intros Hm. unfold tool_of at 1. rewrite enable_tools, Hm. cbn [negb orb].
    destruct (_enabled (tool_of w t)) eqn:He; [done|].
    by rewrite lookup_total_insert_eq. }
  assert (_map (tool_of w t) = true → _enabled (tool_of (disable w t) t) = false)
    as Hoff.
  { intros Hm. unfold tool_of at 1. rewrite disable_tools, Hm.
    destruct (_enabled (tool_of w t)) eqn:He; cbn [negb orb]; [|done].
    by rewrite lookup_total_insert_eq. }
  split_and!.
  - apply Hnomap.
  - intros Hm. rewrite !Hen. auto.
  - rewrite Hen. apply Hnoop1.
  - rewrite Hen. apply Hnoop2.
  - destruct (_map (tool_of w t)) eqn:Hm.
    + apply Hnoop1. by apply Hon.
    + by rewrite !Hnomap by (by rewrite ?Hnomap).
  - destruct (_map (tool_of w t)) eqn:Hm.
    + apply Hnoop2. by apply Hoff.
    + by rewrite !Hnomap2 by (by rewrite ?Hnomap2).
Qed.

Lemma enable_tool_of w t q :
  tool_of (enable w t) q
  = if decide (q = t)
    then if negb (_map (tool_of w t)) || _enabled (tool_of w t) then tool_of w t
         else mkTool (name (tool_of w t)) (_map (tool_of w t)) true
                     (has_events (tool_of w t))
    else tool_of w q.
Proof.
  unfold tool_of at 1. rewrite enable_tools. case_decide as Hq.
  - subst q. destruct (negb _ || _); [done|]. by rewrite lookup_total_insert_eq.
  - destruct (negb _ || _); [done|]. by rewrite lookup_total_insert_ne.
Qed.

Lemma disable_tool_of w t q :
  tool_of (disable w t) q
  = if decide (q = t)
    then if negb (_enabled (tool_of w t)) || negb (_map (tool_of w t))
         then tool_of w t
         else mkTool (name (tool_of w t)) (_map (tool_of w t)) false
                     (has_events (tool_of w t))
    else tool_of w q.
Proof.
  unfold tool_of at 1. rewrite disable_tools. case_decide as Hq.
  - subst q. destruct (negb _ || negb _); [done|].
    by rewrite lookup_total_insert_eq.
  - destruct (negb _ || negb _); [done|]. by rewrite lookup_total_insert_ne.
Qed.

(** X21. Adding a tool to the map. Afterwards the tool is on the map and
    enabled and it is the tool the map holds under its name; the tool the
    map held under that name before, when it is another tool, is disabled;
    the tools that are neither are as they were; and [add] is the last
    event fired. The tool held before is one that was added to the map. *)
Theorem addTo_enables (w : World) (t : nat) :
  let key := "_tool" +:+ name (tool_of w t) in
  (∀ p, registry w !! key = Some p → _map (tool_of w p) = true) →
  let w' := addTo w t true in
  isEnabled w' t = true
  ∧ _map (tool_of w' t) = true
  ∧ registry w' !! key = Some t
  ∧ (∀ k, k ≠ key → registry w' !! k = registry w !! k)
  ∧ (∀ p, registry w !! key = Some p → p ≠ t → isEnabled w' p = false)
  ∧ (∀ q, q ≠ t → registry w !! key ≠ Some q → tool_of w' q = tool_of w q)
  ∧ last (calls w') = Some (Fire t "add").
Proof.
  intros key Hadded w'.
  set (tool := tool_of w t).
  set (w1 := set_tool w t (mkTool (name tool) true (_enabled tool) (has_events tool))).
  set (w2 := match registry w1 !! key with
             | Some previous => disable w1 previous
             | None => w1
             end).
  set (w3 := call w2 (OnAdd t)).
  assert (w' = _fireEvent (set_registry (enable w3 t)
                             (<[key := t]> (registry (enable w3 t)))) t "add")
    as Ew' by done.
  assert (∀ v q, isEnabled v q = _enabled (tool_of v q)) as Hen.
  { intros v q. unfold isEnabled. by destruct (_enabled (tool_of v q)). }
  assert (∀ q, tool_of w' q = tool_of (enable w3 t) q) as Htool' by done.
  assert (∀ q, tool_of w3 q = tool_of w2 q) as H3 by done.
  assert (registry w2 = registry w) as Hreg2.
  { unfold w2. destruct (registry w1 !! key); [by rewrite disable_registry|done]. }
  assert (tool_of w1 t = mkTool (name tool) true (_enabled tool) (has_events tool))
    as Ht1.
  { unfold tool_of, w1. simpl. by rewrite lookup_total_insert_eq. }
  assert (∀ q, q ≠ t → tool_of w1 q = tool_of w q) as Hq1.
  { intros q Hq. unfold tool_of, w1. simpl. by rewrite lookup_total_insert_ne. }
  assert (_map (tool_of w2 t) = true) as Hmap2.
  { unfold w2. destruct (registry w1 !! key) as [p|]; [|by rewrite Ht1].
    rewrite disable_tool_of. case_decide as Hp; [subst p|by rewrite Ht1].
    rewrite Ht1. cbn [_map _enabled negb orb]. by destruct (_enabled tool). }
  assert (_enabled (tool_of (enable w3 t) t) = true
          ∧ _map (tool_of (enable w3 t) t) = true) as [Hon Hmap].
  { rewrite enable_tool_of, decide_True, H3, Hmap2 by done. cbn [negb orb].
    by destruct (_enabled (tool_of w2 t)) eqn:He. }
  assert (∀ q, q ≠ t → tool_of (enable w3 t) q = tool_of w2 q) as Hother.
  { intros q Hq. by rewrite enable_tool_of, decide_False, H3. }
  split_and!.
  - by rewrite Hen, Htool'.
  - by rewrite Htool'.
  - rewrite Ew'. simpl. by rewrite lookup_insert_eq.
  - intros k Hk. rewrite Ew'. simpl. rewrite lookup_insert_ne by done.
    rewrite enable_registry. change (registry w3) with (registry w2).
    by rewrite Hreg2.
  - intros p Hp Hne. rewrite Hen, Htool', Hother by done.
    unfold w2. change (registry w1) with (registry w). rewrite Hp.
    rewrite disable_tool_of, decide_True, (Hq1 p Hne), (Hadded p Hp) by done.
    destruct (_enabled (tool_of w p)) eqn:He; simpl; done.
  - intros q Hq Hnot. rewrite Htool', Hother by done.
    unfold w2. change (registry w1) with (registry w).
    destruct (registry w !! key) as [p|] eqn:Hp; [|by apply Hq1].
    rewrite disable_tool_of, decide_False by congruence. by apply Hq1.
  - rewrite Ew'. simpl. by rewrite last_snoc.
Qed.

End maptool_facts.

(** * Examples *)

Section overlay_examples.
Import Overlay Examples.

(** A(z=0), then B(z=5), then C(z=0): the order is A, C, B, whether they
    come in three calls or in one. *)
Example addGeometry_A_B_C :
  _geoList layer_ABC = [1; 3; 2]
  ∧ _geoList (state_of (addGeometry empty_layer [Some 1; Some 2; Some 3]))
    = [1; 3; 2].
Proof. by vm_compute. Qed.

Lemma addGeometry_calls_order_witness :
  stable_sort_by (getZIndex layer_ABC) [1; 2; 3] (_geoList layer_ABC)
  ∧ internal_ids_from layer_ABC 0 [1; 2; 3]
  ∧ StronglySorted (geo_lt layer_ABC) (_geoList layer_ABC)
  ∧ (∀ r, getZIndex layer_ABC r = getZIndex empty_layer r).
Proof.
  apply (addGeometry_calls_order empty_layer [[Some 1]; [Some 2]; [Some 3]]).
  - reflexivity.
  - apply (bool_decide_unpack _). vm_compute. exact I.
  - vm_compute. reflexivity.
Defined.

(** B(z=5) is in the layer; a call adds A(z=0, id a) and D(id a again). It
    throws on D and leaves A behind B. *)
Lemma addGeometry_calls_order_counterexample :
  let calls := [[Some 2]; [Some 1; Some 4]] in
  let w := state_of (addGeometry_calls empty_layer calls) in
  returns (addGeometry_calls empty_layer calls) = false
  ∧ _geoList w = [2; 1]
  ∧ getZIndex w 2 = 5%Z ∧ getZIndex w 1 = 0%Z
  ∧ ¬ StronglySorted (λ a b, (getZIndex w a ≤ getZIndex w b)%Z) (_geoList w)
  ∧ ¬ stable_sort_by (getZIndex w) [2; 1] (_geoList w).
Proof.
  intros calls w.
  assert (¬ StronglySorted (λ a b, (getZIndex w a ≤ getZIndex w b)%Z)
                           (_geoList w)) as Hunsorted.
  { intros Hs. apply StronglySorted_cons in Hs as [Hs _].
    apply Forall_cons in Hs as [Hs _]. vm_compute in Hs. by apply Hs. }
  split_and!; [by vm_compute..|done|].
  intros [_ Hs _]. by apply Hunsorted.
Qed.

(** A(id a) is in the layer; a call adds C(id c) and D(id a). *)
Lemma addGeometry_duplicate_id_witness :
  let w := state_of (addGeometry empty_layer [Some 1]) in
  let w1 := state_of (addGeometry_loop w 0 [Some 3]) in
  addGeometry w [Some 3; Some 4]
    = Throw "Duplicate geometry id in layer(v):a, at index:1" w1
  ∧ _geoList w1 = [1; 3]
  ∧ ([Some 3] = [] → w1 = w).
Proof.
  apply (addGeometry_duplicate_id
           (state_of (addGeometry empty_layer [Some 1])) [Some 3] 4 []
           (state_of (addGeometry_loop (state_of (addGeometry empty_layer [Some 1]))
                        0 [Some 3])) "a").
  - vm_compute. reflexivity.
  - vm_compute. reflexivity.
  - exists 1%nat. vm_compute. reflexivity.
Defined.

(** The same call: it throws on D, and C, which came before D in the array,
    is in the store. *)
Lemma addGeometry_duplicate_id_counterexample :
  let w := state_of (addGeometry empty_layer [Some 1]) in
  let outcome := addGeometry w [Some 3; Some 4] in
  returns outcome = false
  ∧ getId w 4 = Some "a" ∧ getGeometryById w (IdKey "a") = Some (Geo 1)
  ∧ _geoList w = [1]
  ∧ _geoList (state_of outcome) = [1; 3]
  ∧ getGeometryById (state_of outcome) (IdKey "c") = Some (Geo 3)
  ∧ state_of outcome ≠ w.
Proof.
  intros w outcome. split_and!; [by vm_compute..|].
  intros H. apply (f_equal _geoList) in H. by vm_compute in H.
Qed.

Lemma addGeometry_null_entry_witness :
  let w1 := state_of (addGeometry_loop empty_layer 0 [Some 1]) in
  addGeometry empty_layer [Some 1; None]
    = Throw "Invalid geometry to add to layer(v) at index:1" w1
  ∧ _geoList w1 = [1]
  ∧ ([Some 1] = [] → w1 = empty_layer).
Proof.
  apply (addGeometry_null_entry empty_layer [Some 1] []
           (state_of (addGeometry_loop empty_layer 0 [Some 1]))).
  vm_compute. reflexivity.
Defined.

(** addGeometry([g1, null]): the error names index 1, and g1 is in the
    store. *)
Lemma addGeometry_null_entry_counterexample :
  let outcome := addGeometry empty_layer [Some 1; None] in
  outcome = Throw "Invalid geometry to add to layer(v) at index:1" (state_of outcome)
  ∧ _geoList empty_layer = []
  ∧ _geoList (state_of outcome) = [1]
  ∧ getGeometryById (state_of outcome) (IdKey "a") = Some (Geo 1)
  ∧ getLayer (state_of outcome) 1 = Some (layer_self empty_layer).
Proof. intros outcome. split_and!; by vm_compute. Qed.

(** A point inside A, B and C, at most two results: B, then C. *)
Lemma identify_topmost_first_witness :
  ∃ r, identify layer_ABC hits_all (mkIdentifyOptions None (Some 2%Z)) = Some r
       ∧ hits r = [2; 3]
       ∧ StronglySorted (flip (geo_lt layer_ABC)) (hits r).
Proof.
  destruct (identify_topmost_first layer_ABC hits_all
              (mkIdentifyOptions None (Some 2%Z)) eq_refl)
    as (r & Hr & Hhits & _ & Hsorted & _).
  exists r. split; [exact Hr|]. split; [exact Hhits|].
  apply Hsorted.
  apply (addGeometry_calls_inv [[Some 1]; [Some 2]; [Some 3]] empty_layer
           layer_ABC 0 []).
  - vm_compute. reflexivity.
  - apply (bool_decide_unpack _). vm_compute. exact I.
  - split; [reflexivity| |reflexivity]. intros i g Hi. by destruct i.
  - constructor.
Defined.

(** B(z=5) is in the layer and the call that adds A(z=0) has thrown on D:
    the sequence is B, A, and a point inside both finds A first, then B,
    which is drawn above A. On the layer of A, B and C taken off its map,
    [identify] answers nothing. *)
Lemma identify_topmost_first_counterexample :
  _geoList layer_B_A = [2; 1]
  ∧ getZIndex layer_B_A 1 = 0%Z ∧ getZIndex layer_B_A 2 = 5%Z
  ∧ has_map layer_B_A = true
  ∧ hits <$> identify layer_B_A hits_all (mkIdentifyOptions None None)
    = Some [1; 2]
  ∧ ¬ StronglySorted (flip (geo_lt layer_B_A)) [1; 2]
  ∧ _geoList layer_ABC_off_map = [1; 3; 2]
  ∧ identify layer_ABC_off_map hits_all (mkIdentifyOptions None None) = None.
Proof.
  split_and!; try (by vm_compute).
  intros Hs. apply StronglySorted_cons in Hs as [Hs _].
  apply Forall_cons in Hs as [Hs _]. vm_compute in Hs.
  destruct Hs as [Hs|[Hs _]]; discriminate.
Qed.

(** Without a count, over the same point: B, C, A. *)
Example identify_B_C_A :
  hits <$> identify layer_ABC hits_all (mkIdentifyOptions None None)
  = Some [2; 3; 1].
Proof. by vm_compute. Qed.

(** A is removed; its id is free again and D, which carries it, goes in. *)
Example remove_A_add_D :
  let w' := state_of (removeGeometry layer_ABC [ByRef 1]) in
  getGeometryById w' (IdKey "a") = None
  ∧ ∃ w'', addGeometry w' [Some 4] = Return w''
           ∧ getGeometryById w'' (IdKey "a") = Some (Geo 4).
Proof.
  destruct (remove_then_add_same_id layer_ABC 1 "a" 0
              (state_of (removeGeometry layer_ABC [ByRef 1])))
    as (_ & Hown & _).
  - reflexivity.
  - vm_compute. reflexivity.
  - vm_compute. reflexivity.
  - vm_compute. reflexivity.
  - apply list_elem_of_further, list_elem_of_further, list_elem_of_here.
  - destruct Hown as [Hnull Hadd]; [vm_compute; reflexivity|].
    split; [exact Hnull|].
    destruct (Hadd 4) as (w'' & Hw'' & _ & _ & Hget).
    + vm_compute. reflexivity.
    + intros _. vm_compute. reflexivity.
    + exists w''. split; [exact Hw''|]. apply Hget. discriminate.
Qed.

(** C5, on the layer that holds A (id a) and is bound to its map while its
    renderer is not there yet. [removeGeometry] of A returns and the lookup
    of a is null. The add of D, which carries the id a, registers D, fires
    its [add] event and raises a TypeError on the call of the renderer's
    [onGeometryAdd]: it does not return, the renderer is not told and
    [addgeo] is not fired. *)
Theorem remove_then_add_unloaded :
  let removed := removeGeometry layer_A_unloaded [ByRef 1] in
  let added := addGeometry (state_of removed) [Some 4] in
  has_map layer_A_unloaded = true ∧ has_renderer layer_A_unloaded = false
  ∧ getGeometryById layer_A_unloaded (IdKey "a") = Some (Geo 1)
  ∧ getLayer layer_A_unloaded 1 = Some (layer_self layer_A_unloaded)
  ∧ returns removed = true
  ∧ getGeometryById (state_of removed) (IdKey "a") = None
  ∧ getId (state_of removed) 4 = Some "a"
  ∧ added = Throw TypeError (state_of added)
  ∧ getGeometryById (state_of added) (IdKey "a") = Some (Geo 4)
  ∧ _geoList (state_of added) = [4]
  ∧ events (state_of added) = events (state_of removed) ++ [GeometryAdd 4].
Proof. intros removed added. split_and!; by vm_compute. Qed.

(** The callback empties the store at the first geometry; the three
    geometries are visited all the same, in the order they had. *)
Example forEach_while_clearing :
  (forEach remove_and_clear layer_ABC).2 = [(1, 0); (3, 1); (2, 2)]%nat
  ∧ _geoList (forEach remove_and_clear layer_ABC).1 = [].
Proof. by vm_compute. Qed.

(** A geometry sits under the empty key; the lookup of that key is null. *)
Example getGeometryById_empty_key :
  let w := with_geoMap layer_ABC (<["" := 1]> (_geoMap layer_ABC)) in
  _geoMap w !! "" = Some 1 ∧ getGeometryById w (IdKey "") = None.
Proof.
  split; [by vm_compute|].
  apply (proj1 (getGeometryById_null
           (with_geoMap layer_ABC (<["" := 1]> (_geoMap layer_ABC))) (IdKey ""))).
  right. left. reflexivity.
Qed.

(** C10, on a layer without geometries. No geometry is registered under
    'constructor', and [getGeometryById] of that id answers the member of
    Object.prototype of that name, which the read of the id map finds, and
    not null; so it does for every name of Object.prototype. For null,
    undefined, the empty string and an id that is no such name it answers
    null. *)
Theorem getGeometryById_inherited :
  _geoList empty_layer = [] ∧ _geoMap empty_layer = ∅
  ∧ getGeometryById empty_layer (IdKey "constructor")
    = Some (Proto "constructor")
  ∧ Forall (λ name, getGeometryById empty_layer (IdKey name)
                    = Some (Proto name)) Object_prototype
  ∧ getGeometryById empty_layer IdNull = None
  ∧ getGeometryById empty_layer IdUndefined = None
  ∧ getGeometryById empty_layer (IdKey "") = None
  ∧ getGeometryById empty_layer (IdKey "a") = None.
Proof.
  split_and!; try (by vm_compute).
  unfold Object_prototype. repeat constructor.
Qed.

End overlay_examples.

Section text_examples.
Import TextMarker Examples.


(** Two draws of "Hi" at the default size, then one at size 12, outside
    Node: one layout for the first two, one more for the third, and two
    entries in the cache. *)
Lemma text_layout_cache_witness :
  let new := new_TextMarkerSymbolizer rows false no_value to_string in
  let g1 := (new symbol_Hi never_drawn).2 in
  let g2 := (new symbol_Hi g1).2 in
  let g3 := (new (<["textSize" := VNum 12]> symbol_Hi) g2).2 in
  layouts g1 = 1%nat ∧ layouts g2 = 1%nat ∧ layouts g3 = 2%nat
  ∧ (new symbol_Hi g1).1 = (new symbol_Hi never_drawn).1
  ∧ cache_key_of to_string (<["textSize" := VNum 12]> symbol_Hi)
    ≠ cache_key_of to_string symbol_Hi
  ∧ cache_lookup g3 (cache_key_of to_string symbol_Hi) = Some ["Hi"; "10"]
  ∧ cache_lookup g3 (cache_key_of to_string (<["textSize" := VNum 12]> symbol_Hi))
    = Some ["Hi"; "12"].
Proof.
  intros new g1 g2 g3.
  destruct (proj1 (text_layout_cache rows no_value to_string symbol_Hi never_drawn))
    as (this & d & Hnew & _ & _ & _ & Hfirst & _ & Hagain & _).
  { vm_compute. reflexivity. }
  destruct (proj1 (text_layout_cache rows no_value to_string symbol_Hi g1))
    as (this2 & d2 & _ & _ & _ & Hcached & _ & _ & _ & Hsize).
  { vm_compute. reflexivity. }
  destruct (Hsize (VNum 12)) as [Hkey Hmiss]; [reflexivity|].
  assert (cache_key_of to_string (<["textSize" := VNum 12]> symbol_Hi)
          ≠ cache_key_of to_string symbol_Hi) as Hne.
  { intros Heq. apply (proj1 Hkey) in Heq. vm_compute in Heq. discriminate. }
  destruct (Hmiss Hne) as (Hlay & Hold & Hnew12); [vm_compute; reflexivity|].
  split_and!; try (vm_compute; reflexivity).
  exact Hne.
Defined.

(** Under Node a static symbol never gets into the cache: the second
    layout computes again. And outside Node the size '10', a string, and
    the size 10, a number, are two styles that differ in [textSize] and
    have one key: the second symbol gets the entry of the first. *)
Lemma text_layout_cache_counterexample :
  let new := new_TextMarkerSymbolizer rows true no_value to_string in
  let '(this, g1) := new symbol_Hi never_drawn in
  let '(this', g2) := _descText rows true this g1 "Hi" in
  let sym' := <["textSize" := VStr "10"]> symbol_Hi in
  let browser := new_TextMarkerSymbolizer rows false no_value to_string in
  let g3 := (browser symbol_Hi never_drawn).2 in
  hasFunctionDefinition symbol_Hi = false
  ∧ layouts g1 = 1%nat ∧ text_symbol_cache g1 = None
  ∧ layouts g2 = 2%nat ∧ text_symbol_cache g2 = None
  ∧ cache_writes g2 = 0%nat
  ∧ layouts (new symbol_Hi g1).2 = 2%nat
  ∧ hasFunctionDefinition sym' = false
  ∧ style_get (translate sym') "textSize" = VStr "10"
  ∧ style_get (translate symbol_Hi) "textSize" = VNum 10
  ∧ cache_key_of to_string sym' = cache_key_of to_string symbol_Hi
  ∧ layouts g3 = 1%nat
  ∧ layouts (browser sym' g3).2 = 1%nat
  ∧ cache_writes (browser sym' g3).2 = 1%nat.
Proof. vm_compute. done. Qed.

(** The constructor, then two draws of the same static symbol, outside
    Node: one layout in all, the draws read the cache. *)
Example text_two_draws :
  let new := new_TextMarkerSymbolizer rows false no_value to_string in
  let '(this, g1) := new symbol_Hi never_drawn in
  let '(this1, g2) := symbolize_descText rows false to_string this g1 [(0, 0)%Z] in
  let '(this2, g3) := symbolize_descText rows false to_string this1 g2 [(0, 0)%Z] in
  layouts g1 = 1%nat ∧ layouts g3 = 1%nat ∧ cache_reads g3 = 3%nat
  ∧ textDesc this2 = Some ["Hi"; "10"].
Proof. vm_compute. done. Qed.

(** A symbol with a computed size: every layout computes, the cache is
    never read nor written. *)
Example text_dynamic_recomputes :
  let new := new_TextMarkerSymbolizer rows false no_value to_string in
  let '(this, g1) := new symbol_dynamic never_drawn in
  let '(this', g2) := _descText rows false this g1 "Hi" in
  hasFunctionDefinition symbol_dynamic = true
  ∧ g1 = mkGeometryState None 1 0 0
  ∧ g2 = mkGeometryState None 2 0 0.
Proof. vm_compute. done. Qed.

End text_examples.

Section image_examples.
Import ImageMarker Examples.

(** Two points at half opacity on a context at alpha 1: both are drawn at
    alpha 1/2, the second in a rotated frame, and the context is left at
    alpha 1. *)
Lemma symbolize_restores_globalAlpha_witness :
  let ctx' := (state_of (symbolize (λ ctx, ctx) two_points second_rotated
                           pin_image (λ _, false) false false turned_frame
                           half_opaque blank_context)).1.2 in
  globalAlpha ctx' = 1%Q
  ∧ blit_alpha <$> drawn ctx' = [(1 * (1 # 2))%Q; (1 * (1 # 2))%Q]
  ∧ saved ctx' = [].
Proof.
  intros ctx'.
  destruct (symbolize_restores_globalAlpha (λ ctx, ctx) two_points second_rotated
              pin_image (λ _, false) false false turned_frame half_opaque
              blank_context (1 # 2)%Q)
    as [_ Halpha].
  - reflexivity.
  - reflexivity.
  - reflexivity.
  - split_and!; [apply Halpha; reflexivity|vm_compute; reflexivity..].
Defined.

(** The same marker on a context at alpha 1/2, with a [_prepareContext]
    that sets the alpha to 1: the two points are drawn at alpha 1/2 and the
    context is left at alpha 1, not at the 1/2 it had before the call. *)
Lemma symbolize_restores_globalAlpha_counterexample :
  let run := symbolize full_alpha two_points second_rotated pin_image
               (λ _, false) false false turned_frame half_opaque
               dimmed_context in
  let ctx' := (state_of run).1.2 in
  is_path (markerType half_opaque) = false
  ∧ markerOpacity (style half_opaque) = Some (1 # 2)%Q
  ∧ returns run = true
  ∧ globalAlpha dimmed_context = (1 # 2)%Q
  ∧ globalAlpha ctx' = 1%Q
  ∧ ¬ (globalAlpha ctx' == globalAlpha dimmed_context)%Q
  ∧ blit_alpha <$> drawn ctx' = [(1 * (1 # 2))%Q; (1 * (1 # 2))%Q].
Proof.
  intros run ctx'. split_and!; try (by vm_compute).
Qed.

End image_examples.

Section more_overlay_examples.
Import Overlay Examples.

Lemma layer_ABC_sorted : StronglySorted (geo_lt layer_ABC) (_geoList layer_ABC).
Proof.
  apply (addGeometry_calls_inv [[Some 1]; [Some 2]; [Some 3]] empty_layer
           layer_ABC 0 []).
  - vm_compute. reflexivity.
  - apply (bool_decide_unpack _). vm_compute. exact I.
  - split; [reflexivity| |reflexivity]. intros i g Hi. by destruct i.
  - constructor.
Qed.

(** C is found at index 1 of A, C, B; D, which is not listed, is not
    found. *)
Lemma _findInList_index_witness :
  _findInList layer_ABC 3 = 1%Z ∧ _findInList layer_ABC 4 = (-1)%Z.
Proof.
  split.
  - apply (proj1 (proj2 (_findInList_index layer_ABC 3)) layer_ABC_sorted 1%nat).
    reflexivity.
  - apply (proj2 (proj2 (_findInList_index layer_ABC 4))).
    apply (bool_decide_unpack _). vm_compute. exact I.
Defined.

(** C is removed from A, C, B. *)
Lemma onRemoveGeometry_listed_witness :
  let w' := onRemoveGeometry layer_ABC (Some 3) in
  _geoList w' = [1; 2]
  ∧ _geoMap w' = delete "c" (_geoMap layer_ABC)
  ∧ StronglySorted (geo_lt w') (_geoList w').
Proof.
  destruct (onRemoveGeometry_listed layer_ABC 3 1 2)
    as (Hl & _ & _ & Hm & Hs & _).
  - reflexivity.
  - vm_compute. reflexivity.
  - vm_compute. reflexivity.
  - exact layer_ABC_sorted.
  - reflexivity.
  - split; [exact Hl|]. split; [exact Hm|exact Hs].
Defined.

(** An id that is not registered and D, which is in no layer: nothing is
    removed. With the id 'toString' before D the call raises, and A, whose
    id comes first in the array, is not removed. *)
Lemma removeGeometry_foreign_witness :
  removeGeometry layer_ABC [ById (IdKey "zz"); ByRef 4]
  = Return (emit layer_ABC (LayerRemoveGeo [None; Some 4]))
  ∧ removeGeometry layer_ABC [ById (IdKey "a"); ById (IdKey "toString"); ByRef 4]
    = Throw TypeError layer_ABC.
Proof.
  split.
  - apply (proj1 (removeGeometry_foreign layer_ABC
                    [ById (IdKey "zz"); ByRef 4])).
    intros t Ht.
    apply elem_of_cons in Ht as [->|Ht]; [vm_compute; exact I|].
    apply elem_of_cons in Ht as [->|Ht]; [vm_compute; discriminate|].
    by apply elem_of_nil in Ht.
  - apply (proj2 (removeGeometry_foreign layer_ABC
                    [ById (IdKey "a"); ById (IdKey "toString"); ByRef 4])
             [ById (IdKey "a")] (ById (IdKey "toString")) [ByRef 4] "toString").
    + reflexivity.
    + intros t Ht.
      apply elem_of_cons in Ht as [->|Ht]; [vm_compute; discriminate|].
      by apply elem_of_nil in Ht.
    + vm_compute. reflexivity.
Defined.

(** A and B go into the empty layer in one call. *)
Lemma addGeometry_registers_witness :
  let w' := state_of (addGeometry empty_layer [Some 1; Some 2]) in
  getGeometryById w' (IdKey "b") = Some (Geo 2) ∧ getCount w' = 2%nat.
Proof.
  destruct (addGeometry_registers empty_layer [Some 1; Some 2]
              (state_of (addGeometry empty_layer [Some 1; Some 2])))
    as (Hget & _ & _ & _ & _ & Hcount).
  - vm_compute. reflexivity.
  - split; [|exact Hcount].
    apply (Hget 2%nat "b").
    + apply list_elem_of_further, list_elem_of_here.
    + vm_compute. reflexivity.
    + discriminate.
Defined.

(** A and C go into the layer that holds B. C goes into the layer that
    holds A and has no renderer yet: the call raises after the [add]
    event of C. *)
Lemma addGeometry_accepts_witness :
  (∃ w', addGeometry layer_B [Some 1; Some 3] = Return w'
         ∧ events w' = events layer_B
             ++ [GeometryAdd 1; GeometryAdd 3;
                 RendererGeometryAdd [Some 1; Some 3];
                 LayerAddGeo [Some 1; Some 3]])
  ∧ (∃ w', addGeometry layer_A_unloaded [Some 3] = Throw TypeError w'
           ∧ events w' = events layer_A_unloaded ++ [GeometryAdd 3]).
Proof.
  split.
  - assert (omap (getId layer_B) (refs_of [Some 1; Some 3]) = ["a"; "c"]) as E.
    { vm_compute. reflexivity. }
    apply (addGeometry_accepts layer_B [Some 1; Some 3]).
    + discriminate.
    + repeat constructor; eexists; reflexivity.
    + rewrite E. apply (bool_decide_unpack _). vm_compute. exact I.
    + rewrite E. intros k Hk.
      apply elem_of_cons in Hk as [->|Hk]; [vm_compute; reflexivity|].
      apply elem_of_cons in Hk as [->|Hk]; [vm_compute; reflexivity|].
      by apply elem_of_nil in Hk.
  - assert (omap (getId layer_A_unloaded) (refs_of [Some 3]) = ["c"]) as E.
    { vm_compute. reflexivity. }
    apply (addGeometry_accepts layer_A_unloaded [Some 3]).
    + discriminate.
    + repeat constructor; eexists; reflexivity.
    + rewrite E. apply (bool_decide_unpack _). vm_compute. exact I.
    + rewrite E. intros k Hk.
      apply elem_of_cons in Hk as [->|Hk]; [vm_compute; reflexivity|].
      by apply elem_of_nil in Hk.
Defined.

(** A was raised from z-index 0 to 9: the sequence A, C, B becomes
    C, B, A. *)
Lemma _onGeometryZIndexChange_sorts_witness :
  let w' := (_onGeometryZIndexChange layer_A_raised 0 9).1 in
  StronglySorted (geo_lt w') (_geoList w') ∧ _geoList w' = [3; 2; 1].
Proof.
  destruct (_onGeometryZIndexChange_sorts layer_A_raised 0 9) as [Hsorts _].
  - apply (bool_decide_unpack _). vm_compute. exact I.
  - apply (proj1 (Forall_forall _ _)).
    apply (bool_decide_unpack _). vm_compute. exact I.
  - intros a b Ha. revert b. apply (proj1 (Forall_forall
      (λ b, a ≠ b → _getInternalId layer_A_raised a
                    ≠ _getInternalId layer_A_raised b) _)).
    revert a Ha.
    apply (proj1 (Forall_forall _ _)).
    apply (bool_decide_unpack _). vm_compute. exact I.
  - destruct Hsorts as (Hs & _); [lia|].
    split; [exact Hs|]. vm_compute. reflexivity.
Defined.

(** A is renamed from 'a' to 'z'. *)
Lemma _onGeometryIdChange_renames_witness :
  ∃ w', _onGeometryIdChange layer_ABC (IdvStr "a") (IdvStr "z") 1 = Return w'
        ∧ _geoMap w' !! "z" = Some 1 ∧ _geoMap w' !! "a" = None
        ∧ _geoMap w' !! "b" = Some 2.
Proof.
  destruct (_onGeometryIdChange_renames layer_ABC (IdvStr "a") (IdvStr "z") 1)
    as (w' & Hw' & Hnew & Hold & Hothers & _).
  - reflexivity.
  - intros _. discriminate.
  - vm_compute. reflexivity.
  - exists w'. split; [exact Hw'|]. split; [exact Hnew|].
    split; [apply Hold; reflexivity|].
    rewrite (Hothers "b"); [vm_compute; reflexivity|discriminate|].
    right. discriminate.
Defined.

(** A is renamed to 'b', the id of B. *)
Lemma _onGeometryIdChange_collision_witness :
  _onGeometryIdChange layer_ABC (IdvStr "a") (IdvStr "b") 1
  = Throw "Duplicate geometry id in layer(v):b" layer_ABC.
Proof.
  apply (_onGeometryIdChange_collision layer_ABC (IdvStr "a") (IdvStr "b") 1).
  - reflexivity.
  - exists 2%nat. vm_compute. reflexivity.
  - left. discriminate.
Defined.

(** A is at the bottom of A, C, B and B on top. *)
Lemma first_and_last_geometry_witness :
  getFirstGeometry layer_ABC = Some 1 ∧ getLastGeometry layer_ABC = Some 2
  ∧ geo_lt layer_ABC 1 3 ∧ geo_lt layer_ABC 3 2.
Proof.
  destruct (first_and_last_geometry layer_ABC layer_ABC_sorted)
    as (_ & _ & _ & Hfirst & Hlast).
  split; [reflexivity|]. split; [reflexivity|]. split.
  - apply (proj2 (Hfirst 1%nat eq_refl) 3%nat); [|discriminate].
    apply list_elem_of_further, list_elem_of_here.
  - apply (proj2 (Hlast 2%nat eq_refl) 3%nat); [|discriminate].
    apply list_elem_of_further, list_elem_of_here.
Defined.

(** A point inside A, B and C with a count of -1: B alone. *)
Lemma identify_count_edges_witness :
  ∃ r, identify layer_ABC hits_all (mkIdentifyOptions None (Some (-1)%Z)) = Some r
       ∧ hits r = [2].
Proof.
  destruct (identify_count_edges layer_ABC hits_all
              (mkIdentifyOptions None (Some (-1)%Z)) eq_refl)
    as (r & Hr & _ & Hneg).
  exists r. split; [exact Hr|].
  rewrite (Hneg (-1)%Z eq_refl); [vm_compute; reflexivity|lia].
Defined.

(** The geometries of A, C, B with a z-index of 0: A and C. *)
Lemma getGeometries_filtered_witness :
  let f := Some (λ g, (getZIndex layer_ABC g =? 0)%Z) in
  getGeometries layer_ABC f = [1; 3]
  ∧ StronglySorted (geo_lt layer_ABC) (getGeometries layer_ABC f).
Proof.
  intros f. split; [vm_compute; reflexivity|].
  apply (proj2 (proj2 (proj2 (getGeometries_filtered layer_ABC f)))).
  exact layer_ABC_sorted.
Defined.

(** A, C and B are cleared away. *)
Lemma clear_empties_witness :
  _geoList (clear layer_ABC) = []
  ∧ getGeometryById (clear layer_ABC) (IdKey "a") = None
  ∧ getGeometryById (clear layer_ABC) (IdKey "valueOf") = Some (Proto "valueOf")
  ∧ getLayer (clear layer_ABC) 1 = None
  ∧ events (clear layer_ABC)
    = events layer_ABC ++ [RendererGeometryRemove [1; 3; 2]; LayerClear].
Proof.
  destruct (clear_empties layer_ABC) as (Hl & _ & _ & _ & Hget & He & Hu).
  split; [exact Hl|]. split; [exact (Hget (IdKey "a"))|].
  split; [exact (Hget (IdKey "valueOf"))|]. split; [|exact He].
  apply Hu. apply list_elem_of_here.
Defined.

(** A and D are to be removed from A, C, B; D is in no layer. *)
Lemma removeGeometry_removes_witness :
  ∃ w', removeGeometry layer_ABC [ByRef 1; ByRef 4] = Return w'
  ∧ _geoList w' = [3; 2]
  ∧ StronglySorted (geo_lt w') (_geoList w')
  ∧ _geoMap w' !! "a" = None.
Proof.
  destruct (removeGeometry_removes layer_ABC [1; 4])
    as (w' & Hw' & Hl & Hs & _ & _ & Hdel & _).
  - reflexivity.
  - exact layer_ABC_sorted.
  - unfold listed_bound. apply (proj1 (Forall_forall _ _)).
    apply (bool_decide_unpack _). vm_compute. exact I.
  - apply (proj1 (Forall_forall
      (λ g, getLayer layer_ABC g = Some (layer_self layer_ABC)
            → g ∈ _geoList layer_ABC) _)).
    apply (bool_decide_unpack _). vm_compute. exact I.
  - exists w'. split; [exact Hw'|].
    split; [etransitivity; [exact Hl|vm_compute; reflexivity]|].
    split; [exact Hs|].
    apply (Hdel 1%nat "a").
    + apply list_elem_of_here.
    + apply list_elem_of_here.
    + vm_compute. reflexivity.
Defined.

End more_overlay_examples.

Section more_text_examples.
Import TextMarker Examples.

Lemma genCacheKey_content_inj_witness :
  genCacheKey "Hi" (translate symbol_Hi) = genCacheKey "Hi" (translate symbol_Hi)
  ∧ "Hi" = "Hi".
Proof.
  split; [reflexivity|].
  apply (genCacheKey_content_inj "Hi" "Hi" (translate symbol_Hi)). reflexivity.
Defined.

(** The size 10 as a number and as a string: one key. A property named
    'size' is not in the key. *)
Lemma genCacheKey_property_witness :
  genCacheKey "Hi" (translate_before symbol_Hi
                    ++ ("textSize", VNum 10) :: translate_after symbol_Hi)
  = genCacheKey "Hi" (translate_before symbol_Hi
                      ++ ("textSize", VStr "10") :: translate_after symbol_Hi)
  ∧ genCacheKey "Hi" (translate symbol_Hi ++ [("size", VNum 1)])
    = genCacheKey "Hi" (translate symbol_Hi ++ [("size", VNum 2)]).
Proof.
  split.
  - apply (proj1 (genCacheKey_property "Hi" (translate_before symbol_Hi)
                    (translate_after symbol_Hi) "textSize" (VNum 10) (VStr "10"))).
    + reflexivity.
    + reflexivity.
  - apply (proj2 (genCacheKey_property "Hi" (translate symbol_Hi) []
                    "size" (VNum 1) (VNum 2))).
    reflexivity.
Defined.

(** The symbolizer of "Hi" lays "Bye" out on a geometry that was never
    drawn: the layout of "Bye" is cached under the key of "Hi". *)
Lemma _descText_cache_grows_witness :
  let this := (new_TextMarkerSymbolizer rows false no_value to_string
                 symbol_Hi never_drawn).1 in
  let run := _descText rows false this never_drawn "Bye" in
  cache_lookup run.2 (cache_key_name this) = Some ["Bye"; "10"]
  ∧ textDesc run.1 = Some ["Bye"; "10"].
Proof.
  intros this run.
  destruct (_descText_cache_grows rows false this never_drawn "Bye")
    as (_ & _ & Hkey & _ & _).
  split; [|vm_compute; reflexivity]. subst run.
  rewrite Hkey; [vm_compute; reflexivity|reflexivity|reflexivity].
Defined.

(** A symbol with a rotation of 45 degrees: the symbolizer has none. *)
Lemma getRotation_null_witness :
  prop symbol_rotated "textRotation" = VNum 45
  ∧ getRotation (new_TextMarkerSymbolizer rows false no_value to_string
                   symbol_rotated never_drawn).1 = None.
Proof.
  split; [vm_compute; reflexivity|].
  apply (getRotation_null rows false no_value to_string symbol_rotated
           never_drawn).
Defined.

End more_text_examples.

Section more_image_examples.
Import ImageMarker Examples.

(** The pin at half opacity on two points, the second turned by 90: two
    blits of 16 by 24 at half the alpha, the first with its bottom centre at
    the first point, the second at the origin of the frame that was moved to
    the second point and turned. *)
Lemma symbolize_draws_witness :
  let run := symbolize (λ ctx, ctx) two_points second_rotated pin_image
               (λ _, false) false false turned_frame half_opaque
               blank_context in
  returns run = true
  ∧ (state_of run).1.2
    = mkContext2D 1%Q [] []
        [marker_blit [] (1 * (1 # 2))%Q (16%Q, 24%Q) (10, 10)%Q;
         marker_blit [Translate 20 20; Rotate 90]%Q
           (1 * (1 # 2))%Q (16%Q, 24%Q) (0, 0)%Q].
Proof.
  exact (symbolize_draws (λ ctx, ctx) two_points second_rotated pin_image
           (λ _, false) false false turned_frame half_opaque blank_context).
Defined.

(** The pin has no size of its own: it gets the image's, 16 by 24. *)
Lemma symbolize_settles_size_witness :
  ∃ ctx',
    symbolize (λ ctx, ctx) two_points second_rotated pin_image
      (λ _, false) false false turned_frame half_opaque blank_context
    = Return (mkSymbolizer None (set_size (style half_opaque) 16%Q 24%Q),
              ctx',
              [AddResource ("pin.png", Some 16%Q, Some 24%Q); RemoveCache]).
Proof.
  exact (symbolize_settles_size (λ ctx, ctx) two_points second_rotated pin_image
           (λ _, false) false false turned_frame half_opaque blank_context).
Defined.

(** A marker whose [markerFile] is the empty string, without an image: the
    warning is not given, the read of [this._url[0]] raises. Under
    phantomjs nothing happens. *)
Example symbolize_unnamed_marker :
  symbolize (λ ctx, ctx) two_points second_rotated no_image (λ _, false)
    false false turned_frame unnamed_marker blank_context
  = Throw TypeError (unnamed_marker, blank_context, [])
  ∧ symbolize (λ ctx, ctx) two_points second_rotated no_image (λ _, false)
      false true turned_frame unnamed_marker blank_context
    = Return (unnamed_marker, blank_context, []).
Proof. by vm_compute. Qed.

End more_image_examples.

Section more_layer_examples.
Import Layer Examples.

(** The layer in the middle is hidden, then brought to the front. *)
Lemma show_hide_visibility_witness :
  (isVisible (hide middle_layer)).1 = false
  ∧ (isVisible (show (hide middle_layer))).1 = true.
Proof.
  split.
  - apply (proj1 (proj2 (proj2 (show_hide_visibility middle_layer)))).
    discriminate.
  - rewrite (proj1 (proj2 (show_hide_visibility (hide middle_layer)))).
    reflexivity.
Defined.

Lemma bringToFront_back_bounds_witness :
  getZIndex (bringToFront middle_layer) = Some 4%Z
  ∧ getZIndex (bringToBack middle_layer) = Some (-1)%Z
  ∧ (∀ z, Other z ∈ _layers map_of_three →
          z_lt z (getZIndex (bringToFront middle_layer)))
  ∧ (∀ z, Other z ∈ _layers map_of_three →
          z_lt (getZIndex (bringToBack middle_layer)) z).
Proof.
  destruct (bringToFront_back_bounds middle_layer map_of_three)
    as [[_ Hfront] [_ Hback]].
  - reflexivity.
  - apply list_elem_of_further, list_elem_of_here.
  - apply (proj1 (Forall_forall _ _)).
    repeat constructor; vm_compute; split; reflexivity.
  - repeat constructor; vm_compute; discriminate.
  - split; [reflexivity|]. split; [reflexivity|]. split.
    + destruct Hfront as [Hsame|Hfront]; [|exact Hfront].
      apply (f_equal getZIndex) in Hsame. vm_compute in Hsame. discriminate.
    + destruct Hback as [Hsame|Hback]; [|exact Hback].
      apply (f_equal getZIndex) in Hsame. vm_compute in Hsame. discriminate.
Defined.

(** Under a layer at 2^53 the sum 2^53 + 1 rounds to 2^53: after
    [bringToFront] the layer is level with the other one, not above it. *)
Example bringToFront_at_limit :
  getZIndex (bringToFront layer_under_limit) = Some (2 ^ 53)%Z
  ∧ ¬ z_lt (Some (2 ^ 53)%Z) (getZIndex (bringToFront layer_under_limit)).
Proof. split; [by vm_compute|]. vm_compute. discriminate. Qed.

End more_layer_examples.

Section maptool_examples.
Import MapTool Examples.

(** The second tool was never added: it cannot be enabled. The first is
    enabled: enabling it again does nothing. *)
Lemma enable_disable_witness :
  enable two_tools 2 = two_tools ∧ enable two_tools 1 = two_tools
  ∧ isEnabled (disable two_tools 1) 1 = false.
Proof.
  destruct (enable_disable two_tools 2) as (Hnever & _).
  destruct (enable_disable two_tools 1) as (_ & Hadded & Hon & _).
  split; [apply Hnever; reflexivity|].
  split; [apply Hon; reflexivity|].
  apply Hadded. reflexivity.
Defined.

(** The second draw tool is added: it takes the place of the first, which
    is disabled. *)
Lemma addTo_enables_witness :
  let w' := addTo two_tools 2 true in
  isEnabled w' 2 = true ∧ isEnabled w' 1 = false
  ∧ registry w' !! "_toolDrawTool" = Some 2.
Proof.
  destruct (addTo_enables two_tools 2) as (Hon & _ & Hreg & _ & Hoff & _).
  - intros p Hp. vm_compute in Hp. injection Hp as <-. reflexivity.
  - split; [exact Hon|]. split; [|exact Hreg].
    apply (Hoff 1%nat); [reflexivity|discriminate].
Defined.

End maptool_examples.
